(** * redis_idgen: a shallow embedding of the Redis-backed id generator

    Source: [src/redis_idgen/redis_idgen.go].

    The generator packs [32b seconds | 10b millis | 8b counter | 14b serverID]
    into an [int64].  It talks to three things it does not own: the wall
    clock ([time.Now]), the random source ([crypto/rand]) and a Redis client
    ([INCRBY], [EXPIRE]).  The code is embedded as a program over those calls
    ([prog]); an environment ([env]) answers them, and [run] returns the
    result together with the trace of calls that were made.  [run] is the
    generator on a client that is not nil; [run_with] adds the generator
    whose client is nil, which panics at its first call on the client. *)

From Stdlib Require Import Ascii.
From stdpp Require Import base numbers list strings pretty gmap sorting.

Open Scope Z_scope.

(** ** Go's [int64] (and [int] on a 64-bit target) *)

Module Int64.

Definition min_int : Z := - 2 ^ 63.
Definition max_int : Z := 2 ^ 63 - 1.

Definition in_range (z : Z) : Prop := min_int ≤ z ≤ max_int.

(** Two's-complement wrap-around of an exact result. *)
Definition wrap (z : Z) : Z := (z + 2 ^ 63) `mod` 2 ^ 64 - 2 ^ 63.

Definition add (a b : Z) : Z := wrap (a + b).
Definition sub (a b : Z) : Z := wrap (a - b).
Definition shl (a n : Z) : Z := wrap (Z.shiftl a n).

(** Go's [/] and [%] truncate towards zero.  The one quotient that does
    not fit, [min_int / -1], needs a negative divisor; the code divides by
    positive constants only. *)
Definition quot (a b : Z) : Z := Z.quot a b.
Definition rem (a b : Z) : Z := Z.rem a b.

End Int64.

(** ** Constants of the package *)

Definition maxCounter : Z := Z.shiftl 1 8 - 1.

(** [time.Millisecond] and [time.Minute] are [time.Duration] values, counted
    in nanoseconds. *)
Definition Millisecond : Z := 1000000.
Definition Minute : Z := 60 * 1000 * Millisecond.
Definition counterKeyExpiration : Z := 10 * Minute.

Definition maxTimeAddrTimes : nat := 8.

(** The Go runtime refuses [make([]int64, 0, cap)] when [cap] is negative or
    when [cap * 8] bytes exceed [maxAlloc] (2^48 on 64-bit Linux). *)
Definition maxAlloc : Z := 2 ^ 48.

(** ** Errors, panics and results *)

Inductive error : Type :=
  | ErrNoServerIDs
      (* "idgen must init with valid server ids" *)
  | ErrExternal (msg : string)
      (* an error value handed back by go-redis or crypto/rand *)
  | ErrPickServerID (cause : error)
      (* "failed to pick server id: %w" *)
  | ErrRecycling (ms : Z)
      (* "recycling of counting space occurs, ms=%v" *)
  | ErrSecondsOverflow (seconds : Z)
      (* "seconds more than 32 bits, seconds=%v" *)
  | ErrServerIDOverflow (serverID : Z)
      (* "server id more than 14 bits, serverID=%v" *)
  | ErrNotEnough (ns : string) (expect gotten lastMs : Z)
      (* "IDs num not enough, ns=%v, expect=%v, gotten=%v, lastMs=%v" *)
  | ErrGenID (cause : error).
      (* logs.NewErrorw("failed to generate id", "error", err) *)

Inductive panic : Type :=
  | PanicMakeSlice (cap : Z)          (* makeslice: cap out of range *)
  | PanicRandInt (max : Z)            (* crypto/rand: argument to Int is <= 0 *)
  | PanicIndex (i : Z) (len : nat)    (* index out of range [i] with length len *)
  | PanicNilClient.                   (* nil pointer dereference, at g.cli *)

(** What a Go call of type [(A, error)] can do: return a value with a nil
    error, return an error, or panic. *)
Inductive outcome (A : Type) : Type :=
  | Ok (a : A)
  | Err (e : error)
  | Panic (p : panic).
Arguments Ok {A} a.
Arguments Err {A} e.
Arguments Panic {A} p.

(** What an external call of type [(int64, error)] answers.  The [ctx] that
    the generator hands through to go-redis lives on this side: a cancelled
    or expired context, like any transport failure, is a [Fail]. *)
Inductive reply : Type :=
  | Val (z : Z)
  | Fail (msg : string).

(** ** Programs over the external calls *)

Inductive prog (A : Type) : Type :=
  | Ret (a : A)
  | UnixNano (k : Z → prog A)
      (* time.Now().UnixNano() *)
  | RandInt (max : Z) (k : reply → prog A)
      (* rand.Int(rand.Reader, big.NewInt(max)), then r.Int64() *)
  | RedisIncrBy (key : string) (num : Z) (k : reply → prog A)
      (* cli.IncrBy(ctx, key, num).Result() *)
  | RedisExpire (key : string) (ttl : Z) (k : prog A).
      (* cli.Expire(ctx, key, ttl).Result(), both results dropped *)
Arguments Ret {A} a.
Arguments UnixNano {A} k.
Arguments RandInt {A} max k.
Arguments RedisIncrBy {A} key num k.
Arguments RedisExpire {A} key ttl k.

Fixpoint bind {A B : Type} (p : prog A) (f : A → prog B) : prog B :=
  match p with
  | Ret a => f a
  | UnixNano k => UnixNano (λ t, bind (k t) f)
  | RandInt max k => RandInt max (λ r, bind (k r) f)
  | RedisIncrBy key num k => RedisIncrBy key num (λ r, bind (k r) f)
  | RedisExpire key ttl k => RedisExpire key ttl (bind k f)
  end.

#[global] Instance prog_ret : MRet prog := @Ret.
#[global] Instance prog_bind : MBind prog := λ A B f p, bind p f.

(** One entry per external call, with the answer it got. *)
Inductive event : Type :=
  | EvNow (nanos : Z)
  | EvRand (max : Z) (r : reply)
  | EvIncrBy (key : string) (num : Z) (r : reply)
  | EvExpire (key : string) (ttl : Z).

Definition trace : Type := list event.

(** An environment: a state and one handler per external call. *)
Record env (S : Type) : Type := Env {
  env_now : S → Z * S;
  env_rand : Z → S → reply * S;
  env_incr : string → Z → S → reply * S;
  env_expire : string → Z → S → S;
}.
Arguments Env {S}.
Arguments env_now {S}.
Arguments env_rand {S}.
Arguments env_incr {S}.
Arguments env_expire {S}.

(** The answers are [int64] values on the Go side: whatever the handler
    hands back is read as one. *)
Definition as_int64 (r : reply) : reply :=
  match r with
  | Val z => Val (Int64.wrap z)
  | Fail msg => Fail msg
  end.

Fixpoint run {S A : Type} (h : env S) (p : prog A) (s : S) : A * S * trace :=
  match p with
  | Ret a => (a, s, [])
  | UnixNano k =>
      let '(t, s1) := env_now h s in
      let t := Int64.wrap t in
      let '(a, s2, tr) := run h (k t) s1 in
      (a, s2, EvNow t :: tr)
  | RandInt max k =>
      let '(r, s1) := env_rand h max s in
      let r := as_int64 r in
      let '(a, s2, tr) := run h (k r) s1 in
      (a, s2, EvRand max r :: tr)
  | RedisIncrBy key num k =>
      let '(r, s1) := env_incr h key num s in
      let r := as_int64 r in
      let '(a, s2, tr) := run h (k r) s1 in
      (a, s2, EvIncrBy key num r :: tr)
  | RedisExpire key ttl k =>
      let s1 := env_expire h key ttl s in
      let '(a, s2, tr) := run h k s1 in
      (a, s2, EvExpire key ttl :: tr)
  end.

(** ** The generator *)

Record generator : Type := Generator {
  serverIDs : list Z;
  namespace : string;
}.

(** The [cli] field of the struct, a [*redis.Client]: nil, or a handle.  What
    the calls on a handle answer is the environment of [run]. *)
Inductive client : Type :=
  | NilClient
  | Connected.

(** [NewIDGenerator] stores the client as it is given, nil or not, and leaves
    the [namespace] field at its zero value.  The struct it returns is kept
    as the pair of its [cli] field and of the fields the algorithm reads. *)
Definition NewIDGenerator (cli : client) (ids : list Z)
  : outcome (client * generator) :=
  if decide (length ids = 0%nat) then Err ErrNoServerIDs
  else Ok (cli, {| serverIDs := ids; namespace := EmptyString |}).

(** [fmt.Sprintf("id_generator:%v:%v:%v", space, serverID, ms)]: [%v] prints a
    string as it is and an [int64] in decimal. *)
Definition counterKey (space : string) (serverID ms : Z) : string :=
  "id_generator:" +:+ space +:+ ":" +:+ pretty serverID +:+ ":" +:+ pretty ms.

Definition timeMS : prog Z :=
  UnixNano (λ nanos, Ret (Int64.quot nanos Millisecond)).

Definition incrBy (key : string) (num : Z) : prog reply :=
  RedisIncrBy key num Ret.

Definition expire (key : string) : prog unit :=
  RedisExpire key counterKeyExpiration (Ret ()).

(** [rand.Int] panics on a non-positive bound; indexing the slice panics out
    of range. *)
Definition pickServerID (g : generator) : prog (outcome Z) :=
  let len := length (serverIDs g) in
  if decide (Z.of_nat len ≤ 0) then Ret (Panic (PanicRandInt (Z.of_nat len)))
  else
    RandInt (Z.of_nat len) (λ r,
      match r with
      | Fail msg => Ret (Err (ErrExternal msg))
      | Val i =>
          if decide (0 ≤ i) then
            match serverIDs g !! Z.to_nat i with
            | Some sid => Ret (Ok sid)
            | None => Ret (Panic (PanicIndex i len))
            end
          else Ret (Panic (PanicIndex i len))
      end).

(** [id := (seconds)<<32 + (millis)<<22 + i<<14 + serverID]; in Go [<<] binds
    tighter than [+]. *)
Definition pack (seconds millis i serverID : Z) : Z :=
  Int64.add
    (Int64.add
       (Int64.add (Int64.shl seconds 32) (Int64.shl millis 22))
       (Int64.shl i 14))
    serverID.

(** [for i := start; i < end; i++ { ids = append(ids, id) }] *)
Definition emit (seconds millis serverID start end_ : Z) : list Z :=
  (λ i, pack seconds millis i serverID) <$> seqZ start (end_ - start).

(** The variables that live across iterations of the outer loop. *)
Record loop_state : Type := LoopState {
  leftNum : Z;
  lastMs : Z;
  ids : list Z;
}.

(** How one iteration ends: it reaches the next iteration (falling through or
    by [continue]), or the function returns. *)
Inductive flow : Type :=
  | Next (st : loop_state)
  | Return (r : outcome (list Z)).

(** Lines 60 to 63: the millisecond of this iteration.  [lo.Ternary] is an
    ordinary function, so both [g.timeMS()] calls are made: [t1] is the
    reading used by the test and [t2] the reading used as the value. *)
Definition next_ms (last t1 t2 : Z) : Z :=
  let ms := if decide (t1 > last) then t2 else last in
  if decide (ms ≤ last) then Int64.add ms 1 else ms.

(** Lines 80 to 108: what the iteration does with the total [counter] that
    [INCRBY] returned for the bucket of [ms]. *)
Definition settle (g : generator) (serverID : Z) (st : loop_state)
    (ms counter : Z) : flow :=
  let start := Int64.sub counter (leftNum st) in
  if decide (start > maxCounter) then
    Next {| leftNum := leftNum st; lastMs := ms; ids := ids st |}
  else if decide (counter < leftNum st) then
    Return (Err (ErrRecycling ms))
  else
    let '(end_, rest) :=
      if decide (counter > maxCounter)
      then (Int64.add maxCounter 1, Int64.sub (Int64.sub counter maxCounter) 1)
      else (counter, 0) in
    let seconds := Int64.quot ms 1000 in
    let millis := Int64.rem ms 1000 in
    if decide (Z.land seconds 0xFFFFFFFF ≠ seconds) then
      Return (Err (ErrSecondsOverflow seconds))
    else if decide (Z.land serverID 0x3FFF ≠ serverID) then
      Return (Err (ErrServerIDOverflow serverID))
    else
      Next {| leftNum := rest; lastMs := ms;
              ids := ids st ++ emit seconds millis serverID start end_ |}.

(** The body of the outer loop, lines 60 to 108. *)
Definition attempt (g : generator) (serverID : Z) (st : loop_state) : prog flow :=
  t1 ← timeMS;
  t2 ← timeMS;
  let ms := next_ms (lastMs st) t1 t2 in
  let redisKey := counterKey (namespace g) serverID ms in
  r ← incrBy redisKey (leftNum st);
  match r with
  | Fail msg => Ret (Return (Err (ErrExternal msg)))
  | Val counter =>
      let start := Int64.sub counter (leftNum st) in
      _ ← (if decide (start = 0) then expire redisKey else Ret ());
      Ret (settle g serverID st ms counter)
  end.

(** [for idx := int64(0); leftNum > 0 && idx < maxTimeAddrTimes; idx++]: the
    argument [n] is [maxTimeAddrTimes - idx], the iterations still allowed. *)
Fixpoint for_loop (g : generator) (serverID : Z) (n : nat) (st : loop_state)
  : prog flow :=
  match n with
  | O => Ret (Next st)
  | S n' =>
      if decide (leftNum st > 0) then
        f ← attempt g serverID st;
        match f with
        | Next st' => for_loop g serverID n' st'
        | Return r => Ret (Return r)
        end
      else Ret (Next st)
  end.

(** The statements after the loop. *)
Definition finish (g : generator) (counts : Z) (st : loop_state)
  : outcome (list Z) :=
  if decide (Z.of_nat (length (ids st)) < counts ∨ leftNum st ≠ 0) then
    Err (ErrNotEnough (namespace g) counts (Z.of_nat (length (ids st))) (lastMs st))
  else Ok (ids st).

Definition makeslice_ok (cap : Z) : Prop := 0 ≤ cap ∧ cap * 8 ≤ maxAlloc.

#[global] Instance makeslice_ok_dec cap : Decision (makeslice_ok cap).
Proof. unfold makeslice_ok. apply _. Defined.

Definition GenMultiIDs (g : generator) (counts : Z) : prog (outcome (list Z)) :=
  let st := {| leftNum := counts; lastMs := 0; ids := [] |} in
  if decide (makeslice_ok counts) then
    r ← pickServerID g;
    match r with
    | Ok serverID =>
        f ← for_loop g serverID maxTimeAddrTimes st;
        match f with
        | Next st' => Ret (finish g counts st')
        | Return r => Ret r
        end
    | Err e => Ret (Err (ErrPickServerID e))
    | Panic p => Ret (Panic p)
    end
  else Ret (Panic (PanicMakeSlice counts)).

Definition GenID (g : generator) : prog (outcome Z) :=
  r ← GenMultiIDs g 1;
  match r with
  | Ok l =>
      match l with
      | id :: _ => Ret (Ok id)
      | [] => Ret (Panic (PanicIndex 0 0))
      end
  | Err e => Ret (Err (ErrGenID e))
  | Panic p => Ret (Panic p)
  end.

(** ** A generator whose client is nil

    [g.cli.IncrBy] and [g.cli.Expire] on a nil [*redis.Client] dereference
    nil: the method panics and no call is made.  The clock and the random
    source do not go through the client. *)

(** [run_nil] runs a program up to its first call on the client: [None] when
    it got there. *)
Fixpoint run_nil {S A : Type} (h : env S) (p : prog A) (s : S)
  : option A * S * trace :=
  match p with
  | Ret a => (Some a, s, [])
  | UnixNano k =>
      let '(t, s1) := env_now h s in
      let t := Int64.wrap t in
      let '(a, s2, tr) := run_nil h (k t) s1 in
      (a, s2, EvNow t :: tr)
  | RandInt max k =>
      let '(r, s1) := env_rand h max s in
      let r := as_int64 r in
      let '(a, s2, tr) := run_nil h (k r) s1 in
      (a, s2, EvRand max r :: tr)
  | RedisIncrBy _ _ _ => (None, s, [])
  | RedisExpire _ _ _ => (None, s, [])
  end.

(** A method of the generator, run on the client the generator holds. *)
Definition run_with {S A : Type} (h : env S) (cli : client)
    (p : prog (outcome A)) (s : S) : outcome A * S * trace :=
  match cli with
  | Connected => run h p s
  | NilClient =>
      let '(a, s', tr) := run_nil h p s in
      (default (Panic PanicNilClient) a, s', tr)
  end.

(** ** An in-memory Redis with a scripted clock and random source

    The store keeps one integer per key.  [INCRBY] starts an absent key at 0
    and refuses a sum that leaves the [int64] range; [EXPIRE] records the
    time-to-live of a key that exists.  No time passes inside the model, so no
    key expires.  The clock and the random source answer from a script whose
    last entry repeats. *)

Module Mem.

Record world : Type := World {
  store : gmap string Z;
  ttls : gmap string Z;
  clock : list Z;
  dice : list Z;
}.

Definition script_next (l : list Z) : Z * list Z :=
  match l with
  | [] => (0, [])
  | [x] => (x, [x])
  | x :: rest => (x, rest)
  end.

Definition now (w : world) : Z * world :=
  let '(t, rest) := script_next (clock w) in
  (t, {| store := store w; ttls := ttls w; clock := rest; dice := dice w |}).

Definition rand (max : Z) (w : world) : reply * world :=
  let '(i, rest) := script_next (dice w) in
  (Val i, {| store := store w; ttls := ttls w; clock := clock w; dice := rest |}).

Definition incr (key : string) (num : Z) (w : world) : reply * world :=
  let total := default 0 (store w !! key) + num in
  if decide (Int64.in_range total) then
    (Val total,
     {| store := <[key := total]> (store w); ttls := ttls w;
        clock := clock w; dice := dice w |})
  else (Fail "ERR increment or decrement would overflow", w).

Definition expire (key : string) (ttl : Z) (w : world) : world :=
  match store w !! key with
  | Some _ =>
      {| store := store w; ttls := <[key := ttl]> (ttls w);
         clock := clock w; dice := dice w |}
  | None => w
  end.

Definition redis : env world :=
  {| env_now := now; env_rand := rand; env_incr := incr; env_expire := expire |}.

(** A fresh store, the clock stuck at [nanos], the random source stuck at
    index [i]. *)
Definition fresh (nanos i : Z) : world :=
  {| store := ∅; ttls := ∅; clock := [nanos]; dice := [i] |}.

End Mem.

(** ** Reading a trace *)

(** The [INCRBY] calls of a trace, in order: key, delta, answer. *)
Definition incr_events (tr : trace) : list (string * Z * reply) :=
  omap (λ e, match e with EvIncrBy k d r => Some (k, d, r) | _ => None end) tr.

Definition incr_calls (tr : trace) : nat := length (incr_events tr).

(** The keys sent to the counter store ([INCRBY] and [EXPIRE]), in order. *)
Definition store_keys (tr : trace) : list string :=
  omap (λ e, match e with
             | EvIncrBy k _ _ | EvExpire k _ => Some k
             | _ => None
             end) tr.

(** The clock readings of a trace, in order. *)
Definition clock_reads (tr : trace) : list Z :=
  omap (λ e, match e with EvNow t => Some t | _ => None end) tr.

(** ** Runs, seen from the trace

    [exec p tr a]: the program [p] makes the calls of [tr], gets the answers
    recorded there, and ends with [a].  Every run under every environment is
    one of these ([run_exec]). *)

Definition reply_int64 (r : reply) : Prop :=
  match r with
  | Val z => Int64.in_range z
  | Fail _ => True
  end.

Inductive exec {A : Type} : prog A → trace → A → Prop :=
  | exec_Ret a :
      exec (Ret a) [] a
  | exec_UnixNano k t tr a :
      Int64.in_range t →
      exec (k t) tr a →
      exec (UnixNano k) (EvNow t :: tr) a
  | exec_RandInt max k r tr a :
      reply_int64 r →
      exec (k r) tr a →
      exec (RandInt max k) (EvRand max r :: tr) a
  | exec_RedisIncrBy key num k r tr a :
      reply_int64 r →
      exec (k r) tr a →
      exec (RedisIncrBy key num k) (EvIncrBy key num r :: tr) a
  | exec_RedisExpire key ttl k tr a :
      exec k tr a →
      exec (RedisExpire key ttl k) (EvExpire key ttl :: tr) a.

(** ** One iteration, seen from the trace *)

(** The calls of one iteration whose clock readings were [n1], [n2] and whose
    [INCRBY] was answered [r]. *)
Definition attempt_ms (st : loop_state) (n1 n2 : Z) : Z :=
  next_ms (lastMs st) (Int64.quot n1 Millisecond) (Int64.quot n2 Millisecond).

Definition attempt_key (g : generator) (serverID : Z) (st : loop_state)
    (n1 n2 : Z) : string :=
  counterKey (namespace g) serverID (attempt_ms st n1 n2).

Definition attempt_trace (g : generator) (serverID : Z) (st : loop_state)
    (n1 n2 : Z) (r : reply) : trace :=
  let key := attempt_key g serverID st n1 n2 in
  [EvNow n1; EvNow n2; EvIncrBy key (leftNum st) r] ++
  match r with
  | Val counter =>
      if decide (Int64.sub counter (leftNum st) = 0)
      then [EvExpire key counterKeyExpiration] else []
  | Fail _ => []
  end.

Definition attempt_flow (g : generator) (serverID : Z) (st : loop_state)
    (n1 n2 : Z) (r : reply) : flow :=
  match r with
  | Val counter => settle g serverID st (attempt_ms st n1 n2) counter
  | Fail msg => Return (Err (ErrExternal msg))
  end.

(** ** The loop as a step relation

    [loop_run g sid n st tr f]: from state [st], with [n] iterations still
    allowed, the loop makes the calls of [tr] and ends in [f]. *)

Inductive loop_run (g : generator) (serverID : Z)
  : nat → loop_state → trace → flow → Prop :=
  | loop_stop n st :
      n = 0%nat ∨ leftNum st ≤ 0 →
      loop_run g serverID n st [] (Next st)
  | loop_return n st n1 n2 r res :
      leftNum st > 0 →
      Int64.in_range n1 → Int64.in_range n2 → reply_int64 r →
      attempt_flow g serverID st n1 n2 r = Return res →
      loop_run g serverID (S n) st (attempt_trace g serverID st n1 n2 r) (Return res)
  | loop_next n st n1 n2 r st' tr f :
      leftNum st > 0 →
      Int64.in_range n1 → Int64.in_range n2 → reply_int64 r →
      attempt_flow g serverID st n1 n2 r = Next st' →
      loop_run g serverID n st' tr f →
      loop_run g serverID (S n) st (attempt_trace g serverID st n1 n2 r ++ tr) f.

(** ** The whole call, seen from the trace *)

Definition init_state (counts : Z) : loop_state :=
  {| leftNum := counts; lastMs := 0; ids := [] |}.

Definition flow_result (g : generator) (counts : Z) (f : flow) : outcome (list Z) :=
  match f with
  | Next st => finish g counts st
  | Return r => r
  end.

(** ** The bit layout *)

(** Reading the four fields back, by shifting and masking. *)
Definition id_seconds (id : Z) : Z := Z.land (Z.shiftr id 32) 0xFFFFFFFF.
Definition id_millis (id : Z) : Z := Z.land (Z.shiftr id 22) 0x3FF.
Definition id_counter (id : Z) : Z := Z.land (Z.shiftr id 14) 0xFF.
Definition id_serverID (id : Z) : Z := Z.land id 0x3FFF.

(** The unsigned 64-bit word [pack] computes, before it is read as signed. *)
Definition layout (seconds millis i serverID : Z) : Z :=
  seconds * 2 ^ 32 + millis * 2 ^ 22 + i * 2 ^ 14 + serverID.

Definition fields_fit (seconds millis i serverID : Z) : Prop :=
  0 ≤ seconds < 2 ^ 32 ∧ 0 ≤ millis < 2 ^ 10 ∧
  0 ≤ i < 2 ^ 8 ∧ 0 ≤ serverID < 2 ^ 14.

(** ** Assumptions about the environment, read off the trace *)

(** The wall clock never reads before the Unix epoch. *)
Definition post_epoch (tr : trace) : Prop := Forall (λ t, 0 ≤ t) (clock_reads tr).

(** Two [INCRBY] answers of one key, in the order they were received: the
    value the later call started from ([c2 - d2]) is at least the total the
    earlier call was given. *)
Definition incr_le (e1 e2 : string * Z * reply) : Prop :=
  match e1, e2 with
  | (k1, _, Val c1), (k2, d2, Val c2) => k1 = k2 → c1 ≤ c2 - d2
  | _, _ => True
  end.

#[global] Instance incr_le_dec e1 e2 : Decision (incr_le e1 e2).
Proof.
  destruct e1 as [[k1 d1] [c1|m1]], e2 as [[k2 d2] [c2|m2]]; simpl; apply _.
Defined.

(** The store behaves as a counter towards this call: a key's value never
    goes down between two of the call's increments (others may push it up). *)
Definition counter_store (tr : trace) : Prop :=
  StronglySorted incr_le (incr_events tr).

(** ** What the loop hands out *)

(** The identifier of counter [i] in the bucket of millisecond [ms]. *)
Definition pack_ms (ms i serverID : Z) : Z :=
  pack (Int64.quot ms 1000) (Int64.rem ms 1000) i serverID.

(** A bucket whose timestamp and server id the layout can hold. *)
Definition bucket_ok (serverID ms : Z) : Prop :=
  1 ≤ ms ∧ Z.quot ms 1000 < 2 ^ 32 ∧ 0 ≤ serverID < 2 ^ 14.

(** [id] was cut out of the range that some [INCRBY] of [pre] was given. *)
Definition granted (g : generator) (serverID : Z) (pre : trace) (id : Z) : Prop :=
  ∃ ms i d c,
    bucket_ok serverID ms ∧ 0 ≤ i ≤ 255 ∧ id = pack_ms ms i serverID ∧
    (counterKey (namespace g) serverID ms, d, Val c) ∈ incr_events pre ∧
    c - d ≤ i < c.

(** ** A concrete generator and world, for running the model *)

Module Demo.

Definition g : generator := {| serverIDs := [7]; namespace := "ns" |}.

(** 2023-11-14T22:13:20.123456789Z, in nanoseconds since the epoch. *)
Definition t0 : Z := 1700000000123456789.

Definition w0 : Mem.world := Mem.fresh t0 0.

(** A generator with two server ids to pick from. *)
Definition g2 : generator := {| serverIDs := [7; 8]; namespace := "ns" |}.

(** The in-memory environment with a random source that cannot be read.
    [rand.Int] reads it only when there is something to draw: with bound 1
    it answers 0 without reading. *)
Definition no_entropy : env Mem.world :=
  {| env_now := Mem.now;
     env_rand := λ max w,
       if decide (max ≤ 1) then (Val 0, w)
       else (Fail "entropy source unavailable", w);
     env_incr := Mem.incr;
     env_expire := Mem.expire |}.

End Demo.

(** ** The bucket key *)

(** The key format as the specification words it:
    ["<namespace>:<serverId>:<epochMillis>"]. *)
Definition spec_bucket_key (ns : string) (serverID ms : Z) : string :=
  ns +:+ ":" +:+ pretty serverID +:+ ":" +:+ pretty ms.

(** A world in which the bucket of millisecond 1700000000123 is already
    full and the clock reads that millisecond twice, then one millisecond
    later, then two milliseconds earlier: it steps back between the two
    readings of the second iteration. *)
Definition stepping_back : Mem.world :=
  {| Mem.store := {[ "id_generator:ns:7:1700000000123" := 300 ]};
     Mem.ttls := ∅;
     Mem.clock := [Demo.t0; Demo.t0;
                   Demo.t0 + Millisecond; Demo.t0 - 2 * Millisecond];
     Mem.dice := [0] |}.

(** ** Bucket keys tell buckets apart *)

Fixpoint colon_free (s : string) : Prop :=
  match s with
  | EmptyString => True
  | String a s' => a ≠ ":"%char ∧ colon_free s'
  end.

(** ** The in-memory store, seen from the trace *)

Definition value_at (σ : gmap string Z) (key : string) : Z := default 0 (σ !! key).

(** [mem_trace σ tr σ']: the answers recorded in [tr] are those the
    in-memory store gives from contents [σ], and they leave it at [σ']. *)
Inductive mem_trace : gmap string Z → trace → gmap string Z → Prop :=
  | mem_nil σ :
      mem_trace σ [] σ
  | mem_now σ t tr σ' :
      mem_trace σ tr σ' → mem_trace σ (EvNow t :: tr) σ'
  | mem_rand σ max r tr σ' :
      mem_trace σ tr σ' → mem_trace σ (EvRand max r :: tr) σ'
  | mem_expire σ key ttl tr σ' :
      mem_trace σ tr σ' → mem_trace σ (EvExpire key ttl :: tr) σ'
  | mem_incr σ key d tr σ' :
      Int64.in_range (value_at σ key + d) →
      mem_trace (<[key := value_at σ key + d]> σ) tr σ' →
      mem_trace σ (EvIncrBy key d (Val (value_at σ key + d)) :: tr) σ'
  | mem_incr_fail σ key d msg tr σ' :
      mem_trace σ tr σ' →
      mem_trace σ (EvIncrBy key d (Fail msg) :: tr) σ'.

(** A clock script whose readings are [int64] values at or after the epoch. *)
Definition clock_ok (w : Mem.world) : Prop :=
  Forall (λ t, 0 ≤ t ≤ Int64.max_int) (Mem.clock w).

(** ** Identifiers by bucket *)

(** [id] carries the triple (server id, seconds, millis). *)
Definition in_bucket (serverID seconds millis id : Z) : Prop :=
  id_serverID id = serverID ∧ id_seconds id = seconds ∧ id_millis id = millis.

#[global] Instance in_bucket_dec serverID seconds millis id :
  Decision (in_bucket serverID seconds millis id).
Proof. unfold in_bucket. apply _. Defined.

(** The counter fields of the identifiers of [l] that carry the triple, in
    the order of [l]. *)
Definition bucket_counters (serverID seconds millis : Z) (l : list Z) : list Z :=
  id_counter <$> filter (in_bucket serverID seconds millis) l.

(** An identifier of some bucket the layout can hold. *)
Definition wf_id (id : Z) : Prop :=
  ∃ serverID ms i,
    bucket_ok serverID ms ∧ 0 ≤ i ≤ 255 ∧ id = pack_ms ms i serverID.

Definition bucket_key (g : generator) (serverID ms : Z) : string :=
  counterKey (namespace g) serverID ms.

(** In every bucket the counters of [l] are 0, 1, ..., [m - 1] in this
    order, and [m] is the stored total as long as the bucket is not full. *)
Definition contiguous (g : generator) (σ : gmap string Z) (l : list Z) : Prop :=
  ∀ serverID ms, bucket_ok serverID ms →
    ∃ m, 0 ≤ m ≤ 256 ∧
         bucket_counters serverID (Z.quot ms 1000) (Z.rem ms 1000) l = seqZ 0 m ∧
         (value_at σ (bucket_key g serverID ms) ≤ 255 →
          m = value_at σ (bucket_key g serverID ms)).

Definition store_nonneg (σ : gmap string Z) : Prop := ∀ k, 0 ≤ value_at σ k.

(** Every identifier of [l] lies in a bucket that is full by now. *)
Definition spent (g : generator) (σ : gmap string Z) (l : list Z) : Prop :=
  ∀ id serverID ms,
    id ∈ l → bucket_ok serverID ms →
    in_bucket serverID (Z.quot ms 1000) (Z.rem ms 1000) id →
    256 ≤ value_at σ (bucket_key g serverID ms).

(** Between two calls: [issued] is everything returned so far. *)
Definition settled (g : generator) (σ : gmap string Z) (issued : list Z) : Prop :=
  Forall wf_id issued ∧ contiguous g σ issued ∧ store_nonneg σ.

(** Inside a call that holds [ids st] and still owes [leftNum st]. *)
Definition in_flight (g : generator) (σ : gmap string Z) (issued : list Z) (st : loop_state)
  : Prop :=
  Forall wf_id (issued ++ ids st) ∧ contiguous g σ (issued ++ ids st) ∧
  store_nonneg σ ∧ (leftNum st > 0 → spent g σ (ids st)).

(** ** Successive calls on one store *)

(** The identifiers a call hands to its caller. *)
Definition returned (r : outcome (list Z)) : list Z :=
  match r with
  | Ok l => l
  | _ => []
  end.

(** Calls made one after the other by one generator. *)
Fixpoint session (g : generator) (reqs : list Z)
  : prog (list (outcome (list Z))) :=
  match reqs with
  | [] => Ret []
  | counts :: rest =>
      r ← GenMultiIDs g counts;
      rs ← session g rest;
      Ret (r :: rs)
  end.

(** Everything the calls of a session returned, in order. *)
Definition issued (rs : list (outcome (list Z))) : list Z :=
  concat (returned <$> rs).

(** ** Further readings of a trace *)

(** The clock never steps back during the call. *)
Definition steady_clock (tr : trace) : Prop :=
  StronglySorted Z.le (clock_reads tr).

(** An [int64] read as the unsigned 64-bit word it is stored as. *)
Definition unsigned (id : Z) : Z := id `mod` 2 ^ 64.

(** What the next [INCRBY] of a call asks for, given the previous one: the
    same delta again when the bucket was found full (line 80), and otherwise
    what went over the bucket's 256 counters (line 88). *)
Definition carry (e1 e2 : string * Z * reply) : Prop :=
  match e1, e2 with
  | (_, d1, Val c1), (_, d2, _) =>
      d2 = if decide (Int64.sub c1 d1 > maxCounter) then d1 else c1 - 256
  | (_, _, Fail _), _ => False
  end.

(** What [pickServerID] returns, given the answer of [rand.Int]. *)
Definition pick_result (g : generator) (a : reply) : outcome Z :=
  match a with
  | Fail msg => Err (ErrExternal msg)
  | Val i =>
      if decide (0 ≤ i) then
        match serverIDs g !! Z.to_nat i with
        | Some sid => Ok sid
        | None => Panic (PanicIndex i (length (serverIDs g)))
        end
      else Panic (PanicIndex i (length (serverIDs g)))
  end.

(** The in-memory environment with a counter store that cannot be reached. *)
Definition store_down : env Mem.world :=
  {| env_now := Mem.now;
     env_rand := Mem.rand;
     env_incr := λ _ _ w, (Fail "connection refused", w);
     env_expire := Mem.expire |}.

(** The first nanosecond whose second no longer fits 32 bits
    (2106-02-07T06:28:16Z). *)
Definition seconds_overflow_ns : Z := 2 ^ 32 * 1000 * Millisecond.

(** The timestamp part of the identifiers of millisecond [ms]. *)
Definition stamp (ms : Z) : Z := Z.quot ms 1000 * 2 ^ 32 + Z.rem ms 1000 * 2 ^ 22.

(** The milliseconds of the buckets a call asked, in order. *)
Definition asks (g : generator) (serverID : Z) (mss : list Z) (tr : trace) : Prop :=
  (incr_events tr).*1.*1 = counterKey (namespace g) serverID <$> mss.

(** The errors [GenMultiIDs] can come back with, and what they report. *)
Definition may_fail_with (g : generator) (counts : Z) (e : error) : Prop :=
  match e with
  | ErrPickServerID (ErrExternal _) => True
  | ErrExternal _ => True
  | ErrRecycling ms => True
  | ErrSecondsOverflow seconds => ¬ (0 ≤ seconds < 2 ^ 32)
  | ErrServerIDOverflow serverID =>
      serverID ∈ serverIDs g ∧ ¬ (0 ≤ serverID < 2 ^ 14)
  | ErrNotEnough ns expect gotten _ =>
      ns = namespace g ∧ expect = counts ∧ 0 ≤ gotten < counts
  | _ => False
  end.

(** Every key of the in-memory store carries the time-to-live of a bucket. *)
Definition covered (w : Mem.world) : Prop :=
  ∀ key, is_Some (Mem.store w !! key) →
         Mem.ttls w !! key = Some counterKeyExpiration.

(** * Theorems *)

(** ** Facts about [int64] arithmetic *)

Module Int64Facts.
Import Int64.

Lemma wrap_in_range z : in_range (wrap z).
Proof. unfold in_range, wrap, min_int, max_int. Z.div_mod_to_equations. lia. Qed.

Lemma wrap_id z : in_range z → wrap z = z.
Proof. unfold in_range, wrap, min_int, max_int. intros. Z.div_mod_to_equations. lia. Qed.

Lemma wrap_shift z : ∃ k, wrap z = z + k * 2 ^ 64.
Proof.
  exists (- ((z + 2 ^ 63) `div` 2 ^ 64)). unfold wrap.
  Z.div_mod_to_equations. lia.
Qed.

Lemma add_id a b : in_range (a + b) → add a b = a + b.
Proof. apply wrap_id. Qed.

Lemma sub_id a b : in_range (a - b) → sub a b = a - b.
Proof. apply wrap_id. Qed.

(** [x & (2^n - 1) == x] is the test "x fits n unsigned bits". *)
Lemma land_ones_fits x n :
  0 ≤ n → Z.land x (Z.ones n) = x ↔ 0 ≤ x < 2 ^ n.
Proof.
  intros Hn. rewrite Z.land_ones by done. split.
  - intros <-. apply Z.mod_pos_bound. by apply Z.pow_pos_nonneg.
  - intros. by apply Z.mod_small.
Qed.

Lemma fits_32 x : Z.land x 0xFFFFFFFF = x ↔ 0 ≤ x < 2 ^ 32.
Proof. apply (land_ones_fits x 32). lia. Qed.

Lemma fits_14 x : Z.land x 0x3FFF = x ↔ 0 ≤ x < 2 ^ 14.
Proof. apply (land_ones_fits x 14). lia. Qed.

End Int64Facts.

(** ** Facts about [run] and [exec] *)

Lemma as_int64_ok r : reply_int64 (as_int64 r).
Proof. destruct r; simpl; [apply Int64Facts.wrap_in_range | done]. Qed.

Lemma run_exec {S A} (h : env S) (p : prog A) s a s' tr :
  run h p s = (a, s', tr) → exec p tr a.
Proof.
  revert s a s' tr. induction p as [a0|k IH|max k IH|key num k IH|key ttl k IH];
    intros s a s' tr; simpl.
  - intros [= <- <- <-]. constructor.
  - destruct (env_now h s) as [t s1].
    destruct (run h (k (Int64.wrap t)) s1) as [[a1 s2] tr1] eqn:E.
    intros [= <- <- <-]. constructor; [apply Int64Facts.wrap_in_range | eauto].
  - destruct (env_rand h max s) as [r s1].
    destruct (run h (k (as_int64 r)) s1) as [[a1 s2] tr1] eqn:E.
    intros [= <- <- <-]. constructor; [apply as_int64_ok | eauto].
  - destruct (env_incr h key num s) as [r s1].
    destruct (run h (k (as_int64 r)) s1) as [[a1 s2] tr1] eqn:E.
    intros [= <- <- <-]. constructor; [apply as_int64_ok | eauto].
  - destruct (run h k (env_expire h key ttl s)) as [[a1 s2] tr1] eqn:E.
    intros [= <- <- <-]. constructor. eauto.
Qed.

Lemma run_bind {S A B} (h : env S) (p : prog A) (f : A → prog B) s :
  run h (p ≫= f) s =
    let '(a, s1, tr1) := run h p s in
    let '(b, s2, tr2) := run h (f a) s1 in
    (b, s2, tr1 ++ tr2).
Proof.
  unfold mbind, prog_bind.
  revert s. induction p as [a0|k IH|max k IH|key num k IH|key ttl k IH];
    intros s; simpl.
  - by destruct (run h (f a0) s) as [[b s2] tr2].
  - destruct (env_now h s) as [t s1]. rewrite IH.
    destruct (run h (k (Int64.wrap t)) s1) as [[a1 s2] tr1].
    by destruct (run h (f a1) s2) as [[b s3] tr2].
  - destruct (env_rand h max s) as [r s1]. rewrite IH.
    destruct (run h (k (as_int64 r)) s1) as [[a1 s2] tr1].
    by destruct (run h (f a1) s2) as [[b s3] tr2].
  - destruct (env_incr h key num s) as [r s1]. rewrite IH.
    destruct (run h (k (as_int64 r)) s1) as [[a1 s2] tr1].
    by destruct (run h (f a1) s2) as [[b s3] tr2].
  - rewrite IH.
    destruct (run h k (env_expire h key ttl s)) as [[a1 s2] tr1].
    by destruct (run h (f a1) s2) as [[b s3] tr2].
Qed.

Lemma exec_bind {A B} (p : prog A) (f : A → prog B) tr b :
  exec (p ≫= f) tr b ↔
  ∃ tr1 tr2 a, tr = tr1 ++ tr2 ∧ exec p tr1 a ∧ exec (f a) tr2 b.
Proof.
  unfold mbind, prog_bind. split.
  - revert tr. induction p as [a0|k IH|max k IH|key num k IH|key ttl k IH];
      intros tr; simpl.
    + intros H. exists [], tr, a0. split_and!; [done | constructor | done].
    + inversion 1; subst.
      destruct (IH _ _ ltac:(eassumption)) as (tr1 & tr2 & a & -> & ? & ?).
      exists (EvNow t :: tr1), tr2, a. split_and!; [done | by constructor | done].
    + inversion 1; subst.
      destruct (IH _ _ ltac:(eassumption)) as (tr1 & tr2 & a & -> & ? & ?).
      exists (EvRand max r :: tr1), tr2, a. split_and!; [done | by constructor | done].
    + inversion 1; subst.
      destruct (IH _ _ ltac:(eassumption)) as (tr1 & tr2 & a & -> & ? & ?).
      exists (EvIncrBy key num r :: tr1), tr2, a.
      split_and!; [done | by constructor | done].
    + inversion 1; subst.
      destruct (IH _ ltac:(eassumption)) as (tr1 & tr2 & a & -> & ? & ?).
      exists (EvExpire key ttl :: tr1), tr2, a.
      split_and!; [done | by constructor | done].
  - intros (tr1 & tr2 & a & -> & H1 & H2).
    induction H1; simpl; [done | constructor; auto..].
Qed.

(** ** One iteration, the loop and the call, seen from the trace *)

Lemma exec_attempt g serverID st tr f :
  exec (attempt g serverID st) tr f →
  ∃ n1 n2 r,
    Int64.in_range n1 ∧ Int64.in_range n2 ∧ reply_int64 r ∧
    tr = attempt_trace g serverID st n1 n2 r ∧
    f = attempt_flow g serverID st n1 n2 r.
Proof.
  unfold attempt, timeMS, incrBy, expire, mbind, prog_bind. simpl.
  inversion 1 as [|? n1 ? ? Hn1 H1| | |]; subst.
  inversion H1 as [|? n2 ? ? Hn2 H2| | |]; subst.
  inversion H2 as [| | |? ? ? r ? ? Hr H3|]; subst.
  exists n1, n2, r. split_and!; try done.
  - unfold attempt_trace. do 3 f_equal.
    destruct r as [c|msg]; simpl in *.
    + case_decide; simpl in H3.
      * inversion H3 as [| | | |? ? ? ? ? H4]; subst. by inversion H4.
      * by inversion H3.
    + by inversion H3.
  - unfold attempt_flow. destruct r as [c|msg]; simpl in *.
    + case_decide; simpl in H3.
      * inversion H3 as [| | | |? ? ? ? ? H4]; subst. by inversion H4.
      * by inversion H3.
    + by inversion H3.
Qed.

Lemma exec_for_loop g serverID n st tr f :
  exec (for_loop g serverID n st) tr f → loop_run g serverID n st tr f.
Proof.
  revert st tr f. induction n as [|n IH]; intros st tr f; cbn [for_loop].
  - inversion 1; subst. constructor. by left.
  - case_decide as Hleft.
    + rewrite exec_bind. intros (tr1 & tr2 & f1 & -> & Hatt & Hrest).
      apply exec_attempt in Hatt as (n1 & n2 & r & ? & ? & ? & -> & ->).
      destruct (attempt_flow g serverID st n1 n2 r) as [st'|res] eqn:Hflow.
      * eapply loop_next; eauto.
      * inversion Hrest; subst. rewrite app_nil_r. by eapply loop_return.
    + inversion 1; subst. constructor. right. lia.
Qed.

Lemma exec_pickServerID g tr r :
  exec (pickServerID g) tr r →
  (tr = [] ∨ ∃ a, tr = [EvRand (Z.of_nat (length (serverIDs g))) a]) ∧
  ∀ sid, r = Ok sid → sid ∈ serverIDs g.
Proof.
  unfold pickServerID. case_decide.
  - inversion 1; subst. split; [by left | done].
  - inversion 1 as [| |? ? a tr0 ? Ha Hk| |]; subst.
    assert (tr0 = [] ∧ ∀ sid, r = Ok sid → sid ∈ serverIDs g) as [-> ?];
      [|by eauto].
    destruct a as [i|msg]; [|by inversion Hk].
    case_decide; [|by inversion Hk].
    destruct (serverIDs g !! Z.to_nat i) as [sid'|] eqn:Hi;
      inversion Hk; subst; [|done].
    split; [done |]. intros ? [= <-]. by eapply list_elem_of_lookup_2.
Qed.

Lemma exec_GenMultiIDs g counts tr r :
  exec (GenMultiIDs g counts) tr r →
  (¬ makeslice_ok counts ∧ tr = [] ∧ r = Panic (PanicMakeSlice counts)) ∨
  (makeslice_ok counts ∧
   ∃ tr1 tr2 pr,
     tr = tr1 ++ tr2 ∧ exec (pickServerID g) tr1 pr ∧
     match pr with
     | Ok serverID =>
         ∃ f, loop_run g serverID maxTimeAddrTimes (init_state counts) tr2 f ∧
              r = flow_result g counts f
     | Err e => tr2 = [] ∧ r = Err (ErrPickServerID e)
     | Panic p => tr2 = [] ∧ r = Panic p
     end).
Proof.
  unfold GenMultiIDs. case_decide as Hmk.
  - rewrite exec_bind. intros (tr1 & tr2 & pr & -> & Hpick & Hrest).
    right. split; [done |]. exists tr1, tr2, pr. split_and!; [done..|].
    destruct pr as [sid|e|p].
    + apply exec_bind in Hrest as (tr3 & tr4 & f & -> & Hloop & Hfin).
      apply exec_for_loop in Hloop. exists f.
      destruct f; inversion Hfin; subst; by rewrite app_nil_r.
    + by inversion Hrest.
    + by inversion Hrest.
  - inversion 1; subst. by left.
Qed.

(** ** What one iteration grants *)

Lemma maxCounter_eq : maxCounter = 255.
Proof. reflexivity. Qed.

(** An iteration that reaches the next one either skipped a bucket that was
    already full, or took the counters from [counter - leftNum] up to
    [min counter 256] of a bucket whose timestamp and server id fit. *)
Lemma settle_Next g serverID st ms counter st' :
  0 < leftNum st → Int64.in_range (leftNum st) → Int64.in_range counter →
  settle g serverID st ms counter = Next st' →
  lastMs st' = ms ∧
  ((Int64.sub counter (leftNum st) > maxCounter ∧
    leftNum st' = leftNum st ∧ ids st' = ids st) ∨
   (0 ≤ counter - leftNum st ≤ maxCounter ∧
    0 ≤ Z.quot ms 1000 < 2 ^ 32 ∧ 0 ≤ serverID < 2 ^ 14 ∧
    leftNum st' = Z.max 0 (counter - 256) ∧
    ids st' = ids st ++
      emit (Z.quot ms 1000) (Z.rem ms 1000) serverID
           (counter - leftNum st) (Z.min counter 256))).
Proof.
  intros Hpos Hd Hc. unfold settle.
  case_decide as Hfull; [intros [= <-]; simpl; by eauto |].
  case_decide as Hrec; [done |].
  assert (Int64.sub counter (leftNum st) = counter - leftNum st) as Hstart.
  { apply Int64Facts.sub_id. unfold Int64.in_range, Int64.min_int, Int64.max_int in *. lia. }
  rewrite Hstart in *. rewrite maxCounter_eq in *.
  unfold Int64.quot, Int64.rem.
  destruct (decide (counter > 255)) as [Hbig|Hsmall].
  - case_decide as Hsec; [done |]. case_decide as Hsid; [done |].
    intros [= <-]; simpl. split; [done |]. right.
    apply Int64Facts.fits_32 in Hsec. apply Int64Facts.fits_14 in Hsid.
    rewrite (Int64Facts.sub_id counter 255), Int64Facts.sub_id, Int64Facts.add_id
      by (unfold Int64.in_range, Int64.min_int, Int64.max_int in *; lia).
    rewrite Z.max_r, Z.min_r by lia.
    split_and!; try done; lia.
  - case_decide as Hsec; [done |]. case_decide as Hsid; [done |].
    intros [= <-]; simpl. split; [done |]. right.
    apply Int64Facts.fits_32 in Hsec. apply Int64Facts.fits_14 in Hsid.
    rewrite Z.max_l, Z.min_l by lia.
    split_and!; try done; lia.
Qed.

(** ** The calls of an iteration and of the loop *)

Lemma incr_events_app tr1 tr2 :
  incr_events (tr1 ++ tr2) = incr_events tr1 ++ incr_events tr2.
Proof. apply omap_app. Qed.

Lemma clock_reads_app tr1 tr2 :
  clock_reads (tr1 ++ tr2) = clock_reads tr1 ++ clock_reads tr2.
Proof. apply omap_app. Qed.

Lemma store_keys_app tr1 tr2 :
  store_keys (tr1 ++ tr2) = store_keys tr1 ++ store_keys tr2.
Proof. apply omap_app. Qed.

Lemma incr_events_attempt g serverID st n1 n2 r :
  incr_events (attempt_trace g serverID st n1 n2 r) =
    [(attempt_key g serverID st n1 n2, leftNum st, r)].
Proof.
  unfold attempt_trace, incr_events. rewrite omap_app. simpl.
  destruct r; [case_decide|]; done.
Qed.

Lemma clock_reads_attempt g serverID st n1 n2 r :
  clock_reads (attempt_trace g serverID st n1 n2 r) = [n1; n2].
Proof.
  unfold attempt_trace, clock_reads. rewrite omap_app. simpl.
  destruct r; [case_decide|]; done.
Qed.

Lemma incr_events_pick g tr r :
  exec (pickServerID g) tr r → incr_events tr = [] ∧ store_keys tr = [].
Proof. intros [[->|[a ->]] _]%exec_pickServerID; done. Qed.

Lemma loop_run_incr_calls g serverID n st tr f :
  loop_run g serverID n st tr f → (incr_calls tr ≤ n)%nat.
Proof.
  unfold incr_calls. induction 1 as [| |? ? ? ? ? ? ? ? ? ? ? ? ? ? IH].
  - simpl. lia.
  - rewrite incr_events_attempt. simpl. lia.
  - unfold incr_events in *. rewrite omap_app, length_app.
    fold (incr_events (attempt_trace g serverID st n1 n2 r)).
    rewrite incr_events_attempt. simpl. lia.
Qed.

Lemma exec_GenMultiIDs_incr_calls g counts tr r :
  exec (GenMultiIDs g counts) tr r → (incr_calls tr ≤ maxTimeAddrTimes)%nat.
Proof.
  intros [(_ & -> & _)|(_ & tr1 & tr2 & pr & -> & Hpick & Hrest)]%exec_GenMultiIDs.
  { unfold incr_calls. simpl. lia. }
  apply incr_events_pick in Hpick as [Hpick _].
  unfold incr_calls, incr_events in *. rewrite omap_app, Hpick. simpl.
  destruct pr as [sid|e|p].
  - destruct Hrest as (f & Hloop & _). by apply loop_run_incr_calls in Hloop.
  - destruct Hrest as [-> _]. simpl. lia.
  - destruct Hrest as [-> _]. simpl. lia.
Qed.

(** ** The bit layout *)

Lemma pack_wrap seconds millis i serverID :
  pack seconds millis i serverID = Int64.wrap (layout seconds millis i serverID).
Proof.
  unfold pack, layout, Int64.add, Int64.shl. rewrite !Z.shiftl_mul_pow2 by lia.
  unfold Int64.wrap. Z.div_mod_to_equations. lia.
Qed.

Lemma layout_bounds seconds millis i serverID :
  fields_fit seconds millis i serverID →
  0 ≤ layout seconds millis i serverID < 2 ^ 64.
Proof. unfold fields_fit, layout. lia. Qed.

Lemma pack_unsigned seconds millis i serverID :
  fields_fit seconds millis i serverID →
  pack seconds millis i serverID `mod` 2 ^ 64 = layout seconds millis i serverID.
Proof.
  intros Hfit. apply layout_bounds in Hfit. rewrite pack_wrap.
  unfold Int64.wrap. Z.div_mod_to_equations. lia.
Qed.

Lemma pack_decode seconds millis i serverID :
  fields_fit seconds millis i serverID →
  let id := pack seconds millis i serverID in
  id_seconds id = seconds ∧ id_millis id = millis ∧
  id_counter id = i ∧ id_serverID id = serverID.
Proof.
  intros Hfit id.
  assert (∃ k, id = layout seconds millis i serverID + k * 2 ^ 64) as [k Hk].
  { unfold id. rewrite pack_wrap. apply Int64Facts.wrap_shift. }
  unfold id_seconds, id_millis, id_counter, id_serverID.
  change 0xFFFFFFFF with (Z.ones 32). change 0x3FF with (Z.ones 10).
  change 0xFF with (Z.ones 8). change 0x3FFF with (Z.ones 14).
  rewrite !Z.land_ones, !Z.shiftr_div_pow2 by lia. rewrite Hk.
  unfold fields_fit, layout in *.
  split_and!; Z.div_mod_to_equations; lia.
Qed.

Lemma pack_inj s1 m1 i1 sid1 s2 m2 i2 sid2 :
  fields_fit s1 m1 i1 sid1 → fields_fit s2 m2 i2 sid2 →
  pack s1 m1 i1 sid1 = pack s2 m2 i2 sid2 →
  s1 = s2 ∧ m1 = m2 ∧ i1 = i2 ∧ sid1 = sid2.
Proof.
  intros H1 H2 Heq.
  destruct (pack_decode _ _ _ _ H1) as (Ha & Hb & Hc & Hd).
  destruct (pack_decode _ _ _ _ H2) as (Ha' & Hb' & Hc' & Hd').
  rewrite Heq in Ha, Hb, Hc, Hd. by simplify_eq.
Qed.

(** The sign of an identifier is bit 31 of its seconds. *)
Lemma pack_sign seconds millis i serverID :
  fields_fit seconds millis i serverID →
  let id := pack seconds millis i serverID in
  (seconds < 2 ^ 31 → 0 ≤ id) ∧
  (2 ^ 31 ≤ seconds → id < 0 ∧ Z.testbit id 63 = true).
Proof.
  intros Hfit id. unfold id. rewrite pack_wrap.
  unfold fields_fit in Hfit.
  set (v := layout seconds millis i serverID).
  assert (seconds * 2 ^ 32 ≤ v < seconds * 2 ^ 32 + 2 ^ 32) by (unfold v, layout; lia).
  split; intros Hs.
  - rewrite Int64Facts.wrap_id; [lia |].
    unfold Int64.in_range, Int64.min_int, Int64.max_int. lia.
  - assert (Int64.wrap v = v - 2 ^ 64) as ->.
    { unfold Int64.wrap. Z.div_mod_to_equations. lia. }
    split; [lia |]. apply Z.testbit_true; [lia |].
    Z.div_mod_to_equations. lia.
Qed.

(** ** Accounting across the loop *)

(** Linear arithmetic after unfolding the [int64] operations and the
    truncated divisions. *)
Ltac int64_lia :=
  unfold Int64.in_range, Int64.min_int, Int64.max_int,
    Int64.add, Int64.sub, Int64.wrap in *;
  rewrite ?maxCounter_eq in *;
  try Z.quot_rem_to_equations; try Z.div_mod_to_equations; lia.

Lemma length_emit seconds millis serverID start end_ :
  length (emit seconds millis serverID start end_) = Z.to_nat (end_ - start).
Proof. unfold emit. by rewrite length_fmap, length_seqZ. Qed.

Lemma attempt_flow_Next g serverID st n1 n2 r st' :
  attempt_flow g serverID st n1 n2 r = Next st' →
  ∃ counter, r = Val counter ∧
    settle g serverID st (attempt_ms st n1 n2) counter = Next st'.
Proof. destruct r as [c|msg]; simpl; [eauto | done]. Qed.

(** What is still owed plus what was produced stays the requested amount. *)
Lemma loop_run_accounting g serverID n st tr st' :
  loop_run g serverID n st tr (Next st') →
  0 ≤ leftNum st → Int64.in_range (leftNum st) →
  0 ≤ leftNum st' ≤ leftNum st ∧
  Z.of_nat (length (ids st')) + leftNum st' =
    Z.of_nat (length (ids st)) + leftNum st.
Proof.
  intros Hrun. remember (Next st') as f eqn:Hf.
  induction Hrun as [n st Hstop|
                     |n st n1 n2 r st1 tr f Hpos Hn1 Hn2 Hr Hflow Hrun IH];
    intros Hleft Hrange.
  - injection Hf as <-. lia.
  - done.
  - apply attempt_flow_Next in Hflow as (c & -> & Hsettle).
    apply settle_Next in Hsettle as [_ Hcases]; [|lia|done|done].
    destruct Hcases as [(_ & Hl & Hi)|(Hstart & _ & _ & Hl & Hi)].
    + rewrite Hl, Hi in IH. apply IH; [done | lia | done].
    + rewrite maxCounter_eq in Hstart.
      destruct IH as [IH1 IH2]; [done | lia | int64_lia |].
      rewrite IH2, Hl, Hi, length_app, length_emit. lia.
Qed.

Lemma settle_Return g serverID st ms counter res :
  settle g serverID st ms counter = Return res → ∃ e, res = Err e.
Proof.
  unfold settle. repeat case_decide; intros [= <-]; eauto.
Qed.

Lemma attempt_flow_Return g serverID st n1 n2 r res :
  attempt_flow g serverID st n1 n2 r = Return res → ∃ e, res = Err e.
Proof.
  destruct r as [c|msg]; simpl; [apply settle_Return | intros [= <-]; eauto].
Qed.

(** The loop itself only ever returns errors. *)
Lemma loop_run_Return g serverID n st tr res :
  loop_run g serverID n st tr (Return res) → ∃ e, res = Err e.
Proof.
  intros Hrun. remember (Return res) as f eqn:Hf.
  induction Hrun; [done | | by auto].
  injection Hf as ->. by eapply attempt_flow_Return.
Qed.

(** A successful call went through the loop to its end and owes nothing. *)
Lemma exec_GenMultiIDs_Ok g counts tr l :
  exec (GenMultiIDs g counts) tr (Ok l) →
  makeslice_ok counts ∧
  ∃ tr1 tr2 serverID st,
    tr = tr1 ++ tr2 ∧ exec (pickServerID g) tr1 (Ok serverID) ∧
    loop_run g serverID maxTimeAddrTimes (init_state counts) tr2 (Next st) ∧
    ids st = l ∧ leftNum st = 0 ∧ counts ≤ Z.of_nat (length l).
Proof.
  intros [(_ & _ & ?)|(Hmk & tr1 & tr2 & pr & -> & Hpick & Hrest)]%exec_GenMultiIDs;
    [done |].
  split; [done |]. destruct pr as [sid|e|p]; [|by destruct Hrest..].
  destruct Hrest as (f & Hloop & Hres). destruct f as [st|res]; simpl in Hres.
  - unfold finish in Hres. case_decide as Hcond; [done |]. injection Hres as ->.
    exists tr1, tr2, sid, st. split_and!; try done; lia.
  - apply loop_run_Return in Hloop as [e ->]. done.
Qed.

Lemma exec_GenMultiIDs_length g counts tr l :
  exec (GenMultiIDs g counts) tr (Ok l) → Z.of_nat (length l) = counts.
Proof.
  intros ([Hc0 Hc1] & tr1 & tr2 & sid & st & -> & _ & Hloop & <- & Hleft & _)%exec_GenMultiIDs_Ok.
  apply loop_run_accounting in Hloop; simpl in *.
  - lia.
  - done.
  - unfold maxAlloc in Hc1. int64_lia.
Qed.

(** ** What the loop hands out *)

Lemma bucket_fields_fit serverID ms i :
  bucket_ok serverID ms → 0 ≤ i ≤ 255 →
  fields_fit (Z.quot ms 1000) (Z.rem ms 1000) i serverID.
Proof. unfold bucket_ok, fields_fit. intros. Z.quot_rem_to_equations. lia. Qed.

Lemma pack_ms_unfold ms i serverID :
  pack_ms ms i serverID = pack (Z.quot ms 1000) (Z.rem ms 1000) i serverID.
Proof. reflexivity. Qed.

Lemma quot_rem_1000_inj ms1 ms2 :
  Z.quot ms1 1000 = Z.quot ms2 1000 → Z.rem ms1 1000 = Z.rem ms2 1000 →
  ms1 = ms2.
Proof.
  intros Hq Hr. rewrite (Z.quot_rem' ms1 1000), (Z.quot_rem' ms2 1000).
  congruence.
Qed.

Lemma pack_ms_inj serverID ms1 i1 ms2 i2 :
  bucket_ok serverID ms1 → bucket_ok serverID ms2 →
  0 ≤ i1 ≤ 255 → 0 ≤ i2 ≤ 255 →
  pack_ms ms1 i1 serverID = pack_ms ms2 i2 serverID →
  ms1 = ms2 ∧ i1 = i2.
Proof.
  intros Hb1 Hb2 Hi1 Hi2 Heq. rewrite !pack_ms_unfold in Heq.
  pose proof (bucket_fields_fit _ _ _ Hb1 Hi1) as Hf1.
  pose proof (bucket_fields_fit _ _ _ Hb2 Hi2) as Hf2.
  destruct (pack_inj _ _ _ _ _ _ _ _ Hf1 Hf2 Heq) as (Hq & Hr & Hi & _).
  split; [|exact Hi]. by apply quot_rem_1000_inj.
Qed.

Lemma granted_app g serverID pre tr id :
  granted g serverID pre id → granted g serverID (pre ++ tr) id.
Proof.
  intros (ms & i & d & c & ? & ? & ? & Hin & ?). exists ms, i, d, c.
  repeat (split; [assumption |]). split; [|assumption].
  rewrite incr_events_app. apply elem_of_app. by left.
Qed.

Lemma elem_of_emit id seconds millis serverID start end_ :
  id ∈ emit seconds millis serverID start end_ ↔
  ∃ i, start ≤ i < end_ ∧ id = pack seconds millis i serverID.
Proof.
  unfold emit. rewrite list_elem_of_fmap. setoid_rewrite elem_of_seqZ.
  split; intros (i & ? & ?); exists i; split; first [done | lia].
Qed.

(** The millisecond of an iteration, when the clock reads at or after the
    epoch: at least 1, and at most one past the larger of the previous
    millisecond and the reading. *)
Lemma attempt_ms_post_epoch st n1 n2 :
  Int64.in_range n1 → Int64.in_range n2 → 0 ≤ n2 →
  0 ≤ lastMs st < 2 ^ 62 →
  1 ≤ attempt_ms st n1 n2 ≤ Z.max (lastMs st) (2 ^ 44) + 1.
Proof.
  intros Hn1 Hn2 Hpos Hlast. unfold attempt_ms, next_ms, Int64.quot, Millisecond.
  assert (0 ≤ Z.quot n2 1000000 < 2 ^ 44) by int64_lia.
  repeat case_decide; int64_lia.
Qed.

Lemma emit_granted g serverID st n1 n2 counter pre id :
  let ms := attempt_ms st n1 n2 in
  bucket_ok serverID ms → 0 ≤ counter - leftNum st ≤ 255 →
  id ∈ emit (Z.quot ms 1000) (Z.rem ms 1000) serverID
            (counter - leftNum st) (Z.min counter 256) →
  ∃ i, counter - leftNum st ≤ i < Z.min counter 256 ∧
       id = pack_ms ms i serverID ∧
       granted g serverID
         (pre ++ attempt_trace g serverID st n1 n2 (Val counter)) id.
Proof.
  intros ms Hb Hstart (i & Hi & ->)%elem_of_emit.
  rewrite <- pack_ms_unfold.
  exists i. split; [exact Hi |]. split; [reflexivity |].
  exists ms, i, (leftNum st), counter.
  split; [exact Hb |]. split; [lia |]. split; [reflexivity |].
  split; [|lia].
  rewrite incr_events_app, incr_events_attempt.
  apply elem_of_app. right. apply list_elem_of_singleton. reflexivity.
Qed.

Lemma NoDup_emit serverID ms start end_ :
  bucket_ok serverID ms → 0 ≤ start → end_ ≤ 256 →
  NoDup (emit (Z.quot ms 1000) (Z.rem ms 1000) serverID start end_).
Proof.
  intros Hb Hs He. unfold emit. apply NoDup_fmap_2_strong; [|apply NoDup_seqZ].
  intros i j Hi%elem_of_seqZ Hj%elem_of_seqZ Heq.
  rewrite <- !pack_ms_unfold in Heq.
  apply (pack_ms_inj serverID ms i ms j); [exact Hb | exact Hb | lia | lia | exact Heq].
Qed.

(** Every identifier the loop holds was cut out of a range that one of the
    call's own [INCRBY]s was given, in a bucket the layout can hold; and if
    the store counts upwards, no identifier is held twice. *)
Lemma loop_run_granted g serverID n st tr st' :
  loop_run g serverID n st tr (Next st') →
  ∀ pre,
    0 ≤ leftNum st → Int64.in_range (leftNum st) →
    0 ≤ lastMs st → Z.of_nat n ≤ 2 ^ 44 → lastMs st + Z.of_nat n ≤ 2 ^ 45 →
    post_epoch tr →
    Forall (granted g serverID pre) (ids st) →
    Forall (granted g serverID (pre ++ tr)) (ids st') ∧
    (counter_store (pre ++ tr) → NoDup (ids st) → NoDup (ids st')).
Proof.
  intros Hrun. remember (Next st') as f eqn:Hf.
  induction Hrun as [n st Hstop|
                     |n st n1 n2 r st1 tr f Hpos Hn1 Hn2 Hr Hflow Hrun IH];
    intros pre Hleft Hrange Hlast Hn Hbound Hclock Hold.
  - injection Hf as <-. by rewrite app_nil_r.
  - done.
  - specialize (IH Hf).
    unfold post_epoch in Hclock.
    rewrite clock_reads_app, clock_reads_attempt in Hclock.
    apply Forall_app in Hclock as [Hnow Hclock].
    apply Forall_cons in Hnow as [_ [Hn2pos _]%Forall_cons].
    pose proof (attempt_ms_post_epoch st n1 n2 Hn1 Hn2 Hn2pos ltac:(lia)) as Hms.
    apply attempt_flow_Next in Hflow as (c & -> & Hsettle).
    apply settle_Next in Hsettle as [Hlast1 Hcases]; [|lia|done|done].
    rewrite (assoc_L (++)).
    destruct Hcases as [(_ & Hl & Hi)|(Hstart & Hsec & Hsid & Hl & Hi)].
    + rewrite <- Hi. apply IH; rewrite ?Hl, ?Hlast1, ?Hi; try done; try lia.
      eapply Forall_impl; [exact Hold | intros; by apply granted_app].
    + rewrite maxCounter_eq in Hstart.
      assert (bucket_ok serverID (attempt_ms st n1 n2)) as Hb
        by (unfold bucket_ok; lia).
      assert (Forall (granted g serverID
                (pre ++ attempt_trace g serverID st n1 n2 (Val c))) (ids st1))
        as Hnew.
      { rewrite Hi. apply Forall_app. split.
        - eapply Forall_impl; [exact Hold | intros; by apply granted_app].
        - apply Forall_forall. intros id Hid.
          by destruct (emit_granted g _ _ _ _ _ pre _ Hb Hstart Hid)
            as (? & ? & ? & ?). }
      destruct (IH (pre ++ attempt_trace g serverID st n1 n2 (Val c)))
        as [IH1 IH2]; rewrite ?Hl, ?Hlast1; try done; try lia.
      { simpl in Hr. int64_lia. }
      split; [done |]. intros Hstore Hnodup. apply IH2; [done |].
      rewrite Hi. apply NoDup_app. split_and!; [done | | ].
      * intros id Hid_old Hid_new.
        destruct (emit_granted g _ _ _ _ _ pre _ Hb Hstart Hid_new)
          as (i & Hi_new & Hid & _).
        rewrite Forall_forall in Hold.
        destruct (Hold id Hid_old) as (ms0 & i0 & d0 & c0 & Hb0 & Hi0 & Hid0 & Hev & Hc0).
        rewrite Hid in Hid0.
        apply pack_ms_inj in Hid0 as [<- <-]; [|done|done|lia|done].
        unfold counter_store in Hstore.
        rewrite !incr_events_app, <- (assoc_L (++)) in Hstore.
        eapply StronglySorted_app_1_elem_of in Hstore; [|exact Hev|].
        2:{ apply elem_of_app. left. rewrite incr_events_attempt.
            apply list_elem_of_singleton. reflexivity. }
        simpl in Hstore. unfold attempt_key in Hstore.
        specialize (Hstore eq_refl). lia.
      * apply NoDup_emit; [done | lia | lia].
Qed.

(** ** Recycling *)

(** An [INCRBY] answer below the delta that was asked for ends the iteration
    with the recycling error, and no [EXPIRE] follows it. *)
Lemma attempt_recycling g serverID st n1 n2 r i key d c :
  attempt_trace g serverID st n1 n2 r !! i = Some (EvIncrBy key d (Val c)) →
  c < d → Int64.min_int ≤ c - d →
  length (attempt_trace g serverID st n1 n2 r) = S i ∧
  key = attempt_key g serverID st n1 n2 ∧
  attempt_flow g serverID st n1 n2 r =
    Return (Err (ErrRecycling (attempt_ms st n1 n2))).
Proof.
  intros Hi Hlt Hmin. unfold attempt_trace in *.
  destruct i as [|[|[|i]]]; simpl in Hi; [done | done | |].
  - injection Hi as -> <- ->. simpl.
    assert (Int64.sub c (leftNum st) = c - leftNum st) as Hsub by int64_lia.
    rewrite Hsub. case_decide; [lia |]. split_and!; [done | done |].
    unfold settle. rewrite Hsub, maxCounter_eq.
    case_decide; [lia |]. case_decide; [done | lia].
  - destruct r as [c'|msg]; [|by destruct i].
    case_decide; [|by destruct i]. by destruct i.
Qed.

Lemma loop_run_recycling g serverID n st tr f i key d c :
  loop_run g serverID n st tr f →
  tr !! i = Some (EvIncrBy key d (Val c)) →
  c < d → Int64.min_int ≤ c - d →
  length tr = S i ∧
  ∃ ms, key = counterKey (namespace g) serverID ms ∧
        f = Return (Err (ErrRecycling ms)).
Proof.
  intros Hrun. revert i.
  induction Hrun as [n st Hstop
                    |n st n1 n2 r res Hpos Hn1 Hn2 Hr Hflow
                    |n st n1 n2 r st1 tr f Hpos Hn1 Hn2 Hr Hflow Hrun IH];
    intros i Hi Hlt Hmin.
  - done.
  - destruct (attempt_recycling _ _ _ _ _ _ _ _ _ _ Hi Hlt Hmin) as (? & ? & Hrec).
    split; [done |]. exists (attempt_ms st n1 n2). split; [done |]. congruence.
  - apply lookup_app_Some in Hi as [Hi|[Hlen Hi]].
    + destruct (attempt_recycling _ _ _ _ _ _ _ _ _ _ Hi Hlt Hmin) as (_ & _ & Hrec).
      congruence.
    + destruct (IH _ Hi Hlt Hmin) as [Hlen' Hres]. split; [|done].
      rewrite length_app. lia.
Qed.

(** Closes a decidable goal about concrete data by evaluating its decision
    procedure. *)
Ltac by_compute := apply (bool_decide_unpack _); vm_compute; exact I.

Lemma post_epoch_app tr1 tr2 :
  post_epoch (tr1 ++ tr2) ↔ post_epoch tr1 ∧ post_epoch tr2.
Proof. unfold post_epoch. rewrite clock_reads_app. apply Forall_app. Qed.

(** ** The keys sent to the store *)

Lemma store_keys_attempt g serverID st n1 n2 r :
  Forall (λ key, key = attempt_key g serverID st n1 n2)
         (store_keys (attempt_trace g serverID st n1 n2 r)).
Proof.
  unfold attempt_trace. rewrite store_keys_app. simpl.
  destruct r as [c|msg]; [case_decide|]; simpl; repeat constructor.
Qed.

Lemma loop_run_store_keys g serverID n st tr f :
  loop_run g serverID n st tr f →
  Forall (λ key, ∃ ms, key = counterKey (namespace g) serverID ms)
         (store_keys tr).
Proof.
  induction 1 as [| |n st n1 n2 r st1 tr f ? ? ? ? Hflow Hloop IH].
  - constructor.
  - eapply Forall_impl; [apply store_keys_attempt |].
    intros key ->. by eexists.
  - rewrite store_keys_app. apply Forall_app. split; [|done].
    eapply Forall_impl; [apply store_keys_attempt |].
    intros key ->. by eexists.
Qed.

(** ** Identifiers past 2038 *)

Lemma settle_accepts_32_bits g serverID st ms counter e :
  0 ≤ Z.quot ms 1000 ≤ 2 ^ 32 - 1 →
  settle g serverID st ms counter ≠ Return (Err (ErrSecondsOverflow e)).
Proof.
  intros Hsec. unfold settle, Int64.quot.
  assert (Z.land (Z.quot ms 1000) 0xFFFFFFFF = Z.quot ms 1000) as Hfit
    by (apply Int64Facts.fits_32; lia).
  repeat case_decide; try done.
  all: destruct (decide (counter > maxCounter)); done.
Qed.

(** ** Forward progress of the millisecond *)

(** A bucket found full is skipped: nothing is produced and what is owed
    stays as it was. *)
Lemma settle_skips_full_bucket g serverID st ms counter :
  Int64.sub counter (leftNum st) > maxCounter →
  settle g serverID st ms counter =
    Next {| leftNum := leftNum st; lastMs := ms; ids := ids st |}.
Proof. intros Hfull. unfold settle. by rewrite decide_True. Qed.

(** When the second clock reading of an iteration is not below the first,
    the millisecond moves strictly forward. *)
Lemma next_ms_steady last t1 t2 :
  Int64.in_range last → last < Int64.max_int → t1 ≤ t2 →
  last < next_ms last t1 t2.
Proof. intros Hlast Hmax Hle. unfold next_ms. repeat case_decide; int64_lia. Qed.

(** ** Bucket keys tell buckets apart *)

Lemma colon_free_app s t :
  colon_free s → colon_free t → colon_free (s +:+ t).
Proof. induction s as [|a s IH]; simpl; [done | intros [? ?] ?; auto]. Qed.

Lemma app_colon_inj s1 t1 s2 t2 :
  colon_free s1 → colon_free s2 →
  s1 +:+ ":" +:+ t1 = s2 +:+ ":" +:+ t2 → s1 = s2 ∧ t1 = t2.
Proof.
  revert s2. induction s1 as [|a s1 IH]; intros [|b s2]; simpl.
  - intros _ _ Heq. by simplify_eq.
  - intros _ [Hb _] Heq. by simplify_eq.
  - intros [Ha _] _ Heq. by simplify_eq.
  - intros [_ H1] [_ H2] Heq. injection Heq as -> Heq.
    destruct (IH _ H1 H2 Heq) as [-> ->]. done.
Qed.

Lemma pretty_N_go_colon_free (x : N) s :
  colon_free s → colon_free (pretty_N_go x s).
Proof.
  revert s. induction (N.lt_wf_0 x) as [x _ IH]; intros s Hs.
  destruct (decide (x = 0)%N) as [->|Hx].
  - by rewrite pretty_N_go_0.
  - rewrite pretty_N_go_step by lia. apply IH.
    + apply N.div_lt; lia.
    + split; [|done]. unfold pretty_N_char. by repeat case_match.
Qed.

Lemma pretty_Z_colon_free (z : Z) : colon_free (pretty z).
Proof.
  assert (∀ p : positive, colon_free (pretty p)) as Hpos.
  { intros p. unfold pretty, pretty_positive, pretty, pretty_N.
    case_decide; [done |]. by apply pretty_N_go_colon_free. }
  destruct z as [|p|p]; unfold pretty, pretty_Z; [done | apply Hpos |].
  simpl. split; [done | apply Hpos].
Qed.

Lemma counterKey_inj ns sid1 ms1 sid2 ms2 :
  counterKey ns sid1 ms1 = counterKey ns sid2 ms2 → sid1 = sid2 ∧ ms1 = ms2.
Proof.
  unfold counterKey. intros Heq.
  apply (inj (String.append _)) in Heq.
  apply (inj (String.append _)) in Heq.
  apply (inj (String.append _)) in Heq.
  apply app_colon_inj in Heq as [H1 H2]; [|apply pretty_Z_colon_free..].
  split; by apply (inj pretty).
Qed.

(** ** The in-memory store, seen from the trace *)

Lemma script_next_ok (P : Z → Prop) l :
  P 0 → Forall P l → P (Mem.script_next l).1 ∧ Forall P (Mem.script_next l).2.
Proof.
  intros H0 Hl. destruct Hl as [|x l Hx Hl]; [by split |].
  destruct Hl as [|y l Hy Hl]; simpl; repeat constructor; done.
Qed.

Lemma Mem_run_trace {A} (p : prog A) w a w' tr :
  run Mem.redis p w = (a, w', tr) →
  mem_trace (Mem.store w) tr (Mem.store w') ∧
  (clock_ok w → clock_ok w' ∧ post_epoch tr).
Proof.
  revert w a w' tr.
  induction p as [a0|k IH|max k IH|key num k IH|key ttl k IH];
    intros w a w' tr; simpl.
  - intros [= <- <- <-]. split; [constructor | by split; [|constructor]].
  - unfold Mem.now. destruct (Mem.script_next (Mem.clock w)) as [t rest] eqn:Hnext.
    destruct (run Mem.redis (k (Int64.wrap t)) _) as [[a1 w1] tr1] eqn:Hrun.
    intros [= <- <- <-]. apply IH in Hrun as [Htr Hclock]. simpl in *.
    split; [by constructor |]. intros Hok.
    destruct (script_next_ok (λ t, 0 ≤ t ≤ Int64.max_int) (Mem.clock w))
      as [Ht Hrest]; [unfold Int64.max_int; lia | done |].
    rewrite Hnext in Ht, Hrest. simpl in Ht, Hrest.
    destruct (Hclock Hrest) as [? ?]. split; [done |].
    unfold post_epoch. simpl. constructor; [|done].
    rewrite Int64Facts.wrap_id; [lia |]. unfold Int64.in_range, Int64.min_int in *. lia.
  - unfold Mem.rand. destruct (Mem.script_next (Mem.dice w)) as [i rest].
    destruct (run Mem.redis (k _) _) as [[a1 w1] tr1] eqn:Hrun.
    intros [= <- <- <-]. apply IH in Hrun as [Htr Hclock]. simpl in *.
    split; [by constructor | done].
  - unfold Mem.incr. fold (value_at (Mem.store w) key). case_decide as Hrange.
    + destruct (run Mem.redis (k _) _) as [[a1 w1] tr1] eqn:Hrun.
      intros [= <- <- <-]. apply IH in Hrun as [Htr Hclock]. simpl in *.
      rewrite Int64Facts.wrap_id by done. split; [by constructor | done].
    + destruct (run Mem.redis (k _) _) as [[a1 w1] tr1] eqn:Hrun.
      intros [= <- <- <-]. apply IH in Hrun as [Htr Hclock]. simpl in *.
      split; [by constructor | done].
  - destruct (run Mem.redis k _) as [[a1 w1] tr1] eqn:Hrun.
    intros [= <- <- <-]. apply IH in Hrun as [Htr Hclock].
    assert (Mem.store (Mem.expire key ttl w) = Mem.store w ∧
            Mem.clock (Mem.expire key ttl w) = Mem.clock w) as [Hst Hcl].
    { unfold Mem.expire. by destruct (Mem.store w !! key). }
    rewrite Hst in Htr. unfold clock_ok in *. rewrite Hcl in Hclock.
    split; [by constructor | done].
Qed.

Lemma mem_trace_app σ tr1 tr2 σ' :
  mem_trace σ (tr1 ++ tr2) σ' ↔
  ∃ σ1, mem_trace σ tr1 σ1 ∧ mem_trace σ1 tr2 σ'.
Proof.
  split.
  - revert σ. induction tr1 as [|e tr1 IH]; intros σ; simpl.
    + intros H. exists σ. split; [constructor | done].
    + inversion 1; subst;
        match goal with H : mem_trace _ (tr1 ++ tr2) _ |- _ =>
          apply IH in H as (σ1 & ? & ?) end;
        exists σ1; split; try done; by constructor.
  - intros (σ1 & H1 & H2). induction H1; simpl; [done | constructor; auto..].
Qed.

(** ** Identifiers by bucket *)

Lemma pack_ms_decode serverID ms i :
  bucket_ok serverID ms → 0 ≤ i ≤ 255 →
  id_seconds (pack_ms ms i serverID) = Z.quot ms 1000 ∧
  id_millis (pack_ms ms i serverID) = Z.rem ms 1000 ∧
  id_counter (pack_ms ms i serverID) = i ∧
  id_serverID (pack_ms ms i serverID) = serverID.
Proof.
  intros Hb Hi. rewrite pack_ms_unfold.
  apply pack_decode. by apply bucket_fields_fit.
Qed.

Lemma in_bucket_pack_ms serverID ms i sid' ms' :
  bucket_ok serverID ms → 0 ≤ i ≤ 255 → bucket_ok sid' ms' →
  in_bucket sid' (Z.quot ms' 1000) (Z.rem ms' 1000) (pack_ms ms i serverID) ↔
  sid' = serverID ∧ ms' = ms.
Proof.
  intros Hb Hi Hb'. unfold in_bucket.
  destruct (pack_ms_decode _ _ _ Hb Hi) as (-> & -> & _ & ->).
  split.
  - intros (-> & Hq & Hr). split; [done |]. by apply quot_rem_1000_inj.
  - by intros [-> ->].
Qed.

Lemma bucket_counters_app serverID seconds millis l1 l2 :
  bucket_counters serverID seconds millis (l1 ++ l2) =
    bucket_counters serverID seconds millis l1 ++
    bucket_counters serverID seconds millis l2.
Proof. unfold bucket_counters. by rewrite filter_app, fmap_app. Qed.

Lemma bucket_counters_pack_same serverID ms (cs : list Z) :
  bucket_ok serverID ms → Forall (λ i, 0 ≤ i ≤ 255) cs →
  bucket_counters serverID (Z.quot ms 1000) (Z.rem ms 1000)
    ((λ i, pack_ms ms i serverID) <$> cs) = cs.
Proof.
  intros Hb. unfold bucket_counters.
  induction 1 as [|i cs Hi Hcs IH]; [done |]. rewrite fmap_cons.
  rewrite filter_cons_True by (by apply in_bucket_pack_ms).
  rewrite fmap_cons, IH. f_equal. by apply pack_ms_decode.
Qed.

Lemma bucket_counters_pack_other serverID ms (cs : list Z) sid' ms' :
  bucket_ok serverID ms → Forall (λ i, 0 ≤ i ≤ 255) cs →
  bucket_ok sid' ms' → ¬ (sid' = serverID ∧ ms' = ms) →
  bucket_counters sid' (Z.quot ms' 1000) (Z.rem ms' 1000)
    ((λ i, pack_ms ms i serverID) <$> cs) = [].
Proof.
  intros Hb Hcs Hb' Hne. unfold bucket_counters.
  induction Hcs as [|i cs Hi Hcs IH]; [done |]. rewrite fmap_cons.
  rewrite filter_cons_False; [done |].
  intros Hin. by apply in_bucket_pack_ms in Hin.
Qed.

Lemma emit_pack_ms serverID ms start end_ :
  emit (Z.quot ms 1000) (Z.rem ms 1000) serverID start end_ =
    (λ i, pack_ms ms i serverID) <$> seqZ start (end_ - start).
Proof.
  unfold emit. apply list_fmap_ext. intros _ i _. by rewrite pack_ms_unfold.
Qed.

Lemma seqZ_prefix (l1 l2 : list Z) m :
  l1 ++ l2 = seqZ 0 m → l1 = seqZ 0 (Z.of_nat (length l1)).
Proof.
  intros Heq.
  assert (Z.of_nat (length l1) + Z.of_nat (length l2) = Z.max 0 m) as Hlen.
  { apply (f_equal length) in Heq. rewrite length_app, length_seqZ in Heq. lia. }
  destruct (decide (m ≤ 0)) as [Hm|Hm].
  { rewrite seqZ_nil in Heq by done. apply app_eq_nil in Heq as [-> _]. done. }
  rewrite Z.max_r in Hlen by lia. rewrite <- Hlen in Heq.
  rewrite seqZ_app in Heq by lia.
  apply app_inj_1 in Heq as [? _]; [done |]. by rewrite length_seqZ, Nat2Z.id.
Qed.

(** ** The invariant of a store shared by successive calls *)

Lemma value_at_insert σ k c k' :
  value_at (<[k := c]> σ) k' = if decide (k = k') then c else value_at σ k'.
Proof.
  unfold value_at. rewrite lookup_insert. by case_decide.
Qed.

Section Buckets.
Context (g : generator).

Lemma bucket_key_inj sid1 ms1 sid2 ms2 :
  bucket_key g sid1 ms1 = bucket_key g sid2 ms2 → sid1 = sid2 ∧ ms1 = ms2.
Proof. apply counterKey_inj. Qed.

(** Giving up identifiers of full buckets keeps the rest contiguous. *)
Lemma contiguous_drop σ issued pending :
  contiguous g σ (issued ++ pending) → spent g σ pending → contiguous g σ issued.
Proof.
  intros Hcont Hspent sid ms Hb.
  destruct (Hcont sid ms Hb) as (m & Hm & Hbc & Htotal).
  rewrite bucket_counters_app in Hbc.
  destruct (bucket_counters sid (Z.quot ms 1000) (Z.rem ms 1000) pending)
    as [|c cs] eqn:Hpending.
  - rewrite app_nil_r in Hbc. by exists m.
  - assert (256 ≤ value_at σ (bucket_key g sid ms)) as Hfull.
    { unfold bucket_counters in Hpending.
      destruct (filter _ pending) as [|id ids'] eqn:Hfilter; [done |].
      assert (id ∈ filter (in_bucket sid (Z.quot ms 1000) (Z.rem ms 1000)) pending)
        as [Hin Hid]%list_elem_of_filter by (rewrite Hfilter; left).
      by eapply Hspent. }
    pose proof (seqZ_prefix _ _ _ Hbc) as Hprefix.
    exists (Z.of_nat (length
              (bucket_counters sid (Z.quot ms 1000) (Z.rem ms 1000) issued))).
    split_and!; [lia | | done | lia].
    apply (f_equal length) in Hbc.
    rewrite length_app, length_seqZ in Hbc. lia.
Qed.

(** The store moves at the key of a bucket that cannot hold identifiers,
    or to a total of a full bucket. *)
Lemma contiguous_update σ l sid0 ms0 c :
  contiguous g σ l → ¬ bucket_ok sid0 ms0 ∨ 256 ≤ c →
  contiguous g (<[bucket_key g sid0 ms0 := c]> σ) l.
Proof.
  intros Hcont Hc sid ms Hb.
  destruct (Hcont sid ms Hb) as (m & Hm & Hbc & Htotal).
  exists m. split_and!; [lia | lia | done |].
  rewrite value_at_insert. case_decide as Hkey; [|done].
  apply bucket_key_inj in Hkey as [-> ->]. destruct Hc; [done | lia].
Qed.

Lemma spent_update σ l k c :
  spent g σ l → value_at σ k ≤ c → spent g (<[k := c]> σ) l.
Proof.
  intros Hspent Hc id sid ms Hid Hb Hin. rewrite value_at_insert.
  specialize (Hspent id sid ms Hid Hb Hin). case_decide as Hk; [|done].
  subst k. lia.
Qed.

Lemma store_nonneg_update σ k c :
  store_nonneg σ → 0 ≤ c → store_nonneg (<[k := c]> σ).
Proof. intros Hσ Hc k'. rewrite value_at_insert. by case_decide. Qed.

(** A grant continues the bucket where the stored total stood. *)
Lemma contiguous_grant σ l sid0 ms0 c :
  let old := value_at σ (bucket_key g sid0 ms0) in
  contiguous g σ l → bucket_ok sid0 ms0 → 0 ≤ old ≤ 255 → old < c →
  contiguous g (<[bucket_key g sid0 ms0 := c]> σ)
    (l ++ emit (Z.quot ms0 1000) (Z.rem ms0 1000) sid0 old (Z.min c 256)).
Proof.
  intros old Hcont Hb0 Hold Hc sid ms Hb.
  destruct (Hcont sid ms Hb) as (m & Hm & Hbc & Htotal).
  assert (Forall (λ i, 0 ≤ i ≤ 255) (seqZ old (Z.min c 256 - old))) as Hrange.
  { apply Forall_seqZ. lia. }
  rewrite bucket_counters_app, emit_pack_ms, value_at_insert.
  destruct (decide (sid = sid0 ∧ ms = ms0)) as [[-> ->]|Hne].
  - rewrite decide_True by done.
    rewrite bucket_counters_pack_same by done.
    fold old in Htotal. rewrite (Htotal ltac:(lia)) in Hbc. rewrite Hbc.
    exists (Z.min c 256). split_and!; [lia | lia | | lia].
    replace (Z.min c 256) with (old + (Z.min c 256 - old)) at 2 by lia.
    rewrite seqZ_app by lia. done.
  - rewrite decide_False
      by (intros Hk; apply bucket_key_inj in Hk as [-> ->]; by apply Hne).
    rewrite bucket_counters_pack_other by done. rewrite app_nil_r.
    by exists m.
Qed.

End Buckets.

Lemma mem_trace_attempt g serverID st n1 n2 r σ σ' :
  mem_trace σ (attempt_trace g serverID st n1 n2 r) σ' →
  let key := attempt_key g serverID st n1 n2 in
  (∃ msg, r = Fail msg ∧ σ' = σ) ∨
  (r = Val (value_at σ key + leftNum st) ∧
   Int64.in_range (value_at σ key + leftNum st) ∧
   σ' = <[key := value_at σ key + leftNum st]> σ).
Proof.
  unfold attempt_trace. simpl. intros H.
  inversion H as [|? ? ? ? H1| | | |]; subst.
  inversion H1 as [|? ? ? ? H2| | | |]; subst.
  inversion H2 as [| | | |? ? ? ? ? Hrange H3|? ? ? ? ? ? H3]; subst.
  - right. split_and!; [done | done |].
    case_decide; [inversion H3 as [| | |? ? ? ? ? H4| |]; subst; by inversion H4
                 | by inversion H3].
  - left. exists msg. split; [done |]. by inversion H3.
Qed.

(** When [settle] returns, the total was below the delta or the bucket is
    one the layout cannot hold. *)
Lemma settle_Return_cases g serverID st ms counter res :
  settle g serverID st ms counter = Return res →
  counter < leftNum st ∨
  ¬ (0 ≤ Z.quot ms 1000 < 2 ^ 32 ∧ 0 ≤ serverID < 2 ^ 14).
Proof.
  unfold settle, Int64.quot. case_decide; [done |].
  case_decide; [by left |].
  destruct (decide (counter > maxCounter)).
  - case_decide as Hsec.
    { intros _. right. intros [? _]. by apply Hsec, Int64Facts.fits_32. }
    case_decide as Hsid; [|done].
    intros _. right. intros [_ ?]. by apply Hsid, Int64Facts.fits_14.
  - case_decide as Hsec.
    { intros _. right. intros [? _]. by apply Hsec, Int64Facts.fits_32. }
    case_decide as Hsid; [|done].
    intros _. right. intros [_ ?]. by apply Hsid, Int64Facts.fits_14.
Qed.

(** The loop over the in-memory store keeps [in_flight]; when it returns
    early, what was issued before the call is still [settled]. *)
Lemma loop_run_buckets g serverID n st tr f :
  loop_run g serverID n st tr f →
  ∀ σ σ' issued,
    mem_trace σ tr σ' →
    0 ≤ leftNum st → Int64.in_range (leftNum st) →
    0 ≤ lastMs st → Z.of_nat n ≤ 2 ^ 44 → lastMs st + Z.of_nat n ≤ 2 ^ 45 →
    post_epoch tr →
    in_flight g σ issued st →
    match f with
    | Next st' => in_flight g σ' issued st' ∧ 0 ≤ leftNum st'
    | Return _ => settled g σ' issued
    end.
Proof.
  induction 1 as [n st Hstop
                 |n st n1 n2 r res Hpos Hn1 Hn2 Hr Hflow
                 |n st n1 n2 r st1 tr f Hpos Hn1 Hn2 Hr Hflow Hrun IH];
    intros σ σ' issued Hmem Hleft Hrange Hlast Hn Hbound Hclock
      (Hwf & Hcont & Hnn & Hspent).
  - inversion Hmem; subst. by split.
  - specialize (Hspent Hpos).
    apply Forall_app in Hwf as [Hwf _].
    apply mem_trace_attempt in Hmem as [(msg & -> & ->)|(-> & Hc & ->)].
    { split_and!; [done | by eapply contiguous_drop | done]. }
    simpl in Hflow. apply settle_Return_cases in Hflow as [Hrec|Hbad].
    { specialize (Hnn (attempt_key g serverID st n1 n2)). lia. }
    split_and!; [done | | ].
    + eapply contiguous_drop.
      * apply contiguous_update; [exact Hcont |]. left.
        intros (? & ? & ?). apply Hbad. split; [|done].
        split; [Z.quot_rem_to_equations; lia | done].
      * apply spent_update; [done |]. lia.
    + apply store_nonneg_update; [done |].
      specialize (Hnn (attempt_key g serverID st n1 n2)). lia.
  - specialize (Hspent Hpos).
    unfold post_epoch in Hclock.
    rewrite clock_reads_app, clock_reads_attempt in Hclock.
    apply Forall_app in Hclock as [Hnow Hclock].
    apply Forall_cons in Hnow as [_ [Hn2pos _]%Forall_cons].
    pose proof (attempt_ms_post_epoch st n1 n2 Hn1 Hn2 Hn2pos ltac:(lia)) as Hms.
    apply mem_trace_app in Hmem as (σ1 & Hmem1 & Hmem).
    apply mem_trace_attempt in Hmem1 as [(msg & -> & ->)|(-> & Hc & ->)];
      [done |].
    simpl in Hflow.
    pose proof (Hnn (attempt_key g serverID st n1 n2)) as Hold.
    set (old := value_at σ (attempt_key g serverID st n1 n2)) in *.
    apply settle_Next in Hflow as [Hlast1 Hcases]; [|lia|done|done].
    assert (Int64.sub (old + leftNum st) (leftNum st) = old) as Hstart
      by int64_lia.
    rewrite Hstart in Hcases. rewrite maxCounter_eq in Hcases.
    replace (old + leftNum st - leftNum st) with old in Hcases by lia.
    destruct Hcases as [(Hfull & Hl & Hi)|(Hstart' & Hsec & Hsid & Hl & Hi)].
    + eapply (IH _ σ' issued); [exact Hmem | rewrite ?Hl, ?Hlast1, ?Hi..];
        try done; try lia.
      unfold in_flight. rewrite Hl, Hi.
      change (attempt_key g serverID st n1 n2)
        with (bucket_key g serverID (attempt_ms st n1 n2)) in *.
      split_and!; [done | | | ].
        -- apply contiguous_update; [done |]. right. lia.
        -- apply store_nonneg_update; [done | lia].
        -- intros _. apply spent_update; [done |]. fold old. lia.
    + assert (bucket_ok serverID (attempt_ms st n1 n2)) as Hb
        by (unfold bucket_ok; lia).
      eapply (IH _ σ' issued); [exact Hmem | rewrite ?Hl, ?Hlast1, ?Hi..];
        try done; try lia.
      * int64_lia.
      * unfold in_flight. rewrite Hl, Hi.
        change (attempt_key g serverID st n1 n2)
          with (bucket_key g serverID (attempt_ms st n1 n2)) in *.
        rewrite (assoc_L (++)). split_and!.
        -- apply Forall_app. split; [done |]. apply Forall_forall.
           intros id (i & Hi' & ->)%elem_of_emit. rewrite <- pack_ms_unfold.
           exists serverID, (attempt_ms st n1 n2), i.
           split; [done |]. split; [lia | reflexivity].
        -- apply (contiguous_grant g σ (issued ++ ids st) serverID
                    (attempt_ms st n1 n2)); try done; fold old; lia.
        -- apply store_nonneg_update; [done | lia].
        -- intros Hmore id sid ms Hid Hbid Hin. rewrite value_at_insert.
           apply elem_of_app in Hid as [Hid|Hid].
           ++ specialize (Hspent id sid ms Hid Hbid Hin).
              case_decide as Hk; [|done]. rewrite <- Hk in Hspent.
              fold old in Hspent. lia.
           ++ apply elem_of_emit in Hid as (i & Hi' & ->).
              rewrite <- pack_ms_unfold in Hin.
              apply in_bucket_pack_ms in Hin as [-> ->]; [|done|lia|done].
              rewrite decide_True by done. lia.
Qed.

(** ** Successive calls on one store *)

Lemma mem_trace_pick g tr r σ σ' :
  exec (pickServerID g) tr r → mem_trace σ tr σ' → σ' = σ.
Proof.
  intros [[->|[a ->]] _]%exec_pickServerID Hmem.
  - by inversion Hmem.
  - inversion Hmem as [| |? ? ? ? ? H1| | |]; subst. by inversion H1.
Qed.

Lemma settled_in_flight_init g σ issued counts :
  settled g σ issued → in_flight g σ issued (init_state counts).
Proof.
  intros (Hwf & Hcont & Hnn). unfold in_flight. simpl. rewrite app_nil_r.
  split_and!; [done | done | done |].
  intros _ id sid ms Hid. by apply elem_of_nil in Hid.
Qed.

Lemma GenMultiIDs_settled g counts w r w' tr issued :
  run Mem.redis (GenMultiIDs g counts) w = (r, w', tr) →
  clock_ok w → settled g (Mem.store w) issued →
  clock_ok w' ∧ settled g (Mem.store w') (issued ++ returned r).
Proof.
  intros Hrun Hclock Hset.
  destruct (Mem_run_trace _ _ _ _ _ Hrun) as [Hmem Hclock'].
  destruct (Hclock' Hclock) as [Hok Hepoch]. split; [done |].
  apply run_exec, exec_GenMultiIDs in Hrun
    as [(_ & -> & ->)|([Hc0 Hc1] & tr1 & tr2 & pr & -> & Hpick & Hrest)].
  { inversion Hmem; subst. simpl. by rewrite app_nil_r. }
  apply mem_trace_app in Hmem as (σ1 & Hmem1 & Hmem2).
  apply (mem_trace_pick _ _ _ _ _ Hpick) in Hmem1 as ->.
  apply post_epoch_app in Hepoch as [_ Hepoch].
  destruct pr as [sid|e|p].
  - destruct Hrest as (f & Hloop & ->).
    pose proof (loop_run_buckets _ _ _ _ _ _ Hloop _ _ issued Hmem2) as Hinv.
    simpl in Hinv. unfold maxAlloc in Hc1. unfold maxTimeAddrTimes in Hinv.
    specialize (Hinv ltac:(lia) ltac:(int64_lia) ltac:(lia) ltac:(lia)
                  ltac:(lia) Hepoch (settled_in_flight_init _ _ _ _ Hset)).
    destruct f as [st|res]; simpl.
    + destruct Hinv as [(Hwf & Hcont & Hnn & Hspent) Hleft].
      unfold finish. case_decide as Hcond; simpl.
      * rewrite app_nil_r.
        apply loop_run_accounting in Hloop; simpl in *; [|lia|int64_lia].
        apply Forall_app in Hwf as [Hwf _].
        split_and!; [done | | done].
        eapply contiguous_drop; [done |]. apply Hspent. lia.
      * done.
    + apply loop_run_Return in Hloop as [e ->]. simpl. by rewrite app_nil_r.
  - destruct Hrest as [-> ->]. inversion Hmem2; subst. simpl. by rewrite app_nil_r.
  - destruct Hrest as [-> ->]. inversion Hmem2; subst. simpl. by rewrite app_nil_r.
Qed.

Lemma session_settled g reqs :
  ∀ w rs w' tr acc,
    run Mem.redis (session g reqs) w = (rs, w', tr) →
    clock_ok w → settled g (Mem.store w) acc →
    settled g (Mem.store w') (acc ++ issued rs).
Proof.
  induction reqs as [|counts reqs IH]; intros w rs w' tr acc; cbn [session].
  - intros [= <- <- <-] _ Hset. unfold issued. simpl. by rewrite app_nil_r.
  - rewrite run_bind.
    destruct (run Mem.redis (GenMultiIDs g counts) w) as [[r w1] tr1] eqn:Hcall.
    rewrite run_bind.
    destruct (run Mem.redis (session g reqs) w1) as [[rs' w2] tr2] eqn:Hrest.
    simpl. intros [= <- <- <-] Hclock Hset.
    destruct (GenMultiIDs_settled _ _ _ _ _ _ _ Hcall Hclock Hset) as [Hclock1 Hset1].
    unfold issued. rewrite fmap_cons. simpl. rewrite (assoc_L (++)).
    by eapply IH.
Qed.

Lemma settled_empty g : settled g ∅ [].
Proof.
  split_and!; [constructor | | intros k; by unfold value_at; rewrite lookup_empty].
  intros sid ms Hb. exists 0. split_and!; [lia | lia | done |].
  unfold value_at. by rewrite lookup_empty.
Qed.

(** Whatever triple is asked about, the counters issued under it are
    0, 1, ..., [m - 1]. *)
Lemma settled_triple g σ l serverID seconds millis :
  settled g σ l →
  ∃ m, 0 ≤ m ≤ 256 ∧ bucket_counters serverID seconds millis l = seqZ 0 m.
Proof.
  intros (Hwf & Hcont & _).
  destruct (filter (in_bucket serverID seconds millis) l) as [|id rest] eqn:Hfilter.
  { exists 0. split; [lia |]. unfold bucket_counters. by rewrite Hfilter. }
  assert (id ∈ filter (in_bucket serverID seconds millis) l)
    as [Hin Hid]%list_elem_of_filter by (rewrite Hfilter; left).
  rewrite Forall_forall in Hwf.
  destruct (Hwf id Hid) as (sid & ms & i & Hb & Hi & ->).
  destruct (pack_ms_decode _ _ _ Hb Hi) as (Hs & Hm & _ & Hsid).
  destruct Hin as (Hsid' & Hs' & Hm').
  rewrite Hsid in Hsid'. rewrite Hs in Hs'. rewrite Hm in Hm'. subst.
  destruct (Hcont _ ms Hb) as (m & ? & ? & _). by exists m.
Qed.

(** ** One bucket with room, under a clock that stands still *)

Lemma run_timeMS_stuck w nanos :
  Mem.clock w = [nanos] → Int64.in_range nanos →
  run Mem.redis timeMS w = (Z.quot nanos Millisecond, w, [EvNow nanos]).
Proof.
  intros Hclock Hrange. destruct w as [σ τ cl dc]. simpl in *. subst cl.
  unfold timeMS. simpl. unfold Mem.now. simpl.
  by rewrite Int64Facts.wrap_id.
Qed.

Lemma run_pickServerID_stuck g w j sid :
  Mem.dice w = [Z.of_nat j] → Int64.in_range (Z.of_nat j) →
  serverIDs g !! j = Some sid →
  run Mem.redis (pickServerID g) w =
    (Ok sid, w, [EvRand (Z.of_nat (length (serverIDs g))) (Val (Z.of_nat j))]).
Proof.
  intros Hdice Hrange Hj. destruct w as [σ τ cl dc]. simpl in *. subst dc.
  unfold pickServerID. apply lookup_lt_Some in Hj as Hlen.
  rewrite decide_False by lia. simpl. unfold Mem.rand. simpl.
  rewrite Int64Facts.wrap_id by done. rewrite decide_True by lia.
  by rewrite Nat2Z.id, Hj.
Qed.

Lemma run_incrBy_mem w key d :
  Int64.in_range (value_at (Mem.store w) key + d) →
  run Mem.redis (incrBy key d) w =
    (Val (value_at (Mem.store w) key + d),
     {| Mem.store := <[key := value_at (Mem.store w) key + d]> (Mem.store w);
        Mem.ttls := Mem.ttls w; Mem.clock := Mem.clock w; Mem.dice := Mem.dice w |},
     [EvIncrBy key d (Val (value_at (Mem.store w) key + d))]).
Proof.
  intros Hrange. unfold incrBy. simpl. unfold Mem.incr.
  fold (value_at (Mem.store w) key). rewrite decide_True by done. simpl.
  by rewrite Int64Facts.wrap_id.
Qed.

(** A grant that the bucket can take whole. *)
Lemma settle_fits g serverID st ms counter :
  0 < leftNum st → leftNum st ≤ counter → counter ≤ 255 →
  bucket_ok serverID ms →
  settle g serverID st ms counter =
    Next {| leftNum := 0; lastMs := ms;
            ids := ids st ++
                   ((λ i, pack_ms ms i serverID)
                      <$> seqZ (counter - leftNum st) (leftNum st)) |}.
Proof.
  intros Hpos Hle Hc (Hms & Hsec & Hsid). unfold settle.
  rewrite Int64Facts.sub_id by int64_lia. rewrite maxCounter_eq.
  rewrite decide_False by lia. rewrite decide_False by lia.
  rewrite decide_False by lia. unfold Int64.quot, Int64.rem.
  assert (Z.land (Z.quot ms 1000) 0xFFFFFFFF = Z.quot ms 1000) as Hfs.
  { apply Int64Facts.fits_32. Z.quot_rem_to_equations. lia. }
  assert (Z.land serverID 0x3FFF = serverID) as Hfi
    by (by apply Int64Facts.fits_14).
  rewrite decide_False by (by intros []).
  rewrite decide_False by (by intros []).
  rewrite emit_pack_ms.
  by replace (counter - (counter - leftNum st)) with (leftNum st) by lia.
Qed.

Lemma run_attempt_stuck g sid st w nanos :
  let ms := attempt_ms st nanos nanos in
  let key := counterKey (namespace g) sid ms in
  let total := value_at (Mem.store w) key + leftNum st in
  Mem.clock w = [nanos] → Int64.in_range nanos → Int64.in_range total →
  ∃ w',
    run Mem.redis (attempt g sid st) w =
      (settle g sid st ms total, w',
       attempt_trace g sid st nanos nanos (Val total)) ∧
    Mem.store w' = <[key := total]> (Mem.store w) ∧
    Mem.clock w' = Mem.clock w ∧ Mem.dice w' = Mem.dice w.
Proof.
  intros ms key total Hclock Hnanos Htotal. unfold attempt.
  rewrite run_bind, (run_timeMS_stuck w nanos) by done. cbv beta iota zeta.
  rewrite run_bind, (run_timeMS_stuck w nanos) by done. cbv beta iota zeta.
  change (next_ms (lastMs st) (Z.quot nanos Millisecond)
            (Z.quot nanos Millisecond)) with ms.
  change (counterKey (namespace g) sid ms) with key.
  rewrite run_bind, run_incrBy_mem by done. cbv beta iota zeta.
  change (value_at (Mem.store w) key + leftNum st) with total.
  rewrite run_bind. unfold attempt_trace, attempt_key.
  change (attempt_ms st nanos nanos) with ms.
  change (counterKey (namespace g) sid ms) with key.
  case_decide as Hstart.
  - unfold expire. simpl. eexists. split; [reflexivity |].
    unfold Mem.expire. simpl. by rewrite lookup_insert_eq.
  - simpl. eexists. split; [reflexivity |]. done.
Qed.

(** With the clock standing in millisecond [T ≥ 1] and room for [counts]
    more in the bucket of [T], the call is served by that bucket in one
    iteration: it returns the counters from the stored total on, and leaves
    the total raised by [counts]. *)
Lemma run_GenMultiIDs_one_bucket g w nanos j sid counts :
  let T := Z.quot nanos Millisecond in
  let key := counterKey (namespace g) sid T in
  let old := value_at (Mem.store w) key in
  Mem.clock w = [nanos] → Int64.in_range nanos →
  Mem.dice w = [Z.of_nat j] → Int64.in_range (Z.of_nat j) →
  serverIDs g !! j = Some sid → bucket_ok sid T →
  1 ≤ counts → 0 ≤ old → old + counts ≤ 255 →
  ∃ w' tr,
    run Mem.redis (GenMultiIDs g counts) w =
      (Ok ((λ i, pack_ms T i sid) <$> seqZ old counts), w', tr) ∧
    Mem.store w' = <[key := old + counts]> (Mem.store w) ∧
    Mem.clock w' = [nanos] ∧ Mem.dice w' = [Z.of_nat j].
Proof.
  intros T key old Hclock Hnanos Hdice Hj Hsid Hb Hcounts Hold Hroom.
  assert (attempt_ms (init_state counts) nanos nanos = T) as Hms.
  { unfold attempt_ms, next_ms, Int64.quot, init_state. cbn [lastMs].
    change (Z.quot nanos Millisecond) with T.
    destruct Hb as (? & _). destruct (decide (T > 0)); [|lia].
    by rewrite decide_False by lia. }
  destruct (run_attempt_stuck g sid (init_state counts) w nanos)
    as (w' & Hrun & Hstore & Hclock' & Hdice'); [done | done | |].
  { rewrite Hms. fold key old. simpl. int64_lia. }
  rewrite Hms in Hrun, Hstore. fold key old in Hrun, Hstore. simpl leftNum in *.
  rewrite (settle_fits g sid (init_state counts) T (old + counts)) in Hrun;
    [|simpl; lia..|done].
  unfold init_state in Hrun. cbn [leftNum ids app] in Hrun.
  replace (old + counts - counts) with old in Hrun by lia.
  exists w'. eexists. split; [|by rewrite Hclock', Hdice'].
  unfold GenMultiIDs.
  rewrite decide_True by (unfold makeslice_ok, maxAlloc; lia).
  rewrite run_bind, (run_pickServerID_stuck g w j sid) by done.
  cbv beta iota zeta.
  rewrite run_bind. unfold maxTimeAddrTimes. cbn [for_loop].
  rewrite decide_True by (simpl; lia).
  rewrite run_bind, Hrun.
  cbv beta iota zeta. cbn [leftNum].
  rewrite decide_False by lia. simpl. unfold finish. simpl.
  rewrite decide_False
    by (rewrite length_fmap, length_seqZ; intros [?|?]; [lia | done]).
  reflexivity.
Qed.

Lemma value_at_fresh nanos i key :
  value_at (Mem.store (Mem.fresh nanos i)) key = 0.
Proof. unfold value_at, Mem.fresh. cbn [Mem.store]. by rewrite lookup_empty. Qed.

Lemma id_counter_pack_ms serverID ms (cs : list Z) :
  bucket_ok serverID ms → Forall (λ i, 0 ≤ i ≤ 255) cs →
  id_counter <$> ((λ i, pack_ms ms i serverID) <$> cs) = cs.
Proof.
  intros Hb. induction 1 as [|i cs Hi Hcs IH]; [done |].
  rewrite !fmap_cons, IH. f_equal. by apply pack_ms_decode.
Qed.

Lemma in_bucket_pack_ms_all serverID ms (cs : list Z) :
  bucket_ok serverID ms → Forall (λ i, 0 ≤ i ≤ 255) cs →
  Forall (in_bucket serverID (Z.quot ms 1000) (Z.rem ms 1000))
         ((λ i, pack_ms ms i serverID) <$> cs).
Proof.
  intros Hb Hcs. apply Forall_fmap. eapply Forall_impl; [exact Hcs |].
  intros i Hi. simpl.
  apply (proj2 (in_bucket_pack_ms serverID ms i serverID ms Hb Hi Hb)).
  split; reflexivity.
Qed.

(** * The claims *)

(** C1. A successful [GenMultiIDs(ctx, n)] returns exactly [n] identifiers,
    whatever the store and the clock do; and the identifiers are pairwise
    distinct when the clock reads at or after the epoch and the store counts
    upwards on each key, as INCRBY does. *)
Theorem GenMultiIDs_count_and_distinct {W} (h : env W) g n s l s' tr :
  run h (GenMultiIDs g n) s = (Ok l, s', tr) →
  Z.of_nat (length l) = n ∧
  (post_epoch tr → counter_store tr → NoDup l).
Proof.
  intros Hrun%run_exec.
  split; [by eapply exec_GenMultiIDs_length |]. intros Hclock Hstore.
  apply exec_GenMultiIDs_Ok in Hrun
    as ([Hc0 Hc1] & tr1 & tr2 & sid & st & -> & Hpick & Hloop & <- & _ & _).
  apply post_epoch_app in Hclock as [_ Hclock].
  destruct (loop_run_granted _ _ _ _ _ _ Hloop tr1) as [_ Hnodup]; simpl;
    try done; try lia.
  { unfold maxAlloc in Hc1. int64_lia. }
  apply Hnodup; [done | constructor].
Qed.

Lemma GenMultiIDs_count_and_distinct_witness :
  ∃ l, (run Mem.redis (GenMultiIDs Demo.g 300) Demo.w0).1.1 = Ok l ∧
       Z.of_nat (length l) = 300 ∧ NoDup l.
Proof.
  eexists. split; [vm_compute; reflexivity |].
  opose proof (GenMultiIDs_count_and_distinct Mem.redis Demo.g 300 Demo.w0
                 _ _ _ _) as [Hlen Hnodup].
  - vm_compute. reflexivity.
  - split; [exact Hlen |]. apply Hnodup; by_compute.
Defined.

(** C2. Every identifier that [GenMultiIDs] returns is
    [(seconds << 32) + (millis << 22) + (i << 14) + serverID] for the
    millisecond [ms] of one of the call's buckets, with [seconds = ms / 1000]
    and [millis = ms mod 1000]; reading the four bit fields back gives
    [seconds], [millis] in 0..999, a counter in 0..255 and a server id of the
    configured pool.  Proved for a clock that reads at or after the epoch. *)
Theorem GenMultiIDs_layout_roundtrip {W} (h : env W) g n s l s' tr id :
  run h (GenMultiIDs g n) s = (Ok l, s', tr) →
  post_epoch tr → id ∈ l →
  ∃ ms i serverID,
    counterKey (namespace g) serverID ms ∈ store_keys tr ∧
    id = pack (Int64.quot ms 1000) (Int64.rem ms 1000) i serverID ∧
    Int64.quot ms 1000 = ms `div` 1000 ∧ Int64.rem ms 1000 = ms `mod` 1000 ∧
    id_seconds id = ms `div` 1000 ∧
    id_millis id = ms `mod` 1000 ∧ 0 ≤ id_millis id ≤ 999 ∧
    id_counter id = i ∧ 0 ≤ i ≤ 255 ∧
    id_serverID id = serverID ∧ serverID ∈ serverIDs g.
Proof.
  intros Hrun%run_exec Hclock Hid.
  apply exec_GenMultiIDs_Ok in Hrun
    as ([Hc0 Hc1] & tr1 & tr2 & sid & st & -> & Hpick & Hloop & <- & _ & _).
  apply post_epoch_app in Hclock as [_ Hclock].
  destruct (loop_run_granted _ _ _ _ _ _ Hloop tr1) as [Hgr _]; simpl;
    try done; try lia.
  { unfold maxAlloc in Hc1. int64_lia. }
  rewrite Forall_forall in Hgr.
  destruct (Hgr id Hid) as (ms & i & d & c & Hb & Hi & -> & Hev & Hc).
  exists ms, i, sid.
  pose proof (bucket_fields_fit _ _ _ Hb Hi) as Hfit.
  destruct (pack_decode _ _ _ _ Hfit) as (Hs & Hm & Hcnt & Hsid).
  rewrite pack_ms_unfold. unfold Int64.quot, Int64.rem.
  assert (Z.quot ms 1000 = ms `div` 1000) as Hq
    by (destruct Hb; apply Z.quot_div_nonneg; lia).
  assert (Z.rem ms 1000 = ms `mod` 1000) as Hr
    by (destruct Hb; apply Z.rem_mod_nonneg; lia).
  split.
  { unfold incr_events in Hev. apply list_elem_of_omap in Hev as (e & He & Hev).
    unfold store_keys. apply list_elem_of_omap. exists e. split; [done |].
    destruct e; simplify_eq. done. }
  split; [reflexivity |]. split; [exact Hq |]. split; [exact Hr |].
  rewrite Hs, Hm, Hcnt, Hsid. split; [exact Hq |]. split; [exact Hr |].
  split; [destruct Hfit as (_ & ? & _); Z.quot_rem_to_equations; lia |].
  split; [reflexivity |]. split; [exact Hi |]. split; [reflexivity |].
  by eapply exec_pickServerID.
Qed.

Lemma GenMultiIDs_layout_roundtrip_witness :
  ∃ ms i serverID,
    7301444403715899399 =
      pack (Int64.quot ms 1000) (Int64.rem ms 1000) i serverID ∧
    id_seconds 7301444403715899399 = ms `div` 1000 ∧
    id_millis 7301444403715899399 = ms `mod` 1000 ∧
    id_counter 7301444403715899399 = i ∧
    id_serverID 7301444403715899399 = serverID.
Proof.
  opose proof (GenMultiIDs_layout_roundtrip Mem.redis Demo.g 5 Demo.w0
                 _ _ _ 7301444403715899399 _ _ _)
    as (ms & i & sid & _ & ? & _ & _ & ? & ? & _ & ? & _ & ? & _).
  - vm_compute. reflexivity.
  - by_compute.
  - by_compute.
  - exists ms, i, sid. repeat split; assumption.
Defined.

(** C3. If an [INCRBY] of the call is answered with a total [c] smaller than
    the delta [d] it asked for, that call is the last thing [GenMultiIDs]
    does: it returns the recycling error, naming the millisecond of that
    bucket, and with it no identifier, whatever earlier buckets had granted.
    [Int64.min_int ≤ c - d] says that the value before the increment is an
    [int64], as it is for any total that INCRBY computed. *)
Theorem GenMultiIDs_recycling_is_fatal {W} (h : env W) g n s r s' tr i key d c :
  run h (GenMultiIDs g n) s = (r, s', tr) →
  tr !! i = Some (EvIncrBy key d (Val c)) →
  c < d → Int64.min_int ≤ c - d →
  length tr = S i ∧
  ∃ serverID ms,
    serverID ∈ serverIDs g ∧
    key = counterKey (namespace g) serverID ms ∧
    r = Err (ErrRecycling ms).
Proof.
  intros Hrun%run_exec Hi Hlt Hmin.
  apply exec_GenMultiIDs in Hrun
    as [(_ & -> & _)|(_ & tr1 & tr2 & pr & -> & Hpick & Hrest)]; [done |].
  pose proof (exec_pickServerID _ _ _ Hpick) as [Htr1 Hsid].
  apply lookup_app_Some in Hi as [Hi|[Hlen Hi]].
  { destruct Htr1 as [->|[a ->]]; [done | by destruct i]. }
  destruct pr as [sid|e|p]; [|by destruct Hrest as [-> _]..].
  destruct Hrest as (f & Hloop & ->).
  destruct (loop_run_recycling _ _ _ _ _ _ _ _ _ _ Hloop Hi Hlt Hmin)
    as (Hlen2 & ms & -> & ->).
  split; [rewrite length_app; lia |].
  exists sid, ms. split_and!; [by apply Hsid | done | done].
Qed.

Lemma GenMultiIDs_recycling_is_fatal_witness :
  let key := "id_generator:ns:7:1700000000123" in
  let w := {| Mem.store := {[ key := -10 ]}; Mem.ttls := ∅;
              Mem.clock := [Demo.t0]; Mem.dice := [0] |} in
  ∃ serverID ms,
    key = counterKey "ns" serverID ms ∧
    (run Mem.redis (GenMultiIDs Demo.g 5) w).1.1 = Err (ErrRecycling ms).
Proof.
  intros key w.
  opose proof (GenMultiIDs_recycling_is_fatal Mem.redis Demo.g 5 w
                 _ _ _ 3%nat key 5 (-5) _ _ _ _)
    as (_ & sid & ms & _ & Hkey & Hres).
  - vm_compute. reflexivity.
  - vm_compute. reflexivity.
  - lia.
  - unfold Int64.min_int. lia.
  - exists sid, ms. split; [exact Hkey |].
    rewrite <- Hres. vm_compute. reflexivity.
Defined.

(** C4. A call makes at most 8 [INCRBY] calls; and once the loop has run to
    its end in state [st], having produced fewer identifiers than were asked
    for or still owing some, the call returns the not-enough error with the
    namespace, the requested count, the produced count and [lastMs], which is
    the millisecond of the last bucket tried. *)
Theorem GenMultiIDs_bounded_and_exhaustion {W} (h : env W) g counts s :
  (incr_calls (run h (GenMultiIDs g counts) s).2 ≤ 8)%nat ∧
  ∀ serverID s1 tr1 st s2 tr2,
    makeslice_ok counts →
    run h (pickServerID g) s = (Ok serverID, s1, tr1) →
    run h (for_loop g serverID maxTimeAddrTimes (init_state counts)) s1
      = (Next st, s2, tr2) →
    Z.of_nat (length (ids st)) < counts ∨ leftNum st ≠ 0 →
    run h (GenMultiIDs g counts) s =
      (Err (ErrNotEnough (namespace g) counts
              (Z.of_nat (length (ids st))) (lastMs st)),
       s2, tr1 ++ tr2) ∧
    ∀ key d r, last (incr_events tr2) = Some (key, d, r) →
               key = counterKey (namespace g) serverID (lastMs st).
Proof.
  split.
  { destruct (run h (GenMultiIDs g counts) s) as [[r s'] tr] eqn:Hrun.
    apply run_exec in Hrun. by apply exec_GenMultiIDs_incr_calls in Hrun. }
  intros sid s1 tr1 st s2 tr2 Hmk Hpick Hloop Hcond. split.
  - unfold GenMultiIDs. rewrite decide_True by done.
    rewrite run_bind, Hpick, run_bind. unfold init_state in Hloop.
    rewrite Hloop. simpl. unfold finish.
    rewrite decide_True by done. by rewrite app_nil_r.
  - apply run_exec, exec_for_loop in Hloop. clear Hpick Hcond.
    remember (Next st) as f eqn:Hf.
    induction Hloop as [| |n st0 n1 n2 r st1 tr f ? ? ? ? Hflow Hloop IH];
      [done.. |].
    intros key d r'. rewrite incr_events_app, incr_events_attempt.
    specialize (IH Hf).
    destruct (incr_events tr) as [|e evs] eqn:Hevs.
    + simpl. intros [= <- <- <-].
      destruct Hloop as [n st1 Hstop| |]; [|done..].
      injection Hf as <-. apply attempt_flow_Next in Hflow as (c & _ & Hsettle).
      unfold settle in Hsettle. unfold attempt_key.
      repeat case_decide; simplify_eq; done.
    + rewrite last_app. intros Hlast. apply (IH key d r').
      destruct (last (e :: evs)) eqn:Hl; [done | by apply last_None in Hl].
Qed.

Lemma GenMultiIDs_bounded_and_exhaustion_witness :
  ∃ s tr,
    run Mem.redis (GenMultiIDs Demo.g 2049) Demo.w0 =
      (Err (ErrNotEnough "ns" 2049 2048 1700000000130), s, tr).
Proof.
  opose proof (proj2 (GenMultiIDs_bounded_and_exhaustion
                        Mem.redis Demo.g 2049 Demo.w0) _ _ _ _ _ _ _ _ _ _)
    as [Hrun _].
  - unfold makeslice_ok, maxAlloc. lia.
  - vm_compute. reflexivity.
  - vm_compute. reflexivity.
  - right. vm_compute. discriminate.
  - eexists _, _. etrans; [exact Hrun |]. vm_compute. reflexivity.
Defined.

(** C5 (the code departs from the claim).  The first iteration finds the
    bucket of millisecond 1700000000123 full and skips it, producing nothing
    and still owing one identifier.  The second iteration tests a reading of
    millisecond ...124 against [lastMs = ...123], then takes the next
    reading, millisecond ...121, as its value and adds one: it uses
    millisecond ...122, which is not greater than ...123, and the call
    succeeds with an identifier of millisecond ...122. *)
Theorem clock_step_back_breaks_forward_progress :
  next_ms 1700000000123 1700000000124 1700000000121 = 1700000000122 ∧
  store_keys (run Mem.redis (GenMultiIDs Demo.g 1) stepping_back).2 =
    ["id_generator:ns:7:1700000000123";
     "id_generator:ns:7:1700000000122";
     "id_generator:ns:7:1700000000122"] ∧
  (run Mem.redis (GenMultiIDs Demo.g 1) stepping_back).1.1 =
    Ok [pack_ms 1700000000122 0 7].
Proof. split_and!; vm_compute; reflexivity. Qed.

(** C6. On a fresh in-memory store, with the clock standing in one
    millisecond [T] and the same server id picked twice, [GenMultiIDs(ctx, 5)]
    returns the counters 0..4 of the bucket and [GenMultiIDs(ctx, 3)] after it
    the counters 5..7.  In general, for any sequence of calls on a store that
    starts empty, under any clock script that stays at or after the epoch
    and any picks: the counters issued under one (server id, seconds, millis)
    triple are 0, 1, ..., [m - 1], each once and in this order. *)
Theorem bucket_counters_contiguous_from_zero :
  (∀ g nanos j sid,
     let T := Z.quot nanos Millisecond in
     Int64.in_range nanos → Int64.in_range (Z.of_nat j) →
     serverIDs g !! j = Some sid → bucket_ok sid T →
     ∃ l1 w1 tr1 l2 w2 tr2,
       run Mem.redis (GenMultiIDs g 5) (Mem.fresh nanos (Z.of_nat j))
         = (Ok l1, w1, tr1) ∧
       run Mem.redis (GenMultiIDs g 3) w1 = (Ok l2, w2, tr2) ∧
       l1 = (λ i, pack_ms T i sid) <$> [0; 1; 2; 3; 4] ∧
       l2 = (λ i, pack_ms T i sid) <$> [5; 6; 7] ∧
       id_counter <$> l1 = [0; 1; 2; 3; 4] ∧
       id_counter <$> l2 = [5; 6; 7] ∧
       Forall (in_bucket sid (Z.quot T 1000) (Z.rem T 1000)) (l1 ++ l2) ∧
       NoDup (l1 ++ l2)) ∧
  (∀ g reqs clock dice serverID seconds millis,
     Forall (λ t, 0 ≤ t ≤ Int64.max_int) clock →
     let w := {| Mem.store := ∅; Mem.ttls := ∅;
                 Mem.clock := clock; Mem.dice := dice |} in
     let l := issued (run Mem.redis (session g reqs) w).1.1 in
     ∃ m, 0 ≤ m ≤ 256 ∧
          bucket_counters serverID seconds millis l = seqZ 0 m ∧
          NoDup (bucket_counters serverID seconds millis l)).
Proof.
  split.
  - intros g nanos j sid T Hnanos Hj Hsid Hb.
    destruct (run_GenMultiIDs_one_bucket g (Mem.fresh nanos (Z.of_nat j))
                nanos j sid 5)
      as (w1 & tr1 & Hrun1 & Hstore1 & Hclock1 & Hdice1);
      rewrite ?value_at_fresh; try done.
    destruct (run_GenMultiIDs_one_bucket g w1 nanos j sid 3)
      as (w2 & tr2 & Hrun2 & _);
      rewrite ?Hstore1, ?value_at_insert, ?decide_True, ?value_at_fresh by done;
      try done.
    rewrite value_at_fresh in Hrun1.
    rewrite Hstore1, value_at_insert, decide_True, value_at_fresh in Hrun2
      by done.
    eexists _, w1, tr1, _, w2, tr2.
    split; [exact Hrun1 |]. split; [exact Hrun2 |].
    split; [reflexivity |]. split; [reflexivity |].
    assert (Forall (λ i, 0 ≤ i ≤ 255) [0; 1; 2; 3; 4]) as H1
      by (repeat constructor; lia).
    assert (Forall (λ i, 0 ≤ i ≤ 255) [5; 6; 7]) as H2
      by (repeat constructor; lia).
    split; [by apply id_counter_pack_ms |].
    split; [by apply id_counter_pack_ms |].
    split; [apply Forall_app; split; by apply in_bucket_pack_ms_all |].
    apply (NoDup_fmap_1 id_counter).
    rewrite fmap_app, !id_counter_pack_ms by done.
    by_compute.
  - intros g reqs clock dice sid seconds millis Hclock w l.
    destruct (run Mem.redis (session g reqs) w) as [[rs w'] tr] eqn:Hrun.
    pose proof (session_settled g reqs w rs w' tr [] Hrun Hclock
                  (settled_empty g)) as Hset.
    simpl in Hset.
    destruct (settled_triple g _ _ sid seconds millis Hset) as (m & Hm & Hbc).
    exists m. subst l. simpl. rewrite Hbc.
    split_and!; [lia | lia | done | apply NoDup_seqZ].
Qed.

Lemma bucket_counters_contiguous_from_zero_witness :
  (∃ l1 w1 tr1 l2 w2 tr2,
     run Mem.redis (GenMultiIDs Demo.g 5) (Mem.fresh Demo.t0 (Z.of_nat 0))
       = (Ok l1, w1, tr1) ∧
     run Mem.redis (GenMultiIDs Demo.g 3) w1 = (Ok l2, w2, tr2) ∧
     id_counter <$> l1 = [0; 1; 2; 3; 4] ∧ id_counter <$> l2 = [5; 6; 7]) ∧
  (∃ m, 0 ≤ m ≤ 256 ∧
        bucket_counters 7 1700000000 123
          (issued (run Mem.redis (session Demo.g [5; 3; 300; 0; 2])
                     {| Mem.store := ∅; Mem.ttls := ∅;
                        Mem.clock := [Demo.t0]; Mem.dice := [0] |}).1.1)
        = seqZ 0 m).
Proof.
  destruct bucket_counters_contiguous_from_zero as [Hscenario Hgeneral]. split.
  - destruct (Hscenario Demo.g Demo.t0 0%nat 7)
      as (l1 & w1 & tr1 & l2 & w2 & tr2 & H1 & H2 & _ & _ & H3 & H4 & _ & _).
    + by_compute.
    + by_compute.
    + reflexivity.
    + by_compute.
    + exists l1, w1, tr1, l2, w2, tr2.
      split; [exact H1 |]. split; [exact H2 |]. split; [exact H3 | exact H4].
  - destruct (Hgeneral Demo.g [5; 3; 300; 0; 2] [Demo.t0] [0] 7 1700000000 123)
      as (m & Hm & Hbc & _).
    + by_compute.
    + exists m. split; [exact Hm | exact Hbc].
Defined.

(** C7. [GenID(ctx)] is [GenMultiIDs(ctx, 1)] followed by taking element 0:
    the two make the same calls and leave the same state; a successful
    [GenMultiIDs(ctx, 1)] holds exactly one identifier, which [GenID]
    returns; and [GenID] returns an error exactly when [GenMultiIDs(ctx, 1)]
    does. *)
Theorem GenID_is_first_of_GenMultiIDs_1 {W} (h : env W) g s r s' tr :
  run h (GenMultiIDs g 1) s = (r, s', tr) →
  ∃ r',
    run h (GenID g) s = (r', s', tr) ∧
    (∀ l, r = Ok l → ∃ id, l = [id] ∧ r' = Ok id) ∧
    (∀ id, r' = Ok id → r = Ok [id]) ∧
    ((∃ e, r' = Err e) ↔ (∃ e, r = Err e)).
Proof.
  intros Hrun. unfold GenID. rewrite run_bind, Hrun.
  destruct r as [l|e|p].
  - apply run_exec, exec_GenMultiIDs_length in Hrun.
    destruct l as [|id [|id' l]]; simpl in Hrun; try lia.
    exists (Ok id). simpl. rewrite app_nil_r.
    split_and!; [done | | | ].
    + intros ? [= <-]. by exists id.
    + by intros ? [= <-].
    + split; intros [? ?]; done.
  - exists (Err (ErrGenID e)). simpl. rewrite app_nil_r.
    split_and!; [done | done | done |]. split; eauto.
  - exists (Panic p). simpl. rewrite app_nil_r.
    split_and!; [done | done | done |]. split; intros [? ?]; done.
Qed.

Lemma GenID_is_first_of_GenMultiIDs_1_witness :
  (run Mem.redis (GenID Demo.g) Demo.w0).1.1 = Ok 7301444403715899399.
Proof.
  opose proof (GenID_is_first_of_GenMultiIDs_1 Mem.redis Demo.g Demo.w0
                 _ _ _ _) as (r' & Hrun & Hok & _).
  - vm_compute. reflexivity.
  - destruct (Hok _ eq_refl) as (id & [= <-] & ->). by rewrite Hrun.
Defined.

(** C8, as stated, fails: the key carries the prefix ["id_generator:"]. *)
Lemma counterKey_has_prefix_counterexample :
  ¬ (∀ ns serverID ms, counterKey ns serverID ms = spec_bucket_key ns serverID ms).
Proof. intros H. specialize (H "ns" 7 1700000000123). vm_compute in H. done. Qed.

(** C8, amended.  The key the generator derives is
    ["id_generator:<namespace>:<serverId>:<epochMillis>"], the three fields of
    the specification behind the fixed prefix ["id_generator:"]; and every key
    a call sends to the store ([INCRBY] or [EXPIRE]) is that string for the
    generator's namespace, one server id of the pool and some millisecond. *)
Theorem counterKey_format {W} (h : env W) g counts s :
  (∀ ns serverID ms,
     counterKey ns serverID ms =
       "id_generator:" +:+ spec_bucket_key ns serverID ms) ∧
  (store_keys (run h (GenMultiIDs g counts) s).2 = [] ∨
   ∃ serverID,
     serverID ∈ serverIDs g ∧
     Forall (λ key, ∃ ms, key = "id_generator:" +:+
                                spec_bucket_key (namespace g) serverID ms)
            (store_keys (run h (GenMultiIDs g counts) s).2)).
Proof.
  split; [done |].
  destruct (run h (GenMultiIDs g counts) s) as [[r s'] tr] eqn:Hrun. simpl.
  apply run_exec, exec_GenMultiIDs in Hrun
    as [(_ & -> & _)|(_ & tr1 & tr2 & pr & -> & Hpick & Hrest)]; [by left |].
  pose proof (incr_events_pick _ _ _ Hpick) as [_ Hkeys].
  rewrite store_keys_app, Hkeys. simpl.
  destruct pr as [sid|e|p]; [|destruct Hrest as [-> _]; by left..].
  destruct Hrest as (f & Hloop & _). right. exists sid.
  split; [by eapply exec_pickServerID |].
  by apply loop_run_store_keys in Hloop.
Qed.

(** C9, as stated, fails for negative counts: [make([]int64, 0, counts)]
    panics before anything else happens, so no error value is returned.  And
    for [counts = 0] the server id is picked first: with two server ids in
    the pool [rand.Int] has to read the random source, and when that fails
    the call returns the error of the pick, not the empty sequence. *)
Lemma GenMultiIDs_nonpositive_counts_counterexample :
  (run Mem.redis (GenMultiIDs Demo.g (-1)) Demo.w0).1.1 =
    Panic (PanicMakeSlice (-1)) ∧
  (∀ ns expect gotten last,
     (run Mem.redis (GenMultiIDs Demo.g (-1)) Demo.w0).1.1 ≠
       Err (ErrNotEnough ns expect gotten last)) ∧
  run Demo.no_entropy (GenMultiIDs Demo.g2 0) Demo.w0 =
    (Err (ErrPickServerID (ErrExternal "entropy source unavailable")),
     Demo.w0, [EvRand 2 (Fail "entropy source unavailable")]).
Proof.
  split_and!; [reflexivity | intros; vm_compute; discriminate | reflexivity].
Qed.

(** C9, amended.  For [counts ≤ 0] no call reaches the counter store.  For
    [counts = 0] the server id is still picked, and the call returns the empty
    sequence and no error when the pick succeeds (its error or panic
    otherwise).  For [counts < 0] the allocation of the result slice panics:
    nothing is called and no error value comes back. *)
Theorem GenMultiIDs_nonpositive_counts {W} (h : env W) g counts s :
  counts ≤ 0 →
  store_keys (run h (GenMultiIDs g counts) s).2 = [] ∧
  (counts = 0 →
   ∀ pr s1 tr1,
     run h (pickServerID g) s = (pr, s1, tr1) →
     run h (GenMultiIDs g counts) s =
       (match pr with
        | Ok _ => Ok []
        | Err e => Err (ErrPickServerID e)
        | Panic p => Panic p
        end, s1, tr1)) ∧
  (counts < 0 →
   run h (GenMultiIDs g counts) s = (Panic (PanicMakeSlice counts), s, [])).
Proof.
  intros Hle. split_and!.
  - destruct (run h (GenMultiIDs g counts) s) as [[r s'] tr] eqn:Hrun. simpl.
    apply run_exec, exec_GenMultiIDs in Hrun
      as [(_ & -> & _)|(_ & tr1 & tr2 & pr & -> & Hpick & Hrest)]; [done |].
    pose proof (incr_events_pick _ _ _ Hpick) as [_ Hkeys].
    rewrite store_keys_app, Hkeys. simpl.
    destruct pr as [sid|e|p]; [|by destruct Hrest as [-> _]..].
    destruct Hrest as (f & Hloop & _).
    inversion Hloop as [| |]; simpl in *; [done | lia | lia].
  - intros -> pr s1 tr1 Hpick. unfold GenMultiIDs.
    rewrite decide_True by (unfold makeslice_ok, maxAlloc; lia).
    rewrite run_bind, Hpick.
    destruct pr as [sid|e|p]; simpl; by rewrite app_nil_r.
  - intros Hneg. unfold GenMultiIDs.
    rewrite decide_False by (unfold makeslice_ok; lia). done.
Qed.

Lemma GenMultiIDs_nonpositive_counts_witness :
  run Mem.redis (GenMultiIDs Demo.g 0) Demo.w0 =
    (Ok [], Demo.w0, [EvRand 1 (Val 0)]) ∧
  run Mem.redis (GenMultiIDs Demo.g (-3)) Demo.w0 =
    (Panic (PanicMakeSlice (-3)), Demo.w0, []).
Proof.
  split.
  - opose proof (GenMultiIDs_nonpositive_counts Mem.redis Demo.g 0 Demo.w0 _)
      as (_ & H0 & _); [lia |].
    by rewrite (H0 eq_refl (Ok 7) Demo.w0 [EvRand 1 (Val 0)] eq_refl).
  - opose proof (GenMultiIDs_nonpositive_counts Mem.redis Demo.g (-3) Demo.w0 _)
      as (_ & _ & Hneg); [lia |].
    apply Hneg. lia.
Defined.

(** C10. The seconds test lets every value up to [2^32 - 1] through; from
    [seconds = 2^31] on, the packed identifier has bit 63 set and is negative
    as an [int64]; [GenMultiIDs] does return such identifiers; and an
    identifier made before that boundary compares greater than one made
    after it. *)
Theorem identifiers_turn_negative :
  (∀ g serverID st ms counter e,
     0 ≤ Z.quot ms 1000 ≤ 2 ^ 32 - 1 →
     settle g serverID st ms counter ≠ Return (Err (ErrSecondsOverflow e))) ∧
  (∀ ms i serverID,
     2 ^ 31 ≤ Z.quot ms 1000 ≤ 2 ^ 32 - 1 →
     0 ≤ i ≤ 255 → 0 ≤ serverID < 2 ^ 14 →
     let id := pack (Int64.quot ms 1000) (Int64.rem ms 1000) i serverID in
     Z.testbit id 63 = true ∧ id < 0) ∧
  (∃ id, (run Mem.redis (GenMultiIDs Demo.g 1)
            (Mem.fresh (2 ^ 31 * 1000 * Millisecond) 0)).1.1 = Ok [id] ∧
         id < 0) ∧
  (∀ ms1 i1 sid1 ms2 i2 sid2,
     0 ≤ ms1 → Z.quot ms1 1000 < 2 ^ 31 →
     2 ^ 31 ≤ Z.quot ms2 1000 ≤ 2 ^ 32 - 1 →
     0 ≤ i1 ≤ 255 → 0 ≤ sid1 < 2 ^ 14 →
     0 ≤ i2 ≤ 255 → 0 ≤ sid2 < 2 ^ 14 →
     ms1 < ms2 ∧
     pack (Int64.quot ms2 1000) (Int64.rem ms2 1000) i2 sid2 <
       pack (Int64.quot ms1 1000) (Int64.rem ms1 1000) i1 sid1).
Proof.
  assert (∀ ms i sid, 0 ≤ ms → Z.quot ms 1000 ≤ 2 ^ 32 - 1 →
            0 ≤ i ≤ 255 → 0 ≤ sid < 2 ^ 14 →
            fields_fit (Z.quot ms 1000) (Z.rem ms 1000) i sid) as Hfit.
  { intros. unfold fields_fit. Z.quot_rem_to_equations. lia. }
  split_and!.
  - apply settle_accepts_32_bits.
  - intros ms i sid Hsec Hi Hsid. unfold Int64.quot, Int64.rem.
    assert (0 ≤ ms) as Hms by (Z.quot_rem_to_equations; lia).
    pose proof (pack_sign _ _ _ _ (Hfit ms i sid Hms ltac:(lia) Hi Hsid))
      as [_ Hneg].
    destruct (Hneg ltac:(lia)) as [? ?]. split; assumption.
  - eexists. split; [vm_compute; reflexivity | done].
  - intros ms1 i1 sid1 ms2 i2 sid2 Hms1 Hs1 Hs2 Hi1 Hsid1 Hi2 Hsid2.
    unfold Int64.quot, Int64.rem.
    assert (0 ≤ ms2) by (Z.quot_rem_to_equations; lia).
    split; [Z.quot_rem_to_equations; lia |].
    pose proof (pack_sign _ _ _ _ (Hfit ms1 i1 sid1 Hms1 ltac:(lia) Hi1 Hsid1))
      as [Hpos _].
    pose proof (pack_sign _ _ _ _ (Hfit ms2 i2 sid2 ltac:(done) ltac:(lia) Hi2 Hsid2))
      as [_ Hneg].
    specialize (Hpos Hs1). destruct (Hneg ltac:(lia)) as [Hneg' _]. lia.
Qed.

Lemma identifiers_turn_negative_witness :
  pack (Int64.quot 2147483648000 1000) (Int64.rem 2147483648000 1000) 0 7 < 0 ∧
  pack (Int64.quot 2147483648000 1000) (Int64.rem 2147483648000 1000) 0 7 <
    pack (Int64.quot 2147483647999 1000) (Int64.rem 2147483647999 1000) 255 7.
Proof.
  destruct identifiers_turn_negative as (_ & Hneg & _ & Hord). split.
  - apply (Hneg 2147483648000 0 7); [vm_compute; split; discriminate | lia | lia].
  - apply (Hord 2147483647999 255 7 2147483648000 0 7);
      first [lia | vm_compute; split; discriminate | vm_compute; reflexivity].
Defined.

(** * Further properties of the generator *)

(** ** How much one call can hand out *)

Lemma length_emit_le seconds millis serverID start end_ :
  0 ≤ start → end_ ≤ 256 →
  Z.of_nat (length (emit seconds millis serverID start end_)) ≤ 256.
Proof. intros. rewrite length_emit. lia. Qed.

(** Each iteration adds at most 256 identifiers. *)
Lemma loop_run_capacity g serverID n st tr st' :
  loop_run g serverID n st tr (Next st') →
  0 ≤ leftNum st → Int64.in_range (leftNum st) →
  Z.of_nat (length (ids st')) ≤
    Z.of_nat (length (ids st)) + 256 * Z.of_nat (incr_calls tr).
Proof.
  intros Hrun. remember (Next st') as f eqn:Hf.
  induction Hrun as [n st Hstop|
                     |n st n1 n2 r st1 tr f Hpos Hn1 Hn2 Hr Hflow Hrun IH];
    intros Hleft Hrange.
  - injection Hf as <-. unfold incr_calls. simpl. lia.
  - done.
  - unfold incr_calls in *. rewrite incr_events_app, incr_events_attempt, length_app.
    simpl length.
    apply attempt_flow_Next in Hflow as (c & -> & Hsettle).
    apply settle_Next in Hsettle as [_ Hcases]; [|lia|done|done].
    destruct Hcases as [(_ & Hl & Hi)|(Hstart & _ & _ & Hl & Hi)].
    + rewrite Hl, Hi in IH. specialize (IH Hf ltac:(lia) Hrange). lia.
    + rewrite maxCounter_eq in Hstart.
      specialize (IH Hf). rewrite Hl, Hi, length_app in IH.
      pose proof (length_emit_le (Z.quot (attempt_ms st n1 n2) 1000)
                    (Z.rem (attempt_ms st n1 n2) 1000) serverID
                    (c - leftNum st) (Z.min c 256) ltac:(lia) ltac:(lia)).
      specialize (IH ltac:(lia) ltac:(simpl in Hr; int64_lia)). lia.
Qed.

(** X1. A call hands out at most 256 identifiers per bucket it asks, and it
    asks at most 8: a successful [GenMultiIDs(ctx, counts)] has
    [counts ≤ 256 * (number of INCRBY calls) ≤ 2048], so no request for more
    than 2048 identifiers ever succeeds, whatever the store and the clock
    do. *)
Theorem GenMultiIDs_capacity {W} (h : env W) g counts s r s' tr :
  run h (GenMultiIDs g counts) s = (r, s', tr) →
  (∀ l, r = Ok l →
        counts ≤ 256 * Z.of_nat (incr_calls tr) ∧ counts ≤ 2048) ∧
  (2048 < counts → ∀ l, r ≠ Ok l).
Proof.
  intros Hrun%run_exec.
  assert (∀ l, r = Ok l →
            counts ≤ 256 * Z.of_nat (incr_calls tr) ∧ counts ≤ 2048) as Hcap.
  { intros l ->.
    pose proof (exec_GenMultiIDs_length _ _ _ _ Hrun) as Hlen.
    pose proof (exec_GenMultiIDs_incr_calls _ _ _ _ Hrun) as Hcalls.
    apply exec_GenMultiIDs_Ok in Hrun
      as ([Hc0 Hc1] & tr1 & tr2 & sid & st & -> & Hpick & Hloop & <- & _ & _).
    apply loop_run_capacity in Hloop; simpl in *;
      [|lia|unfold maxAlloc in Hc1; int64_lia].
    apply incr_events_pick in Hpick as [Hpick _].
    unfold incr_calls in *. rewrite incr_events_app, Hpick in *. simpl in *.
    unfold maxTimeAddrTimes in Hcalls. lia. }
  split; [exact Hcap |].
  intros Hbig l ->. destruct (Hcap l eq_refl). lia.
Qed.

Lemma GenMultiIDs_capacity_witness :
  (∃ l, (run Mem.redis (GenMultiIDs Demo.g 2048) Demo.w0).1.1 = Ok l) ∧
  (∀ l, (run Mem.redis (GenMultiIDs Demo.g 2049) Demo.w0).1.1 ≠ Ok l).
Proof.
  split; [eexists; vm_compute; reflexivity |].
  opose proof (GenMultiIDs_capacity Mem.redis Demo.g 2049 Demo.w0 _ _ _ _)
    as [_ Hnever].
  - vm_compute. reflexivity.
  - intros l Hl. apply (Hnever ltac:(lia) l).
    etrans; [|exact Hl]. vm_compute. reflexivity.
Defined.

(** ** The calls before the loop *)

(** The trace of a call is the pick's (at most the one [rand.Int]) followed
    by the loop's; a store event of the call is an event of the loop. *)
Lemma pick_prefix_lookup g tr1 tr2 pr i e :
  exec (pickServerID g) tr1 pr →
  (tr1 ++ tr2) !! i = Some e →
  (∀ max a, e ≠ EvRand max a) →
  (length tr1 ≤ i)%nat ∧ tr2 !! (i - length tr1)%nat = Some e.
Proof.
  intros [[->|[a ->]] _]%exec_pickServerID Hi Hne.
  - simpl in *. rewrite Nat.sub_0_r. split; [lia | done].
  - destruct i as [|i]; simpl in *.
    + injection Hi as <-. by destruct (Hne _ a eq_refl).
    + rewrite Nat.sub_0_r. split; [lia | done].
Qed.

(** ** A failing store *)

Lemma attempt_store_failure g serverID st n1 n2 r i key d msg :
  attempt_trace g serverID st n1 n2 r !! i = Some (EvIncrBy key d (Fail msg)) →
  length (attempt_trace g serverID st n1 n2 r) = S i ∧
  attempt_flow g serverID st n1 n2 r = Return (Err (ErrExternal msg)).
Proof.
  unfold attempt_trace. intros Hi.
  destruct i as [|[|[|i]]]; simpl in Hi; [done | done | |].
  - by injection Hi as -> <- ->.
  - destruct r as [c'|msg']; [|by destruct i].
    case_decide; [|by destruct i]. by destruct i.
Qed.

Lemma loop_run_store_failure g serverID n st tr f i key d msg :
  loop_run g serverID n st tr f →
  tr !! i = Some (EvIncrBy key d (Fail msg)) →
  length tr = S i ∧ f = Return (Err (ErrExternal msg)).
Proof.
  intros Hrun. revert i.
  induction Hrun as [n st Hstop
                    |n st n1 n2 r res Hpos Hn1 Hn2 Hr Hflow
                    |n st n1 n2 r st1 tr f Hpos Hn1 Hn2 Hr Hflow Hrun IH];
    intros i Hi.
  - done.
  - destruct (attempt_store_failure _ _ _ _ _ _ _ _ _ _ Hi) as [? Hres].
    split; [done | congruence].
  - apply lookup_app_Some in Hi as [Hi|[Hlen Hi]].
    + destruct (attempt_store_failure _ _ _ _ _ _ _ _ _ _ Hi) as [_ Hres].
      congruence.
    + destruct (IH _ Hi) as [Hlen' Hres]. split; [|done].
      rewrite length_app. lia.
Qed.

(** ** The expiry of a bucket *)

Lemma attempt_expire g serverID st n1 n2 r i key ttl :
  Int64.in_range (leftNum st) → reply_int64 r →
  attempt_trace g serverID st n1 n2 r !! i = Some (EvExpire key ttl) →
  ttl = counterKeyExpiration ∧
  ∃ j, i = S j ∧
       attempt_trace g serverID st n1 n2 r !! j =
         Some (EvIncrBy key (leftNum st) (Val (leftNum st))).
Proof.
  unfold attempt_trace. intros Hd Hr Hi.
  destruct i as [|[|[|i]]]; simpl in Hi; [done | done | done |].
  destruct r as [c|msg]; [|by destruct i].
  case_decide as Hstart; [|by destruct i].
  destruct i as [|i]; [|by destruct i]. injection Hi as <- <-.
  split; [done |]. exists 2%nat. split; [done |]. simpl in *.
  do 3 f_equal. int64_lia.
Qed.

Lemma attempt_created g serverID st n1 n2 r j key d :
  attempt_trace g serverID st n1 n2 r !! j = Some (EvIncrBy key d (Val d)) →
  attempt_trace g serverID st n1 n2 r !! S j =
    Some (EvExpire key counterKeyExpiration).
Proof.
  unfold attempt_trace. intros Hj.
  destruct j as [|[|[|j]]]; simpl in Hj; [done | done | |].
  - injection Hj as <- <- ->. simpl.
    rewrite decide_True; [done |]. unfold Int64.sub.
    by rewrite Z.sub_diag.
  - destruct r as [c|msg]; [|by destruct j].
    case_decide; [|by destruct j]. by destruct j.
Qed.

Lemma loop_run_expire g serverID n st tr f :
  loop_run g serverID n st tr f →
  Int64.in_range (leftNum st) →
  (∀ i key ttl, tr !! i = Some (EvExpire key ttl) →
     ttl = counterKeyExpiration ∧
     ∃ j d, i = S j ∧ tr !! j = Some (EvIncrBy key d (Val d))) ∧
  (∀ j key d, tr !! j = Some (EvIncrBy key d (Val d)) →
     tr !! S j = Some (EvExpire key counterKeyExpiration)).
Proof.
  induction 1 as [n st Hstop
                 |n st n1 n2 r res Hpos Hn1 Hn2 Hr Hflow
                 |n st n1 n2 r st1 tr f Hpos Hn1 Hn2 Hr Hflow Hrun IH];
    intros Hrange.
  - done.
  - split.
    + intros i key ttl Hi.
      destruct (attempt_expire _ _ _ _ _ _ _ _ _ Hrange Hr Hi)
        as (? & j & ? & ?). eauto.
    + intros j key d. apply attempt_created.
  - destruct IH as [IH1 IH2].
    { apply attempt_flow_Next in Hflow as (c & -> & Hsettle).
      apply settle_Next in Hsettle as [_ Hcases]; [|lia|done|done].
      destruct Hcases as [(_ & -> & _)|(_ & _ & _ & -> & _)]; [done |].
      simpl in Hr. int64_lia. }
    split.
    + intros i key ttl [Hi|[Hlen Hi]]%lookup_app_Some.
      * destruct (attempt_expire _ _ _ _ _ _ _ _ _ Hrange Hr Hi)
          as (? & j & -> & Hj).
        split; [done |]. exists j, (leftNum st). split; [done |].
        by apply lookup_app_l_Some.
      * destruct (IH1 _ _ _ Hi) as (? & j & d & Hij & Hj).
        split; [done |].
        exists (length (attempt_trace g serverID st n1 n2 r) + j)%nat, d.
        split; [lia |]. apply lookup_app_Some. right. split; [lia |].
        by rewrite Nat.add_comm, Nat.add_sub.
    + intros j key d [Hj|[Hlen Hj]]%lookup_app_Some.
      * apply lookup_app_l_Some. by eapply attempt_created.
      * apply IH2 in Hj. apply lookup_app_Some. right. split; [lia |].
        by replace (S j - length (attempt_trace g serverID st n1 n2 r))%nat
          with (S (j - length (attempt_trace g serverID st n1 n2 r))) by lia.
Qed.

(** ** What each [INCRBY] asks for *)

Lemma loop_run_head g serverID n st tr f key d r :
  loop_run g serverID n st tr f →
  head (incr_events tr) = Some (key, d, r) →
  d = leftNum st ∧ leftNum st > 0.
Proof.
  destruct 1; [done | |].
  - rewrite incr_events_attempt. by intros [= _ <- _].
  - rewrite incr_events_app, incr_events_attempt. by intros [= _ <- _].
Qed.

Lemma loop_run_carry g serverID n st tr f :
  loop_run g serverID n st tr f →
  Int64.in_range (leftNum st) →
  ∀ i e1 e2,
    incr_events tr !! i = Some e1 → incr_events tr !! S i = Some e2 →
    carry e1 e2.
Proof.
  induction 1 as [n st Hstop
                 |n st n1 n2 r res Hpos Hn1 Hn2 Hr Hflow
                 |n st n1 n2 r st1 tr f Hpos Hn1 Hn2 Hr Hflow Hrun IH];
    intros Hrange i e1 e2.
  - done.
  - rewrite incr_events_attempt. by destruct i.
  - rewrite incr_events_app, incr_events_attempt.
    apply attempt_flow_Next in Hflow as (c & -> & Hsettle).
    apply settle_Next in Hsettle as [_ Hcases]; [|lia|done|done].
    destruct i as [|i]; simpl.
    + intros [= <-] Hhd. destruct e2 as [[k2 d2] r2].
      assert (head (incr_events tr) = Some (k2, d2, r2)) as Hhead
        by (by destruct (incr_events tr)).
      destruct (loop_run_head _ _ _ _ _ _ _ _ _ Hrun Hhead) as [-> Hpos1].
      unfold carry.
      destruct Hcases as [(Hfull & Hl & _)|(Hstart & _ & _ & Hl & _)].
      * by rewrite decide_True.
      * rewrite decide_False by (simpl in Hr; int64_lia). lia.
    + apply IH.
      destruct Hcases as [(_ & -> & _)|(_ & _ & _ & -> & _)]; [done |].
      simpl in Hr. int64_lia.
Qed.

(** ** From the loop to the call *)

(** A call whose trace holds an event other than the random draw reached
    the loop, and the event is the loop's. *)
Lemma exec_GenMultiIDs_reached g counts tr r i e :
  exec (GenMultiIDs g counts) tr r →
  tr !! i = Some e → (∀ max a, e ≠ EvRand max a) →
  makeslice_ok counts ∧
  ∃ tr1 tr2 serverID f,
    tr = tr1 ++ tr2 ∧ exec (pickServerID g) tr1 (Ok serverID) ∧
    loop_run g serverID maxTimeAddrTimes (init_state counts) tr2 f ∧
    r = flow_result g counts f ∧
    (length tr1 ≤ i)%nat ∧ tr2 !! (i - length tr1)%nat = Some e.
Proof.
  intros [(_ & -> & _)|(Hmk & tr1 & tr2 & pr & -> & Hpick & Hrest)]%exec_GenMultiIDs
    Hi Hne; [done |].
  split; [done |].
  destruct (pick_prefix_lookup _ _ _ _ _ _ Hpick Hi Hne) as [Hlen Hi2].
  destruct pr as [sid|e'|p].
  - destruct Hrest as (f & Hloop & ->). by exists tr1, tr2, sid, f.
  - destruct Hrest as [-> _]. by destruct (i - length tr1)%nat.
  - destruct Hrest as [-> _]. by destruct (i - length tr1)%nat.
Qed.

Lemma init_state_in_range counts :
  makeslice_ok counts → Int64.in_range (leftNum (init_state counts)).
Proof. intros [? ?]. simpl. unfold maxAlloc in *. int64_lia. Qed.

(** X2. A store that fails an [INCRBY] ends the call then and there: the
    failed call is the last event of the trace (no [EXPIRE], no further
    attempt), and the call returns the store's error as it came: no
    identifiers, and not the error of an exhausted loop. *)
Theorem GenMultiIDs_store_failure_is_fatal {W} (h : env W) g counts s r s' tr
    i key d msg :
  run h (GenMultiIDs g counts) s = (r, s', tr) →
  tr !! i = Some (EvIncrBy key d (Fail msg)) →
  length tr = S i ∧ r = Err (ErrExternal msg).
Proof.
  intros Hrun%run_exec Hi.
  destruct (exec_GenMultiIDs_reached _ _ _ _ _ _ Hrun Hi ltac:(done))
    as (_ & tr1 & tr2 & sid & f & -> & _ & Hloop & -> & Hlen & Hi2).
  destruct (loop_run_store_failure _ _ _ _ _ _ _ _ _ _ Hloop Hi2) as [Hl ->].
  split; [rewrite length_app; lia | done].
Qed.

Lemma GenMultiIDs_store_failure_is_fatal_witness :
  (run store_down (GenMultiIDs Demo.g 5) Demo.w0).1.1 =
    Err (ErrExternal "connection refused") ∧
  length (run store_down (GenMultiIDs Demo.g 5) Demo.w0).2 = 4%nat.
Proof.
  opose proof (GenMultiIDs_store_failure_is_fatal store_down Demo.g 5 Demo.w0
                 _ _ _ 3%nat "id_generator:ns:7:1700000000123" 5
                 "connection refused" _ _) as [Hlen Hres].
  - vm_compute. reflexivity.
  - vm_compute. reflexivity.
  - split.
    + etrans; [|exact Hres]. vm_compute. reflexivity.
    + etrans; [|exact Hlen]. vm_compute. reflexivity.
Defined.

(** X3. [EXPIRE] is sent exactly for the buckets the call created.  Every
    [EXPIRE] of a call carries the ten minutes of [counterKeyExpiration] and
    comes right after an [INCRBY] of the same key whose answer equals its
    delta (the bucket stood at 0); and every such [INCRBY] is followed at
    once by the [EXPIRE] of its key.  A bucket found already in use is never
    given a new time-to-live. *)
Theorem GenMultiIDs_expire_on_creation {W} (h : env W) g counts s r s' tr :
  run h (GenMultiIDs g counts) s = (r, s', tr) →
  (∀ i key ttl, tr !! i = Some (EvExpire key ttl) →
     ttl = counterKeyExpiration ∧
     ∃ j d, i = S j ∧ tr !! j = Some (EvIncrBy key d (Val d))) ∧
  (∀ j key d, tr !! j = Some (EvIncrBy key d (Val d)) →
     tr !! S j = Some (EvExpire key counterKeyExpiration)).
Proof.
  intros Hrun%run_exec. split.
  - intros i key ttl Hi.
    destruct (exec_GenMultiIDs_reached _ _ _ _ _ _ Hrun Hi ltac:(done))
      as (Hmk & tr1 & tr2 & sid & f & -> & _ & Hloop & _ & Hlen & Hi2).
    apply loop_run_expire in Hloop as [Hexp _];
      [|by apply init_state_in_range].
    destruct (Hexp _ _ _ Hi2) as (? & j & d & Hij & Hj).
    split; [done |]. exists (length tr1 + j)%nat, d. split; [lia |].
    apply lookup_app_Some. right. split; [lia |].
    by rewrite Nat.add_comm, Nat.add_sub.
  - intros j key d Hj.
    destruct (exec_GenMultiIDs_reached _ _ _ _ _ _ Hrun Hj ltac:(done))
      as (Hmk & tr1 & tr2 & sid & f & -> & _ & Hloop & _ & Hlen & Hj2).
    apply loop_run_expire in Hloop as [_ Hcre];
      [|by apply init_state_in_range].
    apply Hcre in Hj2. apply lookup_app_Some. right. split; [lia |].
    by replace (S j - length tr1)%nat with (S (j - length tr1)) by lia.
Qed.

Lemma GenMultiIDs_expire_on_creation_witness :
  let w := {| Mem.store := {[ "id_generator:ns:7:1700000000123" := 250 ]};
              Mem.ttls := ∅; Mem.clock := [Demo.t0]; Mem.dice := [0] |} in
  let tr := (run Mem.redis (GenMultiIDs Demo.g 10) w).2 in
  tr !! 3%nat = Some (EvIncrBy "id_generator:ns:7:1700000000123" 10 (Val 260)) ∧
  tr !! 4%nat = Some (EvNow Demo.t0) ∧
  tr !! 6%nat = Some (EvIncrBy "id_generator:ns:7:1700000000124" 4 (Val 4)) ∧
  tr !! 7%nat = Some (EvExpire "id_generator:ns:7:1700000000124" 600000000000).
Proof.
  intros w tr.
  opose proof (GenMultiIDs_expire_on_creation Mem.redis Demo.g 10 w _ _ _ _)
    as [_ Hcre].
  - vm_compute. reflexivity.
  - split_and!; [vm_compute; reflexivity.. |].
    etrans; [|apply (Hcre 6%nat "id_generator:ns:7:1700000000124" 4)];
      vm_compute; reflexivity.
Defined.

Lemma loop_run_deltas g serverID n st tr f :
  loop_run g serverID n st tr f →
  Int64.in_range (leftNum st) →
  Forall (λ e, 1 ≤ e.1.2 ≤ leftNum st) (incr_events tr).
Proof.
  induction 1 as [n st Hstop
                 |n st n1 n2 r res Hpos Hn1 Hn2 Hr Hflow
                 |n st n1 n2 r st1 tr f Hpos Hn1 Hn2 Hr Hflow Hrun IH];
    intros Hrange.
  - constructor.
  - rewrite incr_events_attempt. repeat constructor; simpl; lia.
  - rewrite incr_events_app, incr_events_attempt.
    constructor; [simpl; lia |]. simpl.
    apply attempt_flow_Next in Hflow as (c & -> & Hsettle).
    apply settle_Next in Hsettle as [_ Hcases]; [|lia|done|done].
    destruct Hcases as [(_ & Hl & _)|(Hstart & _ & _ & Hl & _)].
    + rewrite Hl in IH. by apply IH.
    + rewrite maxCounter_eq in Hstart.
      eapply Forall_impl; [apply IH; rewrite Hl; simpl in Hr; int64_lia |].
      intros e. simpl. lia.
Qed.

(** X4. What a call asks of the store.  The first [INCRBY] asks for
    [counts]; each later one asks for what the previous one left unserved:
    the same delta again after a bucket found full, and the part of the total
    above 256 otherwise; and no [INCRBY] asks for less than 1 or for more than
    [counts]. *)
Theorem GenMultiIDs_deltas {W} (h : env W) g counts s r s' tr :
  run h (GenMultiIDs g counts) s = (r, s', tr) →
  (∀ key d a, head (incr_events tr) = Some (key, d, a) → d = counts) ∧
  (∀ i e1 e2,
     incr_events tr !! i = Some e1 → incr_events tr !! S i = Some e2 →
     carry e1 e2) ∧
  Forall (λ e, 1 ≤ e.1.2 ≤ counts) (incr_events tr).
Proof.
  intros Hrun%run_exec.
  apply exec_GenMultiIDs in Hrun
    as [(_ & -> & _)|(Hmk & tr1 & tr2 & pr & -> & Hpick & Hrest)].
  { split_and!; [done | by intros [] | constructor]. }
  apply incr_events_pick in Hpick as [Hpick _].
  rewrite incr_events_app, Hpick. simpl.
  destruct pr as [sid|e|p];
    [|destruct Hrest as [-> _]; split_and!; [done | by intros [] | constructor]..].
  destruct Hrest as (f & Hloop & _).
  pose proof (init_state_in_range _ Hmk) as Hrange.
  split_and!.
  - intros key d a Hhd.
    by destruct (loop_run_head _ _ _ _ _ _ _ _ _ Hloop Hhd) as [-> _].
  - by eapply loop_run_carry.
  - by apply (loop_run_deltas _ _ _ _ _ _ Hloop).
Qed.

Lemma GenMultiIDs_deltas_witness :
  let evs := incr_events (run Mem.redis (GenMultiIDs Demo.g 600) Demo.w0).2 in
  ∃ e1 e2 e3,
    evs = [e1; e2; e3] ∧ e1.1.2 = 600 ∧ e2.1.2 = 344 ∧ e3.1.2 = 88 ∧
    carry e1 e2 ∧ carry e2 e3.
Proof.
  intros evs.
  opose proof (GenMultiIDs_deltas Mem.redis Demo.g 600 Demo.w0 _ _ _ _)
    as (_ & Hcarry & _).
  - vm_compute. reflexivity.
  - eexists _, _, _. split_and!; [vm_compute; reflexivity.. | |].
    + apply (Hcarry 0%nat); vm_compute; reflexivity.
    + apply (Hcarry 1%nat); vm_compute; reflexivity.
Defined.

(** ** Picking the server id *)

Lemma exec_pickServerID_result g tr r :
  exec (pickServerID g) tr r →
  (serverIDs g = [] ∧ tr = [] ∧ r = Panic (PanicRandInt 0)) ∨
  (serverIDs g ≠ [] ∧
   ∃ a, reply_int64 a ∧
        tr = [EvRand (Z.of_nat (length (serverIDs g))) a] ∧
        r = pick_result g a).
Proof.
  unfold pickServerID, pick_result. case_decide as Hlen.
  - inversion 1; subst. left.
    destruct (serverIDs g) as [|sid pool] eqn:Hpool; simpl in *; [done | lia].
  - inversion 1 as [| |? ? a tr0 ? Ha Hk| |]; subst. right.
    split; [by intros Hnil; rewrite Hnil in Hlen |].
    exists a. split; [done |].
    destruct a as [i|msg]; [|by inversion Hk].
    case_decide; [|by inversion Hk].
    destruct (serverIDs g !! Z.to_nat i); by inversion Hk.
Qed.

Lemma attempt_trace_no_rand g serverID st n1 n2 r :
  Forall (λ e, ∀ max b, e ≠ EvRand max b) (attempt_trace g serverID st n1 n2 r).
Proof.
  unfold attempt_trace. apply Forall_app. split; [by repeat constructor |].
  destruct r; [case_decide|]; by repeat constructor.
Qed.

Lemma loop_run_no_rand g serverID n st tr f :
  loop_run g serverID n st tr f →
  Forall (λ e, ∀ max b, e ≠ EvRand max b) tr.
Proof.
  induction 1; [constructor | apply attempt_trace_no_rand |].
  apply Forall_app. split; [apply attempt_trace_no_rand | done].
Qed.

(** The low 14 bits of an identifier are the server id, whatever the other
    fields hold. *)
Lemma id_serverID_pack seconds millis i serverID :
  0 ≤ serverID < 2 ^ 14 →
  id_serverID (pack seconds millis i serverID) = serverID.
Proof.
  intros Hsid.
  destruct (Int64Facts.wrap_shift (layout seconds millis i serverID)) as [k Hk].
  rewrite pack_wrap, Hk. unfold id_serverID, layout.
  change 0x3FFF with (Z.ones 14). rewrite Z.land_ones by lia.
  Z.div_mod_to_equations. lia.
Qed.

Lemma loop_run_serverID g serverID n st tr st' :
  loop_run g serverID n st tr (Next st') →
  0 ≤ leftNum st → Int64.in_range (leftNum st) →
  (ids st' = ids st ∨ 0 ≤ serverID < 2 ^ 14) ∧
  (Forall (λ id, id_serverID id = serverID) (ids st) →
   Forall (λ id, id_serverID id = serverID) (ids st')).
Proof.
  intros Hrun. remember (Next st') as f eqn:Hf.
  induction Hrun as [n st Hstop|
                     |n st n1 n2 r st1 tr f Hpos Hn1 Hn2 Hr Hflow Hrun IH];
    intros Hleft Hrange.
  - injection Hf as <-. by split; [left |].
  - done.
  - apply attempt_flow_Next in Hflow as (c & -> & Hsettle).
    apply settle_Next in Hsettle as [_ Hcases]; [|lia|done|done].
    destruct Hcases as [(_ & Hl & Hi)|(Hstart & _ & Hsid & Hl & Hi)].
    + rewrite Hl, Hi in IH. by apply IH.
    + destruct IH as [_ IH]; [done | rewrite Hl; lia |
                              rewrite Hl; simpl in Hr; int64_lia |].
      split; [by right |]. intros Hold. apply IH. rewrite Hi.
      apply Forall_app. split; [done |].
      apply Forall_forall. intros id (i & _ & ->)%elem_of_emit.
      by apply id_serverID_pack.
Qed.

(** X5. The server id is drawn once, before anything else, with the size of
    the pool as the bound, and holds for the whole batch: the trace starts
    with the one [rand.Int] and has no other; a failed draw ends the call
    with its error wrapped, an index outside the pool with an index panic,
    in both cases before any clock or store call; otherwise every key sent
    to the store and the low 14 bits of every identifier returned carry the
    pool entry at the drawn index. *)
Theorem GenMultiIDs_picks_once {W} (h : env W) g counts s r s' tr :
  makeslice_ok counts → serverIDs g ≠ [] →
  run h (GenMultiIDs g counts) s = (r, s', tr) →
  ∃ a tr',
    tr = EvRand (Z.of_nat (length (serverIDs g))) a :: tr' ∧
    Forall (λ e, ∀ max b, e ≠ EvRand max b) tr' ∧
    match pick_result g a with
    | Ok serverID =>
        Forall (λ key, ∃ ms, key = counterKey (namespace g) serverID ms)
               (store_keys tr') ∧
        ∀ l, r = Ok l → Forall (λ id, id_serverID id = serverID) l
    | Err e => tr' = [] ∧ r = Err (ErrPickServerID e)
    | Panic p => tr' = [] ∧ r = Panic p
    end.
Proof.
  intros Hmk Hpool Hrun%run_exec.
  apply exec_GenMultiIDs in Hrun
    as [(? & _)|(_ & tr1 & tr2 & pr & -> & Hpick & Hrest)]; [done |].
  apply exec_pickServerID_result in Hpick
    as [(? & _)|(_ & a & Ha & -> & ->)]; [done |].
  exists a, tr2. split; [done |].
  destruct (pick_result g a) as [sid|e|p].
  - destruct Hrest as (f & Hloop & ->).
    split; [by eapply loop_run_no_rand |].
    split; [by eapply loop_run_store_keys |].
    intros l Hres. destruct f as [st|res]; simpl in Hres.
    + unfold finish in Hres. case_decide; [done |]. injection Hres as <-.
      apply loop_run_serverID in Hloop as [_ Hall];
        [by apply Hall | by destruct Hmk | by apply init_state_in_range].
    + apply loop_run_Return in Hloop as [e ->]. done.
  - by destruct Hrest as [-> ->].
  - by destruct Hrest as [-> ->].
Qed.

Lemma GenMultiIDs_picks_once_witness :
  let g := {| serverIDs := [7; 8; 9]; namespace := "ns" |} in
  ∃ l, (run Mem.redis (GenMultiIDs g 3) (Mem.fresh Demo.t0 2)).1.1 = Ok l ∧
       Forall (λ id, id_serverID id = 9) l.
Proof.
  intros g.
  opose proof (GenMultiIDs_picks_once Mem.redis g 3 (Mem.fresh Demo.t0 2)
                 _ _ _ _ _ _) as (a & tr' & Htr & _ & Hpick).
  - unfold makeslice_ok, maxAlloc. lia.
  - discriminate.
  - vm_compute. reflexivity.
  - injection Htr as <- <-. eexists. split; [vm_compute; reflexivity |].
    apply (proj2 Hpick). reflexivity.
Defined.

(** ** A generator whose client is nil *)

Lemma run_nil_bind {S A B} (h : env S) (p : prog A) (f : A → prog B) s :
  run_nil h (p ≫= f) s =
    let '(a, s1, tr1) := run_nil h p s in
    match a with
    | Some a => let '(b, s2, tr2) := run_nil h (f a) s1 in (b, s2, tr1 ++ tr2)
    | None => (None, s1, tr1)
    end.
Proof.
  unfold mbind, prog_bind.
  revert s. induction p as [a0|k IH|max k IH|key num k IH|key ttl k IH];
    intros s; simpl.
  - by destruct (run_nil h (f a0) s) as [[b s2] tr2].
  - destruct (env_now h s) as [t s1]. rewrite IH.
    destruct (run_nil h (k (Int64.wrap t)) s1) as [[[a1|] s2] tr1]; [|done].
    by destruct (run_nil h (f a1) s2) as [[b s3] tr2].
  - destruct (env_rand h max s) as [r s1]. rewrite IH.
    destruct (run_nil h (k (as_int64 r)) s1) as [[[a1|] s2] tr1]; [|done].
    by destruct (run_nil h (f a1) s2) as [[b s3] tr2].
  - done.
  - done.
Qed.

(** The pick does not go through the client. *)
Lemma run_nil_pickServerID {S} (h : env S) g s :
  run_nil h (pickServerID g) s =
    let '(r, s1, tr) := run h (pickServerID g) s in (Some r, s1, tr).
Proof.
  unfold pickServerID. case_decide; [done |]. simpl.
  destruct (env_rand h _ s) as [a s1]. destruct a as [i|msg]; simpl; [|done].
  case_decide; [|done]. by destruct (serverIDs g !! Z.to_nat _).
Qed.

(** An iteration reads the clock twice and then calls the client. *)
Lemma run_nil_attempt {S} (h : env S) g serverID st s :
  ∃ n1 n2 s', run_nil h (attempt g serverID st) s = (None, s', [EvNow n1; EvNow n2]).
Proof.
  unfold attempt, timeMS, incrBy, mbind, prog_bind. simpl.
  destruct (env_now h s) as [t1 s1]. destruct (env_now h s1) as [t2 s2].
  by eexists _, _, _.
Qed.

Lemma run_nil_for_loop {S} (h : env S) g serverID n st s :
  if decide (leftNum st > 0 ∧ n ≠ 0%nat) then
    ∃ n1 n2 s',
      run_nil h (for_loop g serverID n st) s = (None, s', [EvNow n1; EvNow n2])
  else run_nil h (for_loop g serverID n st) s = (Some (Next st), s, []).
Proof.
  destruct n as [|n]; cbn [for_loop].
  { by rewrite decide_False by (by intros [_ ?]). }
  destruct (decide (leftNum st > 0)) as [Hpos|Hpos].
  - rewrite decide_True by done. rewrite run_nil_bind.
    destruct (run_nil_attempt h g serverID st s) as (n1 & n2 & s' & ->).
    by exists n1, n2, s'.
  - by rewrite decide_False by (by intros [? _]).
Qed.

(** [GenMultiIDs] on a nil client: the allocation and the pick go as on any
    client; then a call that has something to produce reads the clock twice
    and panics at its first [INCRBY]. *)
Lemma run_nil_GenMultiIDs {S} (h : env S) g counts s a s' tr :
  run_nil h (GenMultiIDs g counts) s = (a, s', tr) →
  (¬ makeslice_ok counts ∧ a = Some (Panic (PanicMakeSlice counts)) ∧ tr = []) ∨
  (makeslice_ok counts ∧
   ∃ tr1 pr,
     exec (pickServerID g) tr1 pr ∧
     match pr with
     | Ok _ =>
         if decide (counts > 0)
         then a = None ∧ ∃ n1 n2, tr = tr1 ++ [EvNow n1; EvNow n2]
         else a = Some (Ok []) ∧ tr = tr1
     | Err e => a = Some (Err (ErrPickServerID e)) ∧ tr = tr1
     | Panic p => a = Some (Panic p) ∧ tr = tr1
     end).
Proof.
  unfold GenMultiIDs. case_decide as Hmk; [|intros [= <- _ <-]; by left].
  intros Hrun. right. split; [done |].
  rewrite run_nil_bind, run_nil_pickServerID in Hrun.
  destruct (run h (pickServerID g) s) as [[pr s1] tr1] eqn:Hpick.
  apply run_exec in Hpick. exists tr1, pr. split; [done |].
  destruct pr as [sid|e|p]; cbv beta iota zeta in Hrun.
  - rewrite run_nil_bind in Hrun.
    pose proof (run_nil_for_loop h g sid maxTimeAddrTimes
                  {| leftNum := counts; lastMs := 0; ids := [] |} s1) as Hloop.
    cbn [leftNum] in Hloop. destruct (decide (counts > 0)) as [Hpos|Hpos].
    + rewrite decide_True in Hloop by done.
      destruct Hloop as (n1 & n2 & s2 & Hloop). rewrite Hloop in Hrun.
      injection Hrun as <- _ <-. split; [done |]. by exists n1, n2.
    + rewrite decide_False in Hloop by (by intros [? _]).
      rewrite Hloop in Hrun. cbv beta iota zeta in Hrun.
      unfold finish in Hrun. cbn [ids leftNum length] in Hrun.
      destruct Hmk as [Hc0 _].
      rewrite decide_False in Hrun by (intros [?|Hne]; [lia | apply Hne; lia]).
      cbn [run_nil] in Hrun.
      injection Hrun as <- _ <-. by rewrite !app_nil_r.
  - cbn [run_nil] in Hrun. injection Hrun as <- _ <-. by rewrite app_nil_r.
  - cbn [run_nil] in Hrun. injection Hrun as <- _ <-. by rewrite app_nil_r.
Qed.

(** X6. Where [GenMultiIDs] panics, on a client that is nil or whose calls
    return.  It panics in the allocation of the result slice when [counts]
    is negative or too large, and in [rand.Int] when the pool is empty, both
    before any call; in indexing the pool when the random source answers
    outside it, right after the draw; and, when the client is nil, at the
    first [INCRBY], after the draw and two readings of the clock.  No panic
    comes after a call has reached the store; and on a nil client a call for
    one identifier or more never returns identifiers. *)
Theorem GenMultiIDs_panics {W} (h : env W) cli g counts s r s' tr :
  run_with h cli (GenMultiIDs g counts) s = (r, s', tr) →
  (¬ makeslice_ok counts → r = Panic (PanicMakeSlice counts) ∧ tr = []) ∧
  (makeslice_ok counts → serverIDs g = [] →
   r = Panic (PanicRandInt 0) ∧ tr = []) ∧
  (∀ p, r = Panic p →
     store_keys tr = [] ∧
     ((¬ makeslice_ok counts ∧ p = PanicMakeSlice counts ∧ tr = []) ∨
      (serverIDs g = [] ∧ p = PanicRandInt 0 ∧ tr = []) ∨
      (∃ i, tr = [EvRand (Z.of_nat (length (serverIDs g))) (Val i)] ∧
            ¬ (0 ≤ i < Z.of_nat (length (serverIDs g))) ∧
            p = PanicIndex i (length (serverIDs g))) ∨
      (cli = NilClient ∧ 1 ≤ counts ∧ p = PanicNilClient ∧
       ∃ i n1 n2,
         tr = [EvRand (Z.of_nat (length (serverIDs g))) (Val i);
               EvNow n1; EvNow n2]))) ∧
  (cli = NilClient → 1 ≤ counts →
   (∃ p, r = Panic p) ∨ (∃ msg, r = Err (ErrPickServerID (ErrExternal msg)))).
Proof.
  assert (∀ a p, pick_result g a = Panic p →
            ∃ i, a = Val i ∧ ¬ (0 ≤ i < Z.of_nat (length (serverIDs g))) ∧
                 p = PanicIndex i (length (serverIDs g))) as Hindex.
  { intros a p Hres. unfold pick_result in Hres.
    destruct a as [i|msg]; [|done]. exists i. split; [done |].
    case_decide as Hi.
    - destruct (serverIDs g !! Z.to_nat i) eqn:Hlook; [done |].
      injection Hres as <-. split; [|done].
      apply lookup_ge_None in Hlook. lia.
    - injection Hres as <-. split; [lia | done]. }
  destruct cli; unfold run_with.
  - destruct (run_nil h (GenMultiIDs g counts) s) as [[a s1] tr1] eqn:Hrun.
    intros [= <- <- <-].
    apply run_nil_GenMultiIDs in Hrun
      as [(Hmk & -> & ->)|(Hmk & tr0 & pr & Hpick & Hrest)].
    { split_and!; [done | done | |].
      - intros p [= <-]. split; [done |]. left. done.
      - intros _ _. left. by eexists. }
    split; [done |].
    apply exec_pickServerID_result in Hpick
      as [(Hnil & -> & ->)|(Hpool & a0 & Ha & -> & ->)].
    { destruct Hrest as [-> ->]. split_and!; [done | |].
      - intros p [= <-]. split; [done |]. right. left. done.
      - intros _ _. left. by eexists. }
    split; [done |].
    destruct (pick_result g a0) as [sid|e|p'] eqn:Hres.
    + destruct (decide (counts > 0)) as [Hpos|Hpos].
      * destruct Hrest as (-> & n1 & n2 & ->). simpl. split.
        -- intros p [= <-]. split; [done |]. do 3 right.
           split_and!; [done | lia | done |].
           unfold pick_result in Hres. destruct a0 as [i|msg]; [|done].
           by exists i, n1, n2.
        -- intros _ _. left. by eexists.
      * destruct Hrest as [-> ->]. simpl. split; [done |]. intros _ ?. lia.
    + destruct Hrest as [-> ->]. simpl. split; [done |]. intros _ _. right.
      unfold pick_result in Hres. destruct a0 as [i|msg].
      * case_decide; [|done]. by destruct (serverIDs g !! Z.to_nat i).
      * injection Hres as <-. by eexists.
    + destruct Hrest as [-> ->]. simpl. split.
      * intros p [= <-]. split; [done |]. right. right. left.
        destruct (Hindex _ _ Hres) as (i & -> & ? & ?). by exists i.
      * intros _ _. left. by eexists.
  - intros Hrun%run_exec.
    apply exec_GenMultiIDs in Hrun
      as [(Hmk & -> & ->)|(Hmk & tr1 & tr2 & pr & -> & Hpick & Hrest)].
    { split_and!; [done | done | | done].
      intros p [= <-]. split; [done |]. left. done. }
    split; [done |].
    apply exec_pickServerID_result in Hpick
      as [(Hnil & -> & ->)|(Hpool & a & Ha & -> & ->)].
    { destruct Hrest as [-> ->]. split_and!; [done | | done].
      intros p [= <-]. split; [done |]. right. left. done. }
    split; [done |]. split; [|done]. intros p ->.
    destruct (pick_result g a) as [sid|e|p'] eqn:Hres.
    + destruct Hrest as (f & Hloop & Hr). destruct f as [st|res]; simpl in Hr.
      * unfold finish in Hr. by case_decide.
      * apply loop_run_Return in Hloop as [e ->]. done.
    + by destruct Hrest as [_ ?].
    + destruct Hrest as [-> [= ->]]. split; [done |]. right. right. left.
      destruct (Hindex _ _ Hres) as (i & -> & ? & ?). by exists i.
Qed.

Lemma GenMultiIDs_panics_witness :
  run_with Mem.redis NilClient (GenMultiIDs Demo.g 5) Demo.w0 =
    (Panic PanicNilClient, Demo.w0,
     [EvRand 1 (Val 0); EvNow Demo.t0; EvNow Demo.t0]) ∧
  run_with Mem.redis Connected (GenMultiIDs Demo.g (2 ^ 45 + 1)) Demo.w0 =
    (Panic (PanicMakeSlice (2 ^ 45 + 1)), Demo.w0, []).
Proof.
  split.
  - opose proof (GenMultiIDs_panics Mem.redis NilClient Demo.g 5 Demo.w0
                   _ _ _ _) as (_ & _ & Hp & _).
    + vm_compute. reflexivity.
    + destruct (Hp _ eq_refl)
        as (_ & [(Hmk & _)|[(? & _)|[(i & ? & _)|(_ & _ & _ & i & n1 & n2 & Htr)]]]).
      * exfalso. apply Hmk. unfold makeslice_ok, maxAlloc. lia.
      * done.
      * done.
      * vm_compute. reflexivity.
  - opose proof (GenMultiIDs_panics Mem.redis Connected Demo.g
                   (2 ^ 45 + 1) Demo.w0 _ _ _ _) as (Hmk & _ & _).
    + vm_compute. reflexivity.
    + destruct Hmk as [Hr Htr]; [unfold makeslice_ok, maxAlloc; lia |].
      vm_compute. reflexivity.
Defined.

(** ** A generator from [NewIDGenerator] *)

Lemma run_GenID {W} (h : env W) g s r' s' tr :
  run h (GenID g) s = (r', s', tr) →
  ∃ r, run h (GenMultiIDs g 1) s = (r, s', tr) ∧
       r' = match r with
            | Ok (id :: _) => Ok id
            | Ok [] => Panic (PanicIndex 0 0)
            | Err e => Err (ErrGenID e)
            | Panic p => Panic p
            end.
Proof.
  unfold GenID. rewrite run_bind.
  destruct (run h (GenMultiIDs g 1) s) as [[r s1] tr1].
  destruct r as [[|id l]|e|p]; simpl; rewrite app_nil_r;
    intros [= <- <- <-]; eauto.
Qed.

Lemma run_nil_GenID {W} (h : env W) g s a' s' tr :
  run_nil h (GenID g) s = (a', s', tr) →
  ∃ a, run_nil h (GenMultiIDs g 1) s = (a, s', tr) ∧
       a' = match a with
            | Some (Ok (id :: _)) => Some (Ok id)
            | Some (Ok []) => Some (Panic (PanicIndex 0 0))
            | Some (Err e) => Some (Err (ErrGenID e))
            | Some (Panic p) => Some (Panic p)
            | None => None
            end.
Proof.
  unfold GenID. rewrite run_nil_bind.
  destruct (run_nil h (GenMultiIDs g 1) s) as [[a s1] tr1].
  destruct a as [[[|id l]|e|p]|]; simpl; rewrite ?app_nil_r;
    intros [= <- <- <-]; eauto.
Qed.

(** X7. [NewIDGenerator] stores the client without looking at it, and
    [GenID] on the generator it built panics only when that client is nil.
    With the random source answering below the bound it was given, as
    [rand.Int] does: on a client whose calls return, [GenID] never panics
    (the pool is not empty, the index is inside it, and [ids[0]] exists
    whenever [GenMultiIDs] reports success); on a nil client it fails with
    the error of the draw, or else panics at the first [INCRBY], after the
    draw and two readings of the clock and before any call to the store. *)
Theorem GenID_panics_only_on_nil_client {W} (h : env W) cli pool c g s r s' tr :
  NewIDGenerator cli pool = Ok (c, g) →
  run_with h c (GenID g) s = (r, s', tr) →
  (∀ max i, EvRand max (Val i) ∈ tr → 0 ≤ i < max) →
  c = cli ∧ pool ≠ [] ∧
  (cli = Connected → ∀ p, r ≠ Panic p) ∧
  (cli = NilClient →
   (∃ msg, r = Err (ErrGenID (ErrPickServerID (ErrExternal msg))) ∧
           tr = [EvRand (Z.of_nat (length pool)) (Fail msg)]) ∨
   (r = Panic PanicNilClient ∧
    ∃ i n1 n2,
      tr = [EvRand (Z.of_nat (length pool)) (Val i); EvNow n1; EvNow n2])).
Proof.
  unfold NewIDGenerator. case_decide as Hlen; [done |]. intros [= <- <-].
  intros Hrun Hrand. split; [done |]. split; [by intros -> |].
  split; intros ->; unfold run_with in Hrun.
  - apply run_GenID in Hrun as (r1 & Hrun & ->). intros p Hp.
    pose proof (run_exec _ _ _ _ _ _ Hrun) as Hexec.
    destruct r1 as [[|id l]|e|p1]; [|done|done|].
    + apply exec_GenMultiIDs_length in Hexec. simpl in Hexec. lia.
    + injection Hp as ->.
      apply exec_GenMultiIDs in Hexec
        as [(Hmk & _)|(_ & tr1 & tr2 & pr & -> & Hpick & Hrest)].
      { apply Hmk. unfold makeslice_ok, maxAlloc. lia. }
      apply exec_pickServerID_result in Hpick
        as [(Hnil & _)|(_ & a & _ & -> & ->)]; simpl in *.
      { by rewrite Hnil in Hlen. }
      destruct a as [i|msg]; simpl in Hrest.
      * specialize (Hrand _ i ltac:(left)).
        rewrite decide_True in Hrest by lia.
        destruct (pool !! Z.to_nat i) as [sid|] eqn:Hlook.
        -- destruct Hrest as (f & Hloop & Hr). destruct f as [st|res]; simpl in Hr.
           ++ unfold finish in Hr. by case_decide.
           ++ apply loop_run_Return in Hloop as [e ->]. done.
        -- apply lookup_ge_None in Hlook. lia.
      * by destruct Hrest as [_ ?].
  - destruct (run_nil h _ s) as [[a' s1] tr1] eqn:Hnil.
    injection Hrun as <- <- <-.
    apply run_nil_GenID in Hnil as (a & Hrun & ->).
    apply run_nil_GenMultiIDs in Hrun
      as [(Hmk & _)|(_ & tr0 & pr & Hpick & Hrest)].
    { exfalso. apply Hmk. unfold makeslice_ok, maxAlloc. lia. }
    apply exec_pickServerID_result in Hpick
      as [(Hnil & _)|(_ & a0 & _ & -> & ->)]; simpl in *.
    { by rewrite Hnil in Hlen. }
    destruct a0 as [i|msg]; simpl in Hrest.
    + destruct (decide (0 ≤ i)) as [Hi|Hi].
      * destruct (pool !! Z.to_nat i) as [sid|] eqn:Hlook.
        -- destruct Hrest as (-> & n1 & n2 & ->). right.
           split; [done |]. by exists i, n1, n2.
        -- destruct Hrest as [-> ->].
           specialize (Hrand _ i ltac:(left)).
           apply lookup_ge_None in Hlook. lia.
      * destruct Hrest as [-> ->]. specialize (Hrand _ i ltac:(left)). lia.
    + destruct Hrest as [-> ->]. left. by exists msg.
Qed.

Lemma GenID_panics_only_on_nil_client_witness :
  let g := {| serverIDs := [7; 8]; namespace := EmptyString |} in
  NewIDGenerator NilClient [7; 8] = Ok (NilClient, g) ∧
  (∀ p, (run_with Mem.redis Connected (GenID g) Demo.w0).1.1 ≠ Panic p) ∧
  (run_with Mem.redis NilClient (GenID g) Demo.w0).1.1 = Panic PanicNilClient.
Proof.
  intros g.
  assert (∀ (tr : trace) max i,
            EvRand max (Val i) ∈ tr →
            (∃ tr', tr = EvRand 2 (Val 0) :: tr' ∧
                    Forall (λ e, ∀ m b, e ≠ EvRand m b) tr') →
            0 ≤ i < max) as Hrand.
  { intros tr max i Hin (tr' & -> & Hno).
    apply elem_of_cons in Hin as [[= -> ->]|Hin]; [lia |].
    rewrite Forall_forall in Hno. by destruct (Hno _ Hin max (Val i)). }
  split; [reflexivity |]. split.
  - opose proof (GenID_panics_only_on_nil_client Mem.redis Connected [7; 8]
                   Connected g Demo.w0 _ _ _ _ _ _) as (_ & _ & Hok & _).
    + reflexivity.
    + vm_compute. reflexivity.
    + intros max i Hin. apply (Hrand _ _ _ Hin).
      eexists. split; [reflexivity |]. repeat constructor; done.
    + intros p Hp. apply (Hok eq_refl p).
      etrans; [|exact Hp]. vm_compute. reflexivity.
  - opose proof (GenID_panics_only_on_nil_client Mem.redis NilClient [7; 8]
                   NilClient g Demo.w0 _ _ _ _ _ _) as (_ & _ & _ & Hnil).
    + reflexivity.
    + vm_compute. reflexivity.
    + intros max i Hin. apply (Hrand _ _ _ Hin).
      eexists. split; [reflexivity |]. repeat constructor; done.
    + destruct (Hnil eq_refl) as [(msg & Hr & _)|[Hr _]]; [discriminate Hr |].
      etrans; [|exact Hr]. vm_compute. reflexivity.
Defined.

(** X8. [NewIDGenerator] accepts any pool that is not empty, without looking
    at its entries, and leaves the namespace empty; a server id that does not
    fit 14 bits is found only inside [GenMultiIDs], after the store has
    already been asked: a call that picked such an id never succeeds, and a
    generator whose pool holds only such ids hands out nothing at all. *)
Theorem NewIDGenerator_does_not_validate {W} (h : env W) cli pool :
  pool ≠ [] →
  ∃ g, NewIDGenerator cli pool = Ok (cli, g) ∧ serverIDs g = pool ∧
       namespace g = EmptyString ∧
       ∀ counts s l,
         1 ≤ counts →
         (run_with h cli (GenMultiIDs g counts) s).1.1 = Ok l →
         ∃ serverID, serverID ∈ pool ∧ 0 ≤ serverID < 2 ^ 14 ∧
                     Forall (λ id, id_serverID id = serverID) l.
Proof.
  intros Hpool. unfold NewIDGenerator.
  rewrite decide_False by (by destruct pool).
  eexists. split; [reflexivity |]. split; [done |]. split; [done |].
  intros counts s l Hcounts Hres. destruct cli; unfold run_with in Hres.
  { exfalso.
    destruct (run_nil h _ s) as [[a s'] tr] eqn:Hrun. simpl in Hres.
    apply run_nil_GenMultiIDs in Hrun
      as [(_ & -> & _)|(_ & tr1 & pr & _ & Hrest)]; [done |].
    destruct pr as [sid|e|p]; [|by destruct Hrest as [-> _]..].
    rewrite decide_True in Hrest by lia. by destruct Hrest as [-> _]. }
  destruct (run h _ s) as [[r s'] tr] eqn:Hrun. simpl in Hres. subst r.
  pose proof (run_exec _ _ _ _ _ _ Hrun) as Hexec.
  pose proof (exec_GenMultiIDs_length _ _ _ _ Hexec) as Hlen.
  apply exec_GenMultiIDs_Ok in Hexec
    as ([Hc0 Hc1] & tr1 & tr2 & sid & st & -> & Hpick & Hloop & <- & _ & _).
  apply exec_pickServerID in Hpick as [_ Hin].
  apply loop_run_serverID in Hloop as [Hsid Hall];
    [|done|by apply init_state_in_range].
  exists sid. split; [by apply Hin |]. split; [|by apply Hall].
  destruct Hsid as [Heq|?]; [|done].
  rewrite Heq in Hlen. simpl in Hlen. lia.
Qed.

Lemma NewIDGenerator_does_not_validate_witness :
  ∃ g, NewIDGenerator Connected [16384] = Ok (Connected, g) ∧
       (run Mem.redis (GenMultiIDs g 1) Demo.w0).1.1 =
         Err (ErrServerIDOverflow 16384) ∧
       store_keys (run Mem.redis (GenMultiIDs g 1) Demo.w0).2 =
         ["id_generator::16384:1700000000123";
          "id_generator::16384:1700000000123"].
Proof.
  opose proof (NewIDGenerator_does_not_validate Mem.redis Connected [16384] _)
    as (g & Hg & _ & _ & _); [done |].
  exists g. split; [exact Hg |].
  injection Hg as <-. split; vm_compute; reflexivity.
Defined.

(** ** Past the last second of 32 bits *)

Lemma attempt_ms_after_2106 st n1 n2 :
  Int64.in_range n1 → Int64.in_range n2 →
  seconds_overflow_ns ≤ n1 → seconds_overflow_ns ≤ n2 →
  0 ≤ lastMs st < 2 ^ 62 →
  2 ^ 32 * 1000 ≤ attempt_ms st n1 n2 ≤ Z.max (lastMs st) (2 ^ 44) + 1.
Proof.
  intros Hn1 Hn2 H1 H2 Hlast.
  unfold attempt_ms, next_ms, Int64.quot, seconds_overflow_ns, Millisecond in *.
  assert (2 ^ 32 * 1000 ≤ Z.quot n1 1000000 < 2 ^ 44) by int64_lia.
  assert (2 ^ 32 * 1000 ≤ Z.quot n2 1000000 < 2 ^ 44) by int64_lia.
  repeat case_decide; int64_lia.
Qed.

Lemma loop_run_after_2106 g serverID n st tr st' :
  loop_run g serverID n st tr (Next st') →
  0 ≤ leftNum st → Int64.in_range (leftNum st) →
  0 ≤ lastMs st → Z.of_nat n ≤ 2 ^ 44 → lastMs st + Z.of_nat n ≤ 2 ^ 45 →
  Forall (λ t, seconds_overflow_ns ≤ t) (clock_reads tr) →
  leftNum st' = leftNum st ∧ ids st' = ids st.
Proof.
  intros Hrun. remember (Next st') as f eqn:Hf.
  induction Hrun as [n st Hstop|
                     |n st n1 n2 r st1 tr f Hpos Hn1 Hn2 Hr Hflow Hrun IH];
    intros Hleft Hrange Hlast Hn Hbound Hclock.
  - by injection Hf as <-.
  - done.
  - rewrite clock_reads_app, clock_reads_attempt in Hclock.
    apply Forall_app in Hclock as [Hnow Hclock].
    apply Forall_cons in Hnow as [H1 [H2 _]%Forall_cons].
    pose proof (attempt_ms_after_2106 st n1 n2 Hn1 Hn2 H1 H2 ltac:(lia)) as Hms.
    apply attempt_flow_Next in Hflow as (c & -> & Hsettle).
    apply settle_Next in Hsettle as [Hlast1 Hcases]; [|lia|done|done].
    destruct Hcases as [(_ & Hl & Hi)|(_ & Hsec & _)].
    + rewrite <- Hl, <- Hi.
      apply IH; rewrite ?Hl, ?Hlast1; try done; lia.
    + exfalso. revert Hsec Hms. generalize (attempt_ms st n1 n2). intros ms.
      intros. Z.quot_rem_to_equations. lia.
Qed.

(** X9. From 2106-02-07T06:28:16Z on, when the seconds since the epoch no
    longer fit 32 bits, the generator hands out nothing: with every clock
    reading at or after that instant, no call for one identifier or more
    succeeds, whatever the store answers. *)
Theorem GenMultiIDs_fails_from_2106 {W} (h : env W) g counts s r s' tr :
  run h (GenMultiIDs g counts) s = (r, s', tr) →
  1 ≤ counts →
  Forall (λ t, seconds_overflow_ns ≤ t) (clock_reads tr) →
  ∀ l, r ≠ Ok l.
Proof.
  intros Hrun%run_exec Hcounts Hclock l ->.
  apply exec_GenMultiIDs_Ok in Hrun
    as (Hmk & tr1 & tr2 & sid & st & -> & Hpick & Hloop & _ & Hleft & _).
  rewrite clock_reads_app in Hclock. apply Forall_app in Hclock as [_ Hclock].
  apply loop_run_after_2106 in Hloop as [Hl _];
    [| |by apply init_state_in_range| | | |done];
    unfold maxTimeAddrTimes; simpl in *; lia.
Qed.

Lemma GenMultiIDs_fails_from_2106_witness :
  (∀ l, (run Mem.redis (GenMultiIDs Demo.g 1)
           (Mem.fresh seconds_overflow_ns 0)).1.1 ≠ Ok l) ∧
  ∃ l, (run Mem.redis (GenMultiIDs Demo.g 1)
          (Mem.fresh (seconds_overflow_ns - 1) 0)).1.1 = Ok l.
Proof.
  split; [|eexists; vm_compute; reflexivity].
  opose proof (GenMultiIDs_fails_from_2106 Mem.redis Demo.g 1
                 (Mem.fresh seconds_overflow_ns 0) _ _ _ _ _ _) as Hne.
  - vm_compute. reflexivity.
  - lia.
  - by_compute.
  - intros l Hl. apply (Hne l). etrans; [|exact Hl]. vm_compute. reflexivity.
Defined.

(** ** Under a clock that never steps back *)

Lemma attempt_ms_steady st n1 n2 :
  Int64.in_range n1 → Int64.in_range n2 → n1 ≤ n2 →
  0 ≤ lastMs st < 2 ^ 62 →
  lastMs st < attempt_ms st n1 n2 ≤ Z.max (lastMs st) (2 ^ 44) + 1.
Proof.
  intros Hn1 Hn2 Hle Hlast. unfold attempt_ms, next_ms, Int64.quot, Millisecond.
  assert (Z.quot n1 1000000 ≤ Z.quot n2 1000000 < 2 ^ 44) by int64_lia.
  repeat case_decide; int64_lia.
Qed.

Lemma steady_clock_attempt g serverID st n1 n2 r tr :
  steady_clock (attempt_trace g serverID st n1 n2 r ++ tr) →
  n1 ≤ n2 ∧ steady_clock tr.
Proof.
  unfold steady_clock. rewrite clock_reads_app, clock_reads_attempt.
  intros (_ & Hatt & Htr)%StronglySorted_app.
  split; [|done]. apply StronglySorted_cons in Hatt as [Hle _].
  by apply Forall_cons in Hle as [? _].
Qed.

Lemma steady_clock_attempt_only g serverID st n1 n2 r :
  steady_clock (attempt_trace g serverID st n1 n2 r) → n1 ≤ n2.
Proof.
  intros Hst. apply (steady_clock_attempt g serverID st n1 n2 r []).
  by rewrite app_nil_r.
Qed.

(** The milliseconds of the buckets the loop asks go strictly up. *)
Lemma loop_run_asks g serverID n st tr f :
  loop_run g serverID n st tr f →
  Int64.in_range (leftNum st) →
  0 ≤ lastMs st → Z.of_nat n ≤ 2 ^ 44 → lastMs st + Z.of_nat n ≤ 2 ^ 45 →
  steady_clock tr →
  ∃ mss, asks g serverID mss tr ∧ StronglySorted Z.lt mss ∧
         Forall (λ ms, lastMs st < ms) mss.
Proof.
  unfold asks.
  induction 1 as [n st Hstop
                 |n st n1 n2 r res Hpos Hn1 Hn2 Hr Hflow
                 |n st n1 n2 r st1 tr f Hpos Hn1 Hn2 Hr Hflow Hrun IH];
    intros Hrange Hlast Hn Hbound Hclock.
  - exists []. by repeat constructor.
  - apply steady_clock_attempt_only in Hclock.
    pose proof (attempt_ms_steady st n1 n2 Hn1 Hn2 Hclock ltac:(lia)) as Hms.
    exists [attempt_ms st n1 n2]. rewrite incr_events_attempt.
    split; [done |]. split; repeat constructor. lia.
  - apply steady_clock_attempt in Hclock as [Hle Hclock].
    pose proof (attempt_ms_steady st n1 n2 Hn1 Hn2 Hle ltac:(lia)) as Hms.
    apply attempt_flow_Next in Hflow as (c & -> & Hsettle).
    apply settle_Next in Hsettle as [Hlast1 Hcases]; [|lia|done|done].
    destruct IH as (mss & Hasks & Hsorted & Hall);
      rewrite ?Hlast1; try done; try lia.
    { destruct Hcases as [(_ & -> & _)|(_ & _ & _ & -> & _)]; [done |].
      simpl in Hr. int64_lia. }
    exists (attempt_ms st n1 n2 :: mss).
    rewrite incr_events_app, incr_events_attempt, !fmap_app, Hasks.
    split; [reflexivity |]. rewrite Hlast1 in Hall.
    split; [by constructor |]. constructor; [lia |].
    eapply Forall_impl; [exact Hall |]. simpl. lia.
Qed.

(** X10. Under a clock that never steps back, a call never asks the same
    bucket twice: the keys of its [INCRBY] calls are those of one server id
    and of strictly increasing milliseconds, all after the epoch, and so are
    pairwise distinct. *)
Theorem GenMultiIDs_buckets_advance {W} (h : env W) g counts s r s' tr :
  run h (GenMultiIDs g counts) s = (r, s', tr) →
  steady_clock tr →
  (∃ serverID mss,
     asks g serverID mss tr ∧ StronglySorted Z.lt mss ∧
     Forall (λ ms, 1 ≤ ms) mss) ∧
  NoDup (incr_events tr).*1.*1.
Proof.
  intros Hrun%run_exec Hclock.
  assert (∃ serverID mss,
            asks g serverID mss tr ∧ StronglySorted Z.lt mss ∧
            Forall (λ ms, 1 ≤ ms) mss) as Hasks.
  { apply exec_GenMultiIDs in Hrun
      as [(_ & -> & _)|(Hmk & tr1 & tr2 & pr & -> & Hpick & Hrest)].
    { exists 0, []. by repeat constructor. }
    apply incr_events_pick in Hpick as Hno.
    apply exec_pickServerID in Hpick as [Htr1 _].
    assert (steady_clock tr2) as Hclock2.
    { unfold steady_clock in *. rewrite clock_reads_app in Hclock.
      by apply StronglySorted_app_1_r in Hclock. }
    unfold asks. rewrite incr_events_app, (proj1 Hno). simpl.
    destruct pr as [sid|e|p];
      [|destruct Hrest as [-> _]; exists 0, []; by repeat constructor..].
    destruct Hrest as (f & Hloop & _).
    apply loop_run_asks in Hloop as (mss & ? & ? & Hall);
      [|by apply init_state_in_range|simpl; lia
       |unfold maxTimeAddrTimes; lia|unfold maxTimeAddrTimes; simpl; lia|done].
    exists sid, mss. split_and!; [done | done |].
    eapply Forall_impl; [exact Hall |]. simpl. lia. }
  split; [exact Hasks |].
  destruct Hasks as (sid & mss & -> & Hsorted & _).
  apply NoDup_fmap_2_strong.
  - intros ms1 ms2 _ _ Heq. by apply counterKey_inj in Heq as [_ ?].
  - clear -Hsorted. induction Hsorted as [|ms mss Hs IH Hall]; constructor; [|done].
    intros Hin. rewrite Forall_forall in Hall. specialize (Hall _ Hin). lia.
Qed.

Lemma GenMultiIDs_buckets_advance_witness :
  (incr_events (run Mem.redis (GenMultiIDs Demo.g 600) Demo.w0).2).*1.*1 =
    counterKey "ns" 7 <$> [1700000000123; 1700000000124; 1700000000125] ∧
  NoDup (incr_events (run Mem.redis (GenMultiIDs Demo.g 600) Demo.w0).2).*1.*1.
Proof.
  split; [vm_compute; reflexivity |].
  opose proof (GenMultiIDs_buckets_advance Mem.redis Demo.g 600 Demo.w0
                 _ _ _ _ _) as [_ Hnodup].
  - vm_compute. reflexivity.
  - unfold steady_clock. by_compute.
  - exact Hnodup.
Defined.

(** ** Identifiers in the order of time *)

Lemma stamp_mono a b : 0 ≤ a → a < b → stamp a + 2 ^ 22 ≤ stamp b.
Proof. unfold stamp. intros. Z.quot_rem_to_equations. lia. Qed.

Lemma unsigned_pack_ms serverID ms i :
  bucket_ok serverID ms → 0 ≤ i ≤ 255 →
  unsigned (pack_ms ms i serverID) = stamp ms + i * 2 ^ 14 + serverID.
Proof.
  intros Hb Hi. rewrite pack_ms_unfold. unfold unsigned.
  rewrite pack_unsigned by (by apply bucket_fields_fit).
  reflexivity.
Qed.

Lemma pack_ms_in_range serverID ms i : Int64.in_range (pack_ms ms i serverID).
Proof. rewrite pack_ms_unfold, pack_wrap. apply Int64Facts.wrap_in_range. Qed.

Lemma seqZ_sorted (k : nat) lo m hi :
  lo ≤ m → m + Z.of_nat k ≤ hi →
  StronglySorted (λ x y, lo ≤ x ∧ x < y ∧ y < hi) (seqZ m (Z.of_nat k)).
Proof.
  revert m. induction k as [|k IH]; intros m Hlo Hhi.
  - rewrite seqZ_nil by lia. constructor.
  - rewrite seqZ_cons by lia. constructor.
    + replace (Z.pred (Z.of_nat (S k))) with (Z.of_nat k) by lia.
      apply IH; lia.
    + apply Forall_forall. intros y Hy%elem_of_seqZ. lia.
Qed.

Lemma emit_sorted serverID ms start end_ :
  bucket_ok serverID ms → 0 ≤ start → end_ ≤ 256 →
  StronglySorted Z.lt
    (unsigned <$> emit (Z.quot ms 1000) (Z.rem ms 1000) serverID start end_).
Proof.
  intros Hb Hs He. rewrite emit_pack_ms, <- list_fmap_compose.
  destruct (decide (end_ - start ≤ 0)) as [Hle|Hgt].
  { rewrite seqZ_nil by lia. constructor. }
  eapply (StronglySorted_fmap _ (λ x y, 0 ≤ x ∧ x < y ∧ y < 256)).
  - intros x y (Hx & Hxy & Hy). simpl.
    rewrite !unsigned_pack_ms by (done || lia). lia.
  - replace (end_ - start) with (Z.of_nat (Z.to_nat (end_ - start))) by lia.
    apply seqZ_sorted; lia.
Qed.

Lemma loop_run_sorted g serverID n st tr st' :
  loop_run g serverID n st tr (Next st') →
  0 ≤ leftNum st → Int64.in_range (leftNum st) →
  0 ≤ lastMs st → Z.of_nat n ≤ 2 ^ 44 → lastMs st + Z.of_nat n ≤ 2 ^ 45 →
  steady_clock tr →
  StronglySorted Z.lt (unsigned <$> ids st) →
  Forall (λ id, Int64.in_range id ∧
                unsigned id < stamp (lastMs st) + 2 ^ 22) (ids st) →
  StronglySorted Z.lt (unsigned <$> ids st') ∧
  Forall Int64.in_range (ids st').
Proof.
  intros Hrun. remember (Next st') as f eqn:Hf.
  induction Hrun as [n st Hstop|
                     |n st n1 n2 r st1 tr f Hpos Hn1 Hn2 Hr Hflow Hrun IH];
    intros Hleft Hrange Hlast Hn Hbound Hclock Hsorted Hold.
  - injection Hf as <-. split; [done |].
    eapply Forall_impl; [exact Hold |]. by intros ? [? _].
  - done.
  - apply steady_clock_attempt in Hclock as [Hle Hclock].
    pose proof (attempt_ms_steady st n1 n2 Hn1 Hn2 Hle ltac:(lia)) as Hms.
    apply attempt_flow_Next in Hflow as (c & -> & Hsettle).
    apply settle_Next in Hsettle as [Hlast1 Hcases]; [|lia|done|done].
    pose proof (stamp_mono (lastMs st) (attempt_ms st n1 n2) Hlast
                  ltac:(lia)) as Hstamp.
    destruct Hcases as [(_ & Hl & Hi)|(Hstart & Hsec & Hsid & Hl & Hi)].
    + apply IH; rewrite ?Hl, ?Hlast1, ?Hi; try done; try lia.
      eapply Forall_impl; [exact Hold |]. simpl. intros id [? ?]. split; [done | lia].
    + rewrite maxCounter_eq in Hstart.
      assert (bucket_ok serverID (attempt_ms st n1 n2)) as Hb
        by (unfold bucket_ok; lia).
      assert (Forall (λ id, Int64.in_range id ∧
                stamp (attempt_ms st n1 n2) ≤ unsigned id
                  < stamp (attempt_ms st n1 n2) + 2 ^ 22)
                (emit (Z.quot (attempt_ms st n1 n2) 1000)
                      (Z.rem (attempt_ms st n1 n2) 1000) serverID
                      (c - leftNum st) (Z.min c 256))) as Hnew.
      { apply Forall_forall. intros id (i & Hi' & ->)%elem_of_emit.
        rewrite <- pack_ms_unfold. split; [apply pack_ms_in_range |].
        rewrite unsigned_pack_ms by (done || lia). lia. }
      apply IH; rewrite ?Hl, ?Hlast1, ?Hi; try done; try lia.
      * simpl in Hr. int64_lia.
      * rewrite fmap_app. apply StronglySorted_app_2;
          [|done|apply emit_sorted; [done | lia | lia]].
        intros x1 x2 (id1 & -> & Hin1)%list_elem_of_fmap
                     (id2 & -> & Hin2)%list_elem_of_fmap.
        rewrite Forall_forall in Hold, Hnew.
        destruct (Hold _ Hin1) as [_ ?]. destruct (Hnew _ Hin2) as [_ ?]. lia.
      * apply Forall_app. split.
        -- eapply Forall_impl; [exact Hold |]. simpl.
           intros id [? ?]. split; [done | lia].
        -- eapply Forall_impl; [exact Hnew |]. simpl.
           intros id [? ?]. split; [done | lia].
Qed.

Lemma unsigned_nonneg (l : list Z) :
  Forall Int64.in_range l → Forall (λ id, 0 ≤ id) l → unsigned <$> l = l.
Proof.
  induction 1 as [|id l Hid _ IH]; [done |].
  intros [Hpos Hl]%Forall_cons. rewrite fmap_cons, IH by done. f_equal.
  unfold unsigned. int64_lia.
Qed.

(** X11. Identifiers come out in the order of time.  Under a clock that
    never steps back, the identifiers of a successful call are strictly
    increasing in the order returned when read as unsigned 64-bit words;
    and so they are as the signed [int64] values the caller gets, as long
    as none of them is negative (until 2038). *)
Theorem GenMultiIDs_time_ordered {W} (h : env W) g counts s l s' tr :
  run h (GenMultiIDs g counts) s = (Ok l, s', tr) →
  steady_clock tr →
  StronglySorted Z.lt (unsigned <$> l) ∧
  (Forall (λ id, 0 ≤ id) l → StronglySorted Z.lt l).
Proof.
  intros Hrun%run_exec Hclock.
  apply exec_GenMultiIDs_Ok in Hrun
    as (Hmk & tr1 & tr2 & sid & st & -> & Hpick & Hloop & <- & _ & _).
  assert (steady_clock tr2) as Hclock2.
  { unfold steady_clock in *. rewrite clock_reads_app in Hclock.
    by apply StronglySorted_app_1_r in Hclock. }
  apply loop_run_sorted in Hloop as [Hsorted Hrange];
    [|by destruct Hmk|by apply init_state_in_range|simpl; lia
     |unfold maxTimeAddrTimes; lia|unfold maxTimeAddrTimes; simpl; lia
     |done|constructor|constructor].
  split; [done |]. intros Hpos. by rewrite <- (unsigned_nonneg (ids st)).
Qed.

Lemma GenMultiIDs_time_ordered_witness :
  ∃ l, (run Mem.redis (GenMultiIDs Demo.g 600) Demo.w0).1.1 = Ok l ∧
       StronglySorted Z.lt l.
Proof.
  eexists. split; [vm_compute; reflexivity |].
  opose proof (GenMultiIDs_time_ordered Mem.redis Demo.g 600 Demo.w0
                 _ _ _ _ _) as [_ Hsorted].
  - vm_compute. reflexivity.
  - unfold steady_clock. by_compute.
  - apply Hsorted. by_compute.
Defined.

(** ** Bucket keys, read from the right *)

Lemma string_app_assoc (s1 s2 s3 : string) :
  (s1 +:+ s2) +:+ s3 = s1 +:+ s2 +:+ s3.
Proof.
  induction s1 as [|a s1 IH]; [done |].
  change (String a ((s1 +:+ s2) +:+ s3) = String a (s1 +:+ s2 +:+ s3)).
  by rewrite IH.
Qed.

Lemma colon_free_colon s t : ¬ colon_free (s +:+ ":" +:+ t).
Proof. induction s as [|a s IH]; simpl; [by intros [? _] | by intros [_ ?]]. Qed.

(** The text after the last colon, and the text before it. *)
Lemma app_colon_inj_r s1 t1 s2 t2 :
  colon_free t1 → colon_free t2 →
  s1 +:+ ":" +:+ t1 = s2 +:+ ":" +:+ t2 → s1 = s2 ∧ t1 = t2.
Proof.
  intros H1 H2. revert s2. induction s1 as [|a s1 IH]; intros [|b s2]; simpl.
  - intros Heq. by simplify_eq.
  - intros Heq. injection Heq as _ Heq.
    change (t1 = s2 +:+ ":" +:+ t2) in Heq. subst t1.
    by apply colon_free_colon in H1.
  - intros Heq. injection Heq as _ Heq.
    change (s1 +:+ ":" +:+ t1 = t2) in Heq. subst t2.
    by apply colon_free_colon in H2.
  - intros Heq. injection Heq as -> Heq.
    by destruct (IH _ Heq) as [-> ->].
Qed.

(** X12. The bucket key tells all three of its fields: two keys are equal
    only for the same namespace, the same server id and the same millisecond,
    also when the namespace itself holds colons or digits.  Generators of
    different namespaces sharing one store never touch each other's
    counters. *)
Theorem counterKey_injective ns1 sid1 ms1 ns2 sid2 ms2 :
  counterKey ns1 sid1 ms1 = counterKey ns2 sid2 ms2 ↔
  ns1 = ns2 ∧ sid1 = sid2 ∧ ms1 = ms2.
Proof.
  split; [|by intros (-> & -> & ->)].
  unfold counterKey. intros Heq.
  apply (inj (String.append _)) in Heq.
  rewrite <- (string_app_assoc ns1), <- (string_app_assoc ns2) in Heq.
  rewrite <- (string_app_assoc (ns1 +:+ _)),
          <- (string_app_assoc (ns2 +:+ _)) in Heq.
  apply app_colon_inj_r in Heq as [Heq Hms]; [|apply pretty_Z_colon_free..].
  rewrite !string_app_assoc in Heq.
  apply app_colon_inj_r in Heq as [Hns Hsid]; [|apply pretty_Z_colon_free..].
  split; [done |]. split; by apply (inj pretty).
Qed.

(** ** A batch with the store to itself *)

(** A grant that runs over the end of the bucket. *)
Lemma settle_spills g serverID st ms counter :
  0 < leftNum st → leftNum st ≤ counter → counter - leftNum st ≤ 255 →
  255 < counter → Int64.in_range counter →
  bucket_ok serverID ms →
  settle g serverID st ms counter =
    Next {| leftNum := counter - 256; lastMs := ms;
            ids := ids st ++
                   ((λ i, pack_ms ms i serverID)
                      <$> seqZ (counter - leftNum st)
                               (256 - (counter - leftNum st))) |}.
Proof.
  intros Hpos Hle Hstart Hc Hrange (Hms & Hsec & Hsid). unfold settle.
  rewrite (Int64Facts.sub_id counter (leftNum st)) by int64_lia.
  rewrite maxCounter_eq.
  rewrite decide_False by lia. rewrite decide_False by lia.
  rewrite decide_True by lia. unfold Int64.quot, Int64.rem.
  assert (Z.land (Z.quot ms 1000) 0xFFFFFFFF = Z.quot ms 1000) as Hfs.
  { apply Int64Facts.fits_32. Z.quot_rem_to_equations. lia. }
  assert (Z.land serverID 0x3FFF = serverID) as Hfi
    by (by apply Int64Facts.fits_14).
  rewrite decide_False by (by intros []).
  rewrite decide_False by (by intros []).
  rewrite emit_pack_ms.
  rewrite (Int64Facts.sub_id counter 255), Int64Facts.sub_id, Int64Facts.add_id
    by int64_lia.
  by replace (counter - 255 - 1) with (counter - 256) by lia.
Qed.

Lemma for_loop_done g serverID n st :
  leftNum st ≤ 0 → for_loop g serverID n st = Ret (Next st).
Proof. intros Hleft. destruct n; simpl; [done | by rewrite decide_False by lia]. Qed.

(** The identifiers of a batch of [n] that has the buckets from millisecond
    [m] on to itself: 256 to a bucket. *)
Lemma spill_ids_cons serverID m n :
  256 ≤ n →
  (λ k, pack_ms (m + Z.quot k 256) (Z.rem k 256) serverID) <$> seqZ 0 n =
    ((λ i, pack_ms m i serverID) <$> seqZ 0 256) ++
    ((λ k, pack_ms (m + 1 + Z.quot k 256) (Z.rem k 256) serverID)
       <$> seqZ 0 (n - 256)).
Proof.
  intros Hn. replace n with (256 + (n - 256)) at 1 by lia.
  rewrite seqZ_app, fmap_app by lia. f_equal.
  - apply list_fmap_ext. intros i k [-> Hk]%lookup_seqZ.
    rewrite Z.quot_small, Z.rem_small by lia. by rewrite Z.add_0_r.
  - rewrite <- (fmap_add_seqZ (0 + 256) 0), <- list_fmap_compose.
    apply list_fmap_ext. intros i k [-> Hk]%lookup_seqZ. simpl.
    replace (0 + 256 + (0 + Z.of_nat i)) with (Z.of_nat i + 1 * 256) by lia.
    rewrite Z.quot_add, Z.rem_add by lia.
    by replace (m + (Z.of_nat i `quot` 256 + 1))
      with (m + 1 + Z.of_nat i `quot` 256) by lia.
Qed.

Lemma spill_ids_last serverID m n :
  n ≤ 255 →
  (λ k, pack_ms (m + Z.quot k 256) (Z.rem k 256) serverID) <$> seqZ 0 n =
    (λ i, pack_ms m i serverID) <$> seqZ 0 n.
Proof.
  intros Hn. apply list_fmap_ext. intros i k [-> Hk]%lookup_seqZ.
  rewrite Z.quot_small, Z.rem_small by lia. by rewrite Z.add_0_r.
Qed.

Lemma attempt_ms_stuck st nanos :
  0 ≤ lastMs st < 2 ^ 62 →
  attempt_ms st nanos nanos = Z.max (Z.quot nanos Millisecond) (lastMs st + 1).
Proof.
  intros Hlast. unfold attempt_ms, next_ms, Int64.quot.
  generalize (Z.quot nanos Millisecond). intros T.
  repeat case_decide; int64_lia.
Qed.

Lemma run_for_loop_alone g serverID nanos n st w :
  let m := Z.max (Z.quot nanos Millisecond) (lastMs st + 1) in
  Mem.clock w = [nanos] → Int64.in_range nanos →
  0 ≤ lastMs st → 1 ≤ m → Z.quot (m + Z.of_nat n) 1000 < 2 ^ 32 →
  0 ≤ serverID < 2 ^ 14 →
  (∀ ms, m ≤ ms →
         value_at (Mem.store w) (counterKey (namespace g) serverID ms) = 0) →
  0 ≤ leftNum st ≤ 256 * Z.of_nat n →
  ∃ w' tr st',
    run Mem.redis (for_loop g serverID n st) w = (Next st', w', tr) ∧
    leftNum st' = 0 ∧
    ids st' = ids st ++
      ((λ k, pack_ms (m + Z.quot k 256) (Z.rem k 256) serverID)
         <$> seqZ 0 (leftNum st)).
Proof.
  revert st w. induction n as [|n IH];
    intros st w m Hclock Hnanos Hlast Hm Hsec Hsid Hfresh Hleft.
  { assert (leftNum st = 0) as H0 by lia.
    exists w, [], st. rewrite H0, app_nil_r. done. }
  destruct (decide (leftNum st = 0)) as [H0|Hpos].
  { exists w, [], st. rewrite for_loop_done by lia.
    rewrite H0, app_nil_r. done. }
  assert (m < 2 ^ 32 * 1000) as Hm32 by (Z.quot_rem_to_equations; lia).
  assert (attempt_ms st nanos nanos = m) as Hms
    by (apply attempt_ms_stuck; lia).
  assert (bucket_ok serverID m) as Hb.
  { unfold bucket_ok. split; [done |]. split; [|done].
    Z.quot_rem_to_equations. lia. }
  destruct (run_attempt_stuck g serverID st w nanos)
    as (w1 & Hrun & Hstore & Hclock1 & _); [done | done | |].
  { rewrite Hms, Hfresh by lia. int64_lia. }
  rewrite Hms, Hfresh in Hrun, Hstore by lia.
  rewrite Z.add_0_l in Hrun, Hstore.
  cbn [for_loop]. rewrite decide_True by lia. rewrite run_bind, Hrun.
  destruct (decide (leftNum st ≤ 255)) as [Hfit|Hbig].
  - rewrite (settle_fits g serverID st m (leftNum st)) by (done || lia).
    cbv beta iota zeta. rewrite for_loop_done by (simpl; lia).
    eexists _, _, _. split; [reflexivity |]. split; [done |].
    cbn [ids]. rewrite Z.sub_diag. by rewrite spill_ids_last.
  - rewrite (settle_spills g serverID st m (leftNum st))
      by (done || lia || int64_lia).
    cbv beta iota zeta. rewrite Z.sub_diag, Z.sub_0_r.
    set (st1 := {| leftNum := leftNum st - 256; lastMs := m;
                   ids := ids st ++ ((λ i, pack_ms m i serverID) <$> seqZ 0 256) |}).
    destruct (IH st1 w1) as (w2 & tr2 & st2 & Hrun2 & Hleft2 & Hids2);
      cbn [st1 lastMs leftNum ids]; try done; try lia.
    { congruence. }
    { replace (Z.max (Z.quot nanos Millisecond) (m + 1)) with (m + 1) by lia.
      by replace (m + 1 + Z.of_nat n) with (m + Z.of_nat (S n)) by lia. }
    { intros ms Hge. rewrite Hstore, value_at_insert.
      rewrite decide_False; [apply Hfresh; lia |].
      intros [_ ?]%counterKey_inj. lia. }
    rewrite Hrun2. eexists _, _, _. split; [reflexivity |]. split; [done |].
    rewrite Hids2. cbn [st1 lastMs leftNum ids].
    replace (Z.max (Z.quot nanos Millisecond) (m + 1)) with (m + 1) by lia.
    rewrite <- (assoc_L (++)). f_equal. symmetry. apply spill_ids_cons. lia.
Qed.

(** X13. A batch that has the store to itself.  On the in-memory store,
    with the clock standing in millisecond [T] and the buckets of the picked
    server id untouched from [T] on, a call for [counts] between 1 and 2048
    succeeds, and returns the counters 0 to 255 of millisecond [T], then those
    of [T + 1], and so on until [counts] identifiers are out: identifier
    number [k] is counter [k % 256] of millisecond [T + k / 256]. *)
Theorem GenMultiIDs_alone_spills_in_order g w nanos j serverID counts :
  let T := Z.quot nanos Millisecond in
  Mem.clock w = [nanos] → Int64.in_range nanos →
  Mem.dice w = [Z.of_nat j] → Int64.in_range (Z.of_nat j) →
  serverIDs g !! j = Some serverID →
  1 ≤ T → Z.quot (T + 8) 1000 < 2 ^ 32 → 0 ≤ serverID < 2 ^ 14 →
  (∀ ms, T ≤ ms →
         value_at (Mem.store w) (counterKey (namespace g) serverID ms) = 0) →
  1 ≤ counts ≤ 2048 →
  (run Mem.redis (GenMultiIDs g counts) w).1.1 =
    Ok ((λ k, pack_ms (T + Z.quot k 256) (Z.rem k 256) serverID)
          <$> seqZ 0 counts).
Proof.
  intros T Hclock Hnanos Hdice Hj Hlook HT Hsec Hsid Hfresh Hcounts.
  unfold GenMultiIDs.
  rewrite decide_True by (unfold makeslice_ok, maxAlloc; lia).
  rewrite run_bind, (run_pickServerID_stuck g w j serverID) by done.
  cbv beta iota zeta. rewrite run_bind.
  destruct (run_for_loop_alone g serverID nanos maxTimeAddrTimes
              {| leftNum := counts; lastMs := 0; ids := [] |} w)
    as (w' & tr & st' & Hrun & Hleft & Hids); cbn [lastMs leftNum ids];
    try done; try (unfold maxTimeAddrTimes; fold T; simpl; lia).
  { fold T. replace (Z.max T (0 + 1)) with T by lia. done. }
  { fold T. replace (Z.max T (0 + 1)) with T by lia. done. }
  rewrite Hrun. cbv beta iota zeta. cbn [fst]. unfold finish.
  cbn [ids lastMs leftNum app] in Hids. fold T in Hids.
  replace (Z.max T (0 + 1)) with T in Hids by lia.
  rewrite decide_False; [by rewrite Hids |].
  rewrite Hids, length_fmap, length_seqZ. intros [?|?]; [lia | done].
Qed.

Lemma GenMultiIDs_alone_spills_in_order_witness :
  let T := 1700000000123 in
  (run Mem.redis (GenMultiIDs Demo.g 300) Demo.w0).1.1 =
    Ok (((λ i, pack_ms T i 7) <$> seqZ 0 256) ++
        ((λ i, pack_ms (T + 1) i 7) <$> seqZ 0 44)).
Proof.
  intros T.
  opose proof (GenMultiIDs_alone_spills_in_order Demo.g Demo.w0 Demo.t0 0 7 300
                 _ _ _ _ _ _ _ _ _ _) as Hrun.
  - reflexivity.
  - unfold Int64.in_range, Int64.min_int, Int64.max_int, Demo.t0. lia.
  - reflexivity.
  - unfold Int64.in_range, Int64.min_int, Int64.max_int. simpl. lia.
  - reflexivity.
  - vm_compute. discriminate.
  - vm_compute. reflexivity.
  - lia.
  - intros ms _. apply value_at_fresh.
  - lia.
  - etrans; [exact Hrun |]. vm_compute. reflexivity.
Defined.

(** ** The errors of a call *)

Lemma settle_Return_error g serverID st ms counter res :
  settle g serverID st ms counter = Return res →
  res = Err (ErrRecycling ms) ∨
  (res = Err (ErrSecondsOverflow (Z.quot ms 1000)) ∧
   ¬ (0 ≤ Z.quot ms 1000 < 2 ^ 32)) ∨
  (res = Err (ErrServerIDOverflow serverID) ∧ ¬ (0 ≤ serverID < 2 ^ 14)).
Proof.
  unfold settle, Int64.quot. case_decide; [done |].
  case_decide; [intros [= <-]; by left |].
  destruct (decide (counter > maxCounter)).
  - case_decide as Hsec.
    { intros [= <-]. right. left. split; [done |].
      intros ?. by apply Hsec, Int64Facts.fits_32. }
    case_decide as Hsid; [|done].
    intros [= <-]. right. right. split; [done |].
    intros ?. by apply Hsid, Int64Facts.fits_14.
  - case_decide as Hsec.
    { intros [= <-]. right. left. split; [done |].
      intros ?. by apply Hsec, Int64Facts.fits_32. }
    case_decide as Hsid; [|done].
    intros [= <-]. right. right. split; [done |].
    intros ?. by apply Hsid, Int64Facts.fits_14.
Qed.

Lemma loop_run_Return_error g serverID n st tr res :
  loop_run g serverID n st tr (Return res) →
  (∃ msg, res = Err (ErrExternal msg)) ∨
  (∃ ms, res = Err (ErrRecycling ms)) ∨
  (∃ seconds, res = Err (ErrSecondsOverflow seconds) ∧
              ¬ (0 ≤ seconds < 2 ^ 32)) ∨
  (res = Err (ErrServerIDOverflow serverID) ∧ ¬ (0 ≤ serverID < 2 ^ 14)).
Proof.
  intros Hrun. remember (Return res) as f eqn:Hf.
  induction Hrun as [|n st n1 n2 r res' Hpos Hn1 Hn2 Hr Hflow|];
    [done | | by auto].
  injection Hf as ->. destruct r as [c|msg]; simpl in Hflow.
  - apply settle_Return_error in Hflow as [->|[[-> ?]|[-> ?]]]; eauto 10.
  - injection Hflow as <-. eauto.
Qed.

(** A loop that ends still owing identifiers has used every attempt. *)
Lemma loop_run_exhausted g serverID n st tr st' :
  loop_run g serverID n st tr (Next st') →
  0 < leftNum st' → incr_calls tr = n.
Proof.
  intros Hrun. remember (Next st') as f eqn:Hf.
  induction Hrun as [n st Hstop|
                     |n st n1 n2 r st1 tr f Hpos Hn1 Hn2 Hr Hflow Hrun IH];
    intros Hleft.
  - injection Hf as <-. destruct Hstop; [by subst | lia].
  - done.
  - unfold incr_calls in *.
    rewrite incr_events_app, incr_events_attempt, length_app. simpl.
    by rewrite IH.
Qed.

(** X14. The errors of [GenMultiIDs] are of six kinds and no other: the
    wrapped failure of the random source, returned before any other call; the
    store's own error; the recycling error; seconds that do not fit 32 bits;
    a picked server id of the pool that does not fit 14 bits; and
    exhaustion, which reports the generator's namespace, the requested count
    and a count of identifiers produced that is below it, and is returned
    only after all eight attempts. *)
Theorem GenMultiIDs_errors {W} (h : env W) g counts s e s' tr :
  run h (GenMultiIDs g counts) s = (Err e, s', tr) →
  may_fail_with g counts e ∧
  (∀ cause, e = ErrPickServerID cause →
     ∃ msg, cause = ErrExternal msg ∧
            tr = [EvRand (Z.of_nat (length (serverIDs g))) (Fail msg)]) ∧
  (∀ ns expect gotten last, e = ErrNotEnough ns expect gotten last →
     incr_calls tr = maxTimeAddrTimes).
Proof.
  intros Hrun%run_exec.
  apply exec_GenMultiIDs in Hrun
    as [(_ & _ & ?)|(Hmk & tr1 & tr2 & pr & -> & Hpick & Hrest)]; [done |].
  pose proof (incr_events_pick _ _ _ Hpick) as [Hno _].
  pose proof (exec_pickServerID _ _ _ Hpick) as [_ Hin].
  apply exec_pickServerID_result in Hpick
    as [(_ & _ & ->)|(_ & a & _ & -> & Hpr)]; [by destruct Hrest |].
  destruct pr as [sid|e1|p]; [| |by destruct Hrest].
  2:{ destruct Hrest as [-> [= ->]].
      unfold pick_result in Hpr. destruct a as [i|msg].
      - case_decide; [|done]. by destruct (serverIDs g !! Z.to_nat i).
      - injection Hpr as ->.
        split_and!; [done | intros ? [= <-]; by exists msg | done]. }
  destruct Hrest as (f & Hloop & Hres). destruct f as [st|res]; simpl in Hres.
  - unfold finish in Hres. case_decide as Hcond; [|done]. injection Hres as ->.
    pose proof (loop_run_accounting _ _ _ _ _ _ Hloop) as [Hl Hacc];
      [by destruct Hmk | by apply init_state_in_range |]. simpl in Hl, Hacc.
    split_and!; [simpl; split_and!; [done | done | lia | ] | done |].
    + destruct Hcond; lia.
    + intros _ _ _ _ _. unfold incr_calls. rewrite incr_events_app, Hno. simpl.
      apply (loop_run_exhausted _ _ _ _ _ _ Hloop). destruct Hcond; lia.
  - subst res.
    apply loop_run_Return_error in Hloop
      as [(msg & [= ->])|[(ms & [= ->])|[(sec & [= ->] & ?)|[[= ->] ?]]]];
      (split_and!; [simpl; auto | done | done]).
Qed.

Lemma GenMultiIDs_errors_witness :
  ∃ s tr,
    run Mem.redis (GenMultiIDs Demo.g 2049) Demo.w0 =
      (Err (ErrNotEnough "ns" 2049 2048 1700000000130), s, tr) ∧
    incr_calls tr = 8%nat.
Proof.
  eexists _, _. split; [vm_compute; reflexivity |].
  opose proof (GenMultiIDs_errors Mem.redis Demo.g 2049 Demo.w0 _ _ _ _)
    as (_ & _ & Hcalls).
  - vm_compute. reflexivity.
  - eapply Hcalls. reflexivity.
Defined.

(** ** The calls of a batch *)

Lemma loop_run_clock_reads g serverID n st tr f :
  loop_run g serverID n st tr f →
  length (clock_reads tr) = (2 * incr_calls tr)%nat ∧
  (length tr ≤ 4 * incr_calls tr)%nat.
Proof.
  unfold incr_calls.
  induction 1 as [|n st n1 n2 r res|n st n1 n2 r st1 tr f ? ? ? ? ? ? IH].
  - done.
  - rewrite clock_reads_attempt, incr_events_attempt. split; [done |].
    unfold attempt_trace. destruct r; [case_decide|]; simpl; lia.
  - rewrite clock_reads_app, incr_events_app, !length_app,
      clock_reads_attempt, incr_events_attempt. simpl.
    split; [lia |]. unfold attempt_trace.
    destruct r; [case_decide|]; simpl; lia.
Qed.

(** X15. What one batch costs.  Each bucket attempt reads the wall clock
    twice (the two [g.timeMS()] arguments of [lo.Ternary]) and sends one
    [INCRBY]; with the one random draw and at most one [EXPIRE] per attempt,
    a call makes at most 16 clock reads and 33 external calls in all. *)
Theorem GenMultiIDs_call_budget {W} (h : env W) g counts s :
  let tr := (run h (GenMultiIDs g counts) s).2 in
  length (clock_reads tr) = (2 * incr_calls tr)%nat ∧
  (length (clock_reads tr) ≤ 16)%nat ∧
  (length tr ≤ 33)%nat.
Proof.
  destruct (run h (GenMultiIDs g counts) s) as [[r s'] tr] eqn:Hrun. simpl.
  apply run_exec in Hrun.
  pose proof (exec_GenMultiIDs_incr_calls _ _ _ _ Hrun) as Hcalls.
  unfold maxTimeAddrTimes in Hcalls.
  assert (length (clock_reads tr) = (2 * incr_calls tr)%nat ∧
          (length tr ≤ 1 + 4 * incr_calls tr)%nat) as [Hreads Hlen];
    [|split_and!; [done | lia | lia]].
  apply exec_GenMultiIDs in Hrun
    as [(_ & -> & _)|(Hmk & tr1 & tr2 & pr & -> & Hpick & Hrest)];
    [split; simpl; [done | lia] |].
  pose proof (incr_events_pick _ _ _ Hpick) as [Hno _].
  apply exec_pickServerID in Hpick as [Htr1 _].
  assert (clock_reads tr1 = [] ∧ (length tr1 ≤ 1)%nat) as [Hcl Hl1].
  { destruct Htr1 as [->|[a ->]]; simpl; split; (done || lia). }
  unfold incr_calls in *.
  rewrite clock_reads_app, incr_events_app, Hcl, Hno, length_app. simpl.
  destruct pr as [sid|e|p];
    [|destruct Hrest as [-> _]; rewrite app_nil_r; simpl; split; lia..].
  destruct Hrest as (f & Hloop & _).
  apply loop_run_clock_reads in Hloop as [? ?]. unfold incr_calls in *.
  rewrite length_app. split; lia.
Qed.

(** ** The time-to-live of the buckets, on the in-memory store *)

Lemma run_timeMS_mem w :
  ∃ t w1 tr,
    run Mem.redis timeMS w = (t, w1, tr) ∧
    Mem.store w1 = Mem.store w ∧ Mem.ttls w1 = Mem.ttls w.
Proof.
  unfold timeMS. simpl. unfold Mem.now.
  destruct (Mem.script_next (Mem.clock w)) as [t rest]. simpl. by eexists _, _, _.
Qed.

Lemma run_pickServerID_mem g w :
  ∃ r w1 tr,
    run Mem.redis (pickServerID g) w = (r, w1, tr) ∧
    Mem.store w1 = Mem.store w ∧ Mem.ttls w1 = Mem.ttls w.
Proof.
  unfold pickServerID. case_decide; [by eexists _, _, _ |]. simpl.
  unfold Mem.rand. destruct (Mem.script_next (Mem.dice w)) as [i rest]. simpl.
  case_decide; [|by eexists _, _, _].
  destruct (serverIDs g !! _); by eexists _, _, _.
Qed.

(** One iteration on the in-memory store: a bucket it creates gets its
    time-to-live before anything else is looked at. *)
Lemma run_attempt_covered g serverID st w f w' tr :
  run Mem.redis (attempt g serverID st) w = (f, w', tr) →
  Int64.in_range (leftNum st) → covered w → covered w'.
Proof.
  unfold attempt. intros Hrun Hrange Hcov.
  destruct (run_timeMS_mem w) as (t1 & w1 & tr1 & Hrun1 & Hs1 & Ht1).
  rewrite run_bind, Hrun1 in Hrun. cbv beta iota zeta in Hrun.
  destruct (run_timeMS_mem w1) as (t2 & w2 & tr2 & Hrun2 & Hs2 & Ht2).
  rewrite run_bind, Hrun2 in Hrun. cbv beta iota zeta in Hrun.
  rewrite Hs1 in Hs2. rewrite Ht1 in Ht2. clear Hrun1 Hrun2 Hs1 Ht1.
  revert Hrun. generalize (counterKey (namespace g) serverID
                             (next_ms (lastMs st) t1 t2)). intros key.
  rewrite run_bind. unfold incrBy. cbn [run env_incr Mem.redis].
  unfold Mem.incr. fold (value_at (Mem.store w2) key).
  case_decide as Htotal; cbn [as_int64 fst snd].
  - rewrite Int64Facts.wrap_id by done. cbv beta iota zeta.
    case_decide as Hstart.
    + unfold expire. simpl. unfold Mem.expire. simpl.
      rewrite lookup_insert_eq. intros [= _ <- _].
      intros k Hk. cbn [Mem.store Mem.ttls] in *. rewrite Hs2, Ht2 in *.
      destruct (decide (key = k)) as [->|Hne].
      * by rewrite lookup_insert_eq.
      * rewrite lookup_insert_ne in Hk by done.
        rewrite lookup_insert_ne by done. by apply Hcov.
    + simpl. intros [= _ <- _].
      intros k Hk. cbn [Mem.store Mem.ttls] in *. rewrite Hs2, Ht2 in *.
      destruct (decide (key = k)) as [->|Hne].
      * apply Hcov. unfold value_at in Hstart, Htotal.
        destruct (Mem.store w !! k); [done |]. exfalso. apply Hstart.
        simpl. rewrite Z.add_0_l. unfold Int64.sub.
        rewrite Z.sub_diag. done.
      * rewrite lookup_insert_ne in Hk by done. by apply Hcov.
  - simpl. intros [= _ <- _]. intros k Hk. rewrite Hs2, Ht2 in *. by apply Hcov.
Qed.

Lemma run_for_loop_covered g serverID n st w f w' tr :
  run Mem.redis (for_loop g serverID n st) w = (f, w', tr) →
  Int64.in_range (leftNum st) → covered w → covered w'.
Proof.
  revert st w f w' tr. induction n as [|n IH]; intros st w f w' tr; cbn [for_loop].
  { by intros [= _ <- _]. }
  case_decide as Hpos; [|by intros [= _ <- _]].
  rewrite run_bind.
  destruct (run Mem.redis (attempt g serverID st) w) as [[f1 w1] tr1] eqn:Hatt.
  cbv beta iota zeta. intros Hrun Hrange Hcov.
  pose proof (run_attempt_covered _ _ _ _ _ _ _ Hatt Hrange Hcov) as Hcov1.
  destruct f1 as [st1|res].
  - destruct (run Mem.redis (for_loop g serverID n st1) w1)
      as [[f2 w2] tr2] eqn:Hloop.
    injection Hrun as _ <- _. eapply IH; [exact Hloop | | done].
    apply run_exec, exec_attempt in Hatt
      as (n1 & n2 & r & _ & _ & Hr & _ & Hflow). symmetry in Hflow.
    apply attempt_flow_Next in Hflow as (c & -> & Hsettle).
    apply settle_Next in Hsettle as [_ Hcases]; [|lia|done|done].
    destruct Hcases as [(_ & -> & _)|(_ & _ & _ & -> & _)]; [done |].
    simpl in Hr. int64_lia.
  - simpl in Hrun. by injection Hrun as _ <- _.
Qed.

(** X16. No bucket is left to live forever.  On the in-memory store, if
    every key carries the ten-minute time-to-live before a call of
    [GenMultiIDs], every key carries it after the call, whatever the call
    returned: the bucket a call creates is given its time-to-live right after
    the [INCRBY] that created it, before the checks that may end the call
    with an error. *)
Theorem GenMultiIDs_keeps_buckets_expiring g counts w :
  covered w → covered (run Mem.redis (GenMultiIDs g counts) w).1.2.
Proof.
  intros Hcov. unfold GenMultiIDs. case_decide as Hmk; [|done].
  rewrite run_bind.
  destruct (run_pickServerID_mem g w) as (r & w1 & tr1 & Hpick & Hs & Ht).
  rewrite Hpick. cbv beta iota zeta.
  assert (covered w1) as Hcov1.
  { intros k. rewrite Hs, Ht. apply Hcov. }
  destruct r as [sid|e|p]; [|done..].
  rewrite run_bind.
  destruct (run Mem.redis (for_loop g sid maxTimeAddrTimes _) w1)
    as [[f w2] tr2] eqn:Hloop.
  apply run_for_loop_covered in Hloop;
    [|by apply (init_state_in_range counts)|done].
  by destruct f.
Qed.

Lemma GenMultiIDs_keeps_buckets_expiring_witness :
  Mem.ttls (run Mem.redis (GenMultiIDs Demo.g 300) Demo.w0).1.2
    !! "id_generator:ns:7:1700000000124" = Some counterKeyExpiration.
Proof.
  apply (GenMultiIDs_keeps_buckets_expiring Demo.g 300 Demo.w0).
  - intros key [v Hv]. cbn [Demo.w0 Mem.fresh Mem.store] in Hv.
    unfold Demo.w0, Mem.fresh in Hv. cbn [Mem.store] in Hv.
    by rewrite lookup_empty in Hv.
  - by_compute.
Defined.

(** ** Identifiers across the calls of a session *)

Lemma NoDup_by_bucket (l : list Z) :
  (∀ id, id ∈ l →
     ∃ serverID seconds millis,
       in_bucket serverID seconds millis id ∧
       NoDup (filter (in_bucket serverID seconds millis) l)) →
  NoDup l.
Proof.
  induction l as [|x l IH]; intros Hl; constructor.
  - destruct (Hl x ltac:(left)) as (sid & sec & mil & Hx & Hnd).
    rewrite filter_cons_True in Hnd by done.
    apply NoDup_cons in Hnd as [Hnotin _]. intros Hin. apply Hnotin.
    by apply list_elem_of_filter.
  - apply IH. intros id Hid.
    destruct (Hl id ltac:(by right)) as (sid & sec & mil & Hin & Hnd).
    exists sid, sec, mil. split; [done |].
    destruct (decide (in_bucket sid sec mil x)) as [Hx|Hx].
    + rewrite filter_cons_True in Hnd by done. by apply NoDup_cons in Hnd as [_ ?].
    + by rewrite filter_cons_False in Hnd.
Qed.

Lemma settled_NoDup g σ l : settled g σ l → NoDup l.
Proof.
  intros (Hwf & Hcont & _). apply NoDup_by_bucket. intros id Hid.
  rewrite Forall_forall in Hwf.
  destruct (Hwf id Hid) as (sid & ms & i & Hb & Hi & ->).
  exists sid, (Z.quot ms 1000), (Z.rem ms 1000).
  split; [apply (proj2 (in_bucket_pack_ms sid ms i sid ms Hb Hi Hb)); by split |].
  destruct (Hcont sid ms Hb) as (m & _ & Hbc & _).
  apply (NoDup_fmap_1 id_counter). unfold bucket_counters in Hbc.
  rewrite Hbc. apply NoDup_seqZ.
Qed.

(** X17. No identifier is handed out twice.  For any sequence of calls of
    one generator on an in-memory store that starts empty, under any clock
    script at or after the epoch (it may stand still or step back) and any
    picks of the server id, all identifiers returned by all the calls
    together are pairwise distinct. *)
Theorem session_ids_distinct g reqs clock dice :
  Forall (λ t, 0 ≤ t ≤ Int64.max_int) clock →
  let w := {| Mem.store := ∅; Mem.ttls := ∅;
              Mem.clock := clock; Mem.dice := dice |} in
  NoDup (issued (run Mem.redis (session g reqs) w).1.1).
Proof.
  intros Hclock w.
  destruct (run Mem.redis (session g reqs) w) as [[rs w'] tr] eqn:Hrun.
  pose proof (session_settled g reqs w rs w' tr [] Hrun Hclock
                (settled_empty g)) as Hset.
  by apply settled_NoDup in Hset.
Qed.

Lemma session_ids_distinct_witness :
  let g := {| serverIDs := [7; 8]; namespace := "ns" |} in
  let w := {| Mem.store := ∅; Mem.ttls := ∅;
              Mem.clock := [Demo.t0; Demo.t0; Demo.t0 - Millisecond];
              Mem.dice := [0; 1; 0] |} in
  length (issued (run Mem.redis (session g [300; 5; 300]) w).1.1) = 605%nat ∧
  NoDup (issued (run Mem.redis (session g [300; 5; 300]) w).1.1).
Proof.
  intros g w. split; [vm_compute; reflexivity |].
  apply (session_ids_distinct g [300; 5; 300]
           [Demo.t0; Demo.t0; Demo.t0 - Millisecond] [0; 1; 0]).
  by_compute.
Defined.
